(** * Progressive sample accumulation and worker dispatch of the raytracer's
      browser front end (browser/src/App.tsx, render.ts, worker.ts)

    The TypeScript sources are embedded shallowly:
    - a JS [number] is an IEEE 754 binary64 value, a [Float32Array] element an
      IEEE 754 binary32 value; both are [spec_float]s and the arithmetic is the
      one of the Standard Library's [SpecFloat] (round to nearest, ties to even);
    - typed arrays are lists, read by index with stdpp's lookup, so that an
      index past the end gives [None], which is JS's [undefined];
    - the heap of typed arrays, used for the frame property of [add], is a
      [gmap] from locations to arrays;
    - React state, updater queues and refs of the [App] component are explicit
      records, as are the worker contexts and their event queues. *)

From Stdlib Require Import ZArith List Bool Lia QArith Qround Qpower Qabs Lqa.
From Stdlib Require Import Floats.SpecFloat.
From stdpp Require Import base list gmap strings relations.

Local Open Scope Z_scope.

(** ** JS numbers *)

Abbreviation float := spec_float.

(** The [number] nearest to an integer literal. *)
Definition of_Z (n : Z) : float := binary_normalize 53 1024 n 0 false.

Definition NaN : float := S754_nan.
Definition pos_zero : float := S754_zero false.
Definition Infinity : float := S754_infinity false.

(** [x + y], [x * y] and [x / y] on numbers. *)
Definition js_add (x y : float) : float := SFadd 53 1024 x y.
Definition js_mul (x y : float) : float := SFmul 53 1024 x y.
Definition js_div (x y : float) : float := SFdiv 53 1024 x y.

(** [Math.floor]: NaN, the infinities, the zeros and the integers are returned
    as they are; otherwise the value [±m·2^e] with [e < 0] is rounded towards
    minus infinity (an arithmetic right shift), which is exact in binary64.  A
    positive fraction below one gives [+0]. *)
Definition Math_floor (x : float) : float :=
  match x with
  | S754_finite s m e =>
      if 0 <=? e then x
      else binary_normalize 53 1024 (Z.shiftr (cond_Zopp s (Zpos m)) (- e)) 0 false
  | _ => x
  end.

(** A shift record of which no nonzero bit has been dropped. *)
Definition exact_record (m : positive) : shr_record :=
  {| shr_m := Zpos m; shr_r := false; shr_s := false |}.

(** Zeros, negative numbers, minus infinity and NaN. *)
Definition is_nonpositive (x : float) : bool :=
  match x with
  | S754_finite false _ _ | S754_infinity false => false
  | _ => true
  end.

(** A value read from an array: a number, or [undefined] past the end. *)
Abbreviation JSValue := (option float).

(** [ToNumber]: [undefined] converts to NaN. *)
Definition ToNumber (v : JSValue) : float :=
  match v with
  | Some x => x
  | None => NaN
  end.

(** The [+] operator on two values that are numbers or [undefined]. *)
Definition js_plus (u v : JSValue) : float := js_add (ToNumber u) (ToNumber v).

(** ** Typed arrays *)

(** A [Float32Array] holds binary32 values (precision 24, [emax] 128). *)
Abbreviation Float32Array := (list float).
Abbreviation Uint8ClampedArray := (list Z).

Definition is_float32 (x : float) : bool := valid_binary 24 128 x.
Definition is_float64 (x : float) : bool := valid_binary 53 1024 x.

(** Writing a number into a [Float32Array] rounds it to binary32. *)
Definition Float32_store (x : float) : float :=
  match x with
  | S754_finite s m e => binary_round 24 128 s m e
  | _ => x
  end.

(** Reading an element gives the same value as a number (binary64). *)
Definition Float32_load (x : float) : float :=
  match x with
  | S754_finite s m e => binary_round 53 1024 s m e
  | _ => x
  end.

(** [a[i]] *)
Definition Float32Array_get (a : Float32Array) (i : nat) : JSValue :=
  Float32_load <$> a !! i.

(** [new Float32Array(n)]: [n] zeros. *)
Definition new_Float32Array (n : nat) : Float32Array := replicate n pos_zero.

(** [a.map(callback)] on a [Float32Array]: a new array of the same length,
    element [i] being [callback(a[i], i)] rounded to binary32. *)
Definition Float32Array_map (callback : float -> nat -> float) (a : Float32Array)
  : Float32Array :=
  imap (fun i x => Float32_store (callback (Float32_load x) i)) a.

(** [ToUint8Clamp]: NaN gives 0, the value is clamped to [0, 255] and rounded
    to the nearest integer, ties to even. *)
Definition ToUint8Clamp (x : float) : Z :=
  match x with
  | S754_nan => 0
  | S754_zero _ => 0
  | S754_infinity s => if s then 0 else 255
  | S754_finite true _ _ => 0
  | S754_finite false m e =>
      if 0 <=? e then Z.min 255 (Z.shiftl (Zpos m) e)
      else
        let f := Z.shiftr (Zpos m) (- e) in
        let r := Z.land (Zpos m) (Z.ones (- e)) in
        let half := Z.shiftl 1 (- e - 1) in
        if 255 <=? f then 255
        else if r <? half then f
        else if half <? r then f + 1
        else if Z.even f then f else f + 1
  end.

(** [new Uint8ClampedArray(typedArray)]: element by element conversion. *)
Definition new_Uint8ClampedArray (a : Float32Array) : Uint8ClampedArray :=
  (fun x => ToUint8Clamp (Float32_load x)) <$> a.

(** ** App.tsx: [add] and [toImageBuffer] *)

(** [function add(a, b) { return a.map((_, i) => a[i] + b[i]); }] *)
Definition add (a b : Float32Array) : Float32Array :=
  Float32Array_map
    (fun _ i => js_plus (Float32Array_get a i) (Float32Array_get b i)) a.

(** [new Uint8ClampedArray(buffer.map((x) => Math.floor((x / numSamples) * 255)))] *)
Definition toImageBuffer (buffer : Float32Array) (numSamples : float)
  : Uint8ClampedArray :=
  new_Uint8ClampedArray
    (Float32Array_map
       (fun x _ => Math_floor (js_mul (js_div x numSamples) (of_Z 255))) buffer).

(** ** The accumulation state *)

(** The running sum is [buffer.current], the sample counter the React state
    [numSamples] (a JS number, initially 0). *)
Record AccumulationState := {
  sum : Float32Array;
  sampleCount : float
}.

Definition zero_state (n : nat) : AccumulationState :=
  {| sum := new_Float32Array n; sampleCount := of_Z 0 |}.

(** One merge, as the effect of [App] performs it:
    [setNumSamples((n) => n + 1); buffer.current = add(buffer.current, newSamples)]. *)
Definition merge (st : AccumulationState) (sample : Float32Array)
  : AccumulationState :=
  {| sum := add (sum st) sample;
     sampleCount := js_add (sampleCount st) (of_Z 1) |}.

Definition merge_all (st : AccumulationState) (samples : list Float32Array)
  : AccumulationState :=
  foldl merge st samples.

(** The display image of a state. *)
Definition toDisplayImage (st : AccumulationState) : Uint8ClampedArray :=
  toImageBuffer (sum st) (sampleCount st).

(** Element-wise addition as [add] computes it: both elements are read as
    numbers, added in binary64 and the result is written back as binary32. *)
Definition f32_add (x y : float) : float :=
  Float32_store (js_add (Float32_load x) (Float32_load y)).

(** Binary32 constants used in the examples. *)
Definition f32 (m e : Z) : float := binary_normalize 24 128 m e false.
Definition half32 : float := f32 1 (-1).
Definition one32 : float := f32 1 0.

(** ** [add] on a heap of typed arrays

    [Float32Array.prototype.map] allocates a new array of the length of the
    receiver and fills it index by index; the callback of [add] reads [a[i]]
    and [b[i]] from the heap as it is at that moment. *)

Abbreviation loc := positive.
Abbreviation heap := (gmap loc Float32Array).

Definition heap_get (h : heap) (a : loc) (i : nat) : JSValue :=
  h !! a ≫= fun arr => Float32Array_get arr i.

(** [A[i] = v]; a write past the end of a typed array is ignored. *)
Definition heap_set (h : heap) (A : loc) (i : nat) (v : float) : heap :=
  alter (fun arr => <[i := Float32_store v]> arr) A h.

Fixpoint map_loop (callback : heap -> float -> nat -> float) (O A : loc)
    (k n : nat) (h : heap) : heap :=
  match n with
  | O => h
  | S n' =>
      let kValue := ToNumber (heap_get h O k) in
      let mappedValue := callback h kValue k in
      map_loop callback O A (S k) n' (heap_set h A k mappedValue)
  end.

Definition Float32Array_map_heap (callback : heap -> float -> nat -> float)
    (O : loc) (h : heap) : heap * loc :=
  let len := from_option length 0%nat (h !! O) in
  let A := fresh (dom h) in
  (map_loop callback O A 0 len (<[A := new_Float32Array len]> h), A).

Definition add_heap (a b : loc) (h : heap) : heap * loc :=
  Float32Array_map_heap
    (fun h _ i => js_plus (heap_get h a i) (heap_get h b i)) a h.

(** ** The programs that call the renderer *)

Inductive State := initializing | rendering | done.

(** The values of the two [useState] hooks of [App] in one render. *)
Record Hooks := {
  state : State;
  numSamples : float
}.

(** State updates requested during an effect; React applies them, in order,
    before the next render. *)
Inductive Update :=
  | setState (s : State)
  | setNumSamples (updater : float -> float).

Definition apply_update (hk : Hooks) (u : Update) : Hooks :=
  match u with
  | setState s => {| state := s; numSamples := numSamples hk |}
  | setNumSamples f => {| state := state hk; numSamples := f (numSamples hk) |}
  end.

Definition commit (hk : Hooks) (queue : list Update) : Hooks :=
  foldl apply_update hk queue.

(** The canvas element: whether [getContext("2d")] gives a context, and the
    pixels it shows. *)
Record Canvas := {
  has_context : bool;
  pixels : Uint8ClampedArray
}.

(** The two [useRef] cells of [App]. *)
Record Refs := {
  buffer_current : Float32Array;
  canvasRef_current : option Canvas
}.

(** [target.set(source)]: a [RangeError] ([None]) when the source is longer. *)
Definition Uint8ClampedArray_set (target source : Uint8ClampedArray)
  : option Uint8ClampedArray :=
  if decide (length source <= length target)%nat
  then Some (source ++ drop (length source) target)
  else None.

(** [ctx.createImageData(width, height)]: transparent black. *)
Definition createImageData (width height : Z) : Uint8ClampedArray :=
  replicate (Z.to_nat (width * height * 4)) 0.

(** How the body of an effect ends: it returns, or [imageData.data.set]
    raises its [RangeError], which leaves the effect at that statement. *)
Inductive Completion := returned | thrown_RangeError.

Inductive EventType := message | error | messageerror.

Record Event := {
  type : EventType;
  data : option Uint8ClampedArray
}.

Inductive LogEntry :=
  | LogText (s : string)
  | LogEvent (e : Event).

(** The only listener of the sources: [(event) => { console.log(event); }]. *)
Inductive Listener := log_the_event.

(** A worker as the main context holds it, with its two message queues. *)
Record Worker := {
  alive : bool;
  inbox : list (float * float);
  outbox : list Event;
  listeners : list (EventType * Listener)
}.

(** The main context (console, accumulation state) and the workers. *)
Record System := {
  console : list LogEntry;
  accumulation : AccumulationState;
  workers : list Worker;
  worker_console : list LogEntry
}.

Global Instance EventType_eq_dec : EqDecision EventType.
Proof. solve_decision. Defined.

Inductive Label :=
  | call (width height : float)
  | work (i : nat)
  | lost (i : nat)
  | deliver (i : nat) (ev : Event).

(** A result of worker [i] reaching the main context. *)
Definition is_result_from (i : nat) (l : Label) : bool :=
  match l with
  | deliver j ev => bool_decide (j = i) && bool_decide (type ev = message)
  | _ => false
  end.

Definition results_from (i : nat) (tr : list Label) : nat :=
  length (List.filter (is_result_from i) tr).

(** The requests and results of a worker that have not reached the main
    context yet. *)
Definition is_message (ev : Event) : bool := bool_decide (type ev = message).

Definition pending (wk : Worker) : nat :=
  (length (inbox wk) + length (List.filter is_message (outbox wk)))%nat.

(** What worker [i] may still deliver: one result if it does not exist yet. *)
Definition budget (i : nat) (s : System) : nat :=
  from_option pending 1%nat (workers s !! i).

Section Program.
(** The WebAssembly export [create_spectrum_image] is outside the sources;
    it is taken as a parameter.  Its result is used as a [Float32Array]. *)
Variable create_spectrum_image : float -> float -> Float32Array.

(** *** render.ts *)

(** [new Uint8ClampedArray(floatImage.map((x) => Math.floor(x * 255)))] *)
Definition renderImage (width height : float) : Uint8ClampedArray :=
  let floatImage := create_spectrum_image width height in
  new_Uint8ClampedArray
    (Float32Array_map (fun x _ => Math_floor (js_mul x (of_Z 255))) floatImage).

(** *** The [App] that accumulates on the main context

    [width] and [height] are the constants 1280 and 720 in the source. *)

(** The body of the effect, run once after the first render; [hk] holds the
    values that render's closure captured.  The result is how the effect
    ends, the queue of state updates requested up to there and the refs as
    they are then: where [imageData.data.set] raises, the counter update is
    already requested and [buffer.current] already replaced, and nothing is
    painted. *)
Definition App_effect_run (width height : Z) (hk : Hooks) (refs : Refs)
  : Completion * (list Update * Refs) :=
  let queue := [setState rendering] in
  let newSamples := create_spectrum_image (of_Z width) (of_Z height) in
  let queue := queue ++ [setNumSamples (fun n => js_add n (of_Z 1))] in
  let buffer' := add (buffer_current refs) newSamples in
  let unpainted :=
    {| buffer_current := buffer'; canvasRef_current := canvasRef_current refs |} in
  match canvasRef_current refs with
  | Some canvas =>
      if has_context canvas then
        let imageData := createImageData width height in
        let data := toImageBuffer buffer' (numSamples hk) in
        match Uint8ClampedArray_set imageData data with
        | Some imageData' =>
            (returned,
             (queue ++ [setState done],
              {| buffer_current := buffer';
                 canvasRef_current :=
                   Some {| has_context := true; pixels := imageData' |} |}))
        | None => (thrown_RangeError, (queue, unpainted))
        end
      else (returned, (queue, unpainted))
  | None => (returned, (queue, unpainted))
  end.

(** The updates requested by the effect and the refs after it. *)
Definition App_effect (width height : Z) (hk : Hooks) (refs : Refs)
  : list Update * Refs :=
  (App_effect_run width height hk refs).2.

Definition App_initial_hooks : Hooks :=
  {| state := initializing; numSamples := of_Z 0 |}.

Definition App_initial_refs (width height : Z) (canvas : option Canvas) : Refs :=
  {| buffer_current := new_Float32Array (Z.to_nat (width * height * 4));
     canvasRef_current := canvas |}.

(** Mounting: first render, effect, then the commit of the queued updates. *)
Definition App_mount (width height : Z) (canvas : option Canvas) : Hooks * Refs :=
  let '(queue, refs) :=
    App_effect width height App_initial_hooks
      (App_initial_refs width height canvas) in
  (commit App_initial_hooks queue, refs).

(** The accumulation state held by the hooks and refs of [App]. *)
Definition App_accumulation (hk : Hooks) (refs : Refs) : AccumulationState :=
  {| sum := buffer_current refs; sampleCount := numSamples hk |}.

(** *** worker.ts *)

(** [self.onmessage]: log, render, post the image.  The result is what is
    logged and what is posted. *)
Definition self_onmessage (event_data : float * float)
  : list LogEntry * list Uint8ClampedArray :=
  let '(w, h) := event_data in
  let image := renderImage w h in
  ([LogText "worker received message"], [image]).

(** *** The [App] that calls a worker *)

Definition message_event (image : Uint8ClampedArray) : Event :=
  {| type := message; data := Some image |}.

Definition error_event : Event := {| type := error; data := None |}.

(** [callWorker]: a new worker, one request posted to it, one listener for
    its [message] events. *)
Definition callWorker (width height : float) (s : System) : System :=
  {| console := console s;
     accumulation := accumulation s;
     workers := workers s ++
       [{| alive := true; inbox := [(width, height)]; outbox := [];
           listeners := [(message, log_the_event)] |}];
     worker_console := worker_console s ++ [LogText "worker loaded"] |}.

Definition run_listener (l : Listener) (ev : Event) (s : System) : System :=
  match l with
  | log_the_event =>
      {| console := console s ++ [LogEvent ev];
         accumulation := accumulation s;
         workers := workers s;
         worker_console := worker_console s |}
  end.

(** An event runs the listeners registered for its type, in order. *)
Definition dispatchEvent (ls : list (EventType * Listener)) (ev : Event)
    (s : System) : System :=
  foldl (fun s '(ty, l) => if decide (ty = type ev) then run_listener l ev s else s)
    s ls.

Definition set_worker (i : nat) (wk : Worker) (s : System) : System :=
  {| console := console s;
     accumulation := accumulation s;
     workers := <[i := wk]> (workers s);
     worker_console := worker_console s |}.

(** The steps of the system, each with its label: a call of [callWorker]; a
    worker handling its request; a worker that fails before it answers, for
    which the browser queues an [error] event; the delivery of a queued
    event on the main context. *)
Inductive step : System -> Label -> System -> Prop :=
  | step_call (width height : float) (s : System) :
      step s (call width height) (callWorker width height s)
  | step_work (i : nat) (wk : Worker) (req : float * float)
      (rest : list (float * float)) (s : System) :
      workers s !! i = Some wk ->
      alive wk = true ->
      inbox wk = req :: rest ->
      step s (work i)
        {| console := console s;
           accumulation := accumulation s;
           workers := <[i := {| alive := true; inbox := rest;
                                outbox := outbox wk ++
                                  (message_event <$> (self_onmessage req).2);
                                listeners := listeners wk |}]> (workers s);
           worker_console := worker_console s ++ (self_onmessage req).1 |}
  | step_lost (i : nat) (wk : Worker) (s : System) :
      workers s !! i = Some wk ->
      alive wk = true ->
      step s (lost i)
        (set_worker i {| alive := false; inbox := [];
                         outbox := outbox wk ++ [error_event];
                         listeners := listeners wk |} s)
  | step_deliver (i : nat) (wk : Worker) (ev : Event) (rest : list Event)
      (s : System) :
      workers s !! i = Some wk ->
      outbox wk = ev :: rest ->
      step s (deliver i ev)
        (dispatchEvent (listeners wk) ev
           (set_worker i {| alive := alive wk; inbox := inbox wk;
                            outbox := rest; listeners := listeners wk |} s)).

(** Runs, with the labels of their steps. *)
Inductive run : System -> list Label -> System -> Prop :=
  | run_nil (s : System) : run s [] s
  | run_cons (s s' s'' : System) (l : Label) (tr : list Label) :
      step s l s' -> run s' tr s'' -> run s (l :: tr) s''.

(** The [App] of App.tsx before its effect has run ([width] and [height]
    are 1280 and 720 in the source); the effect calls [callWorker] once. *)
Definition App_worker_initial (width height : Z) : System :=
  {| console := [];
     accumulation := zero_state (Z.to_nat (width * height * 4));
     workers := [];
     worker_console := [] |}.

Definition App_worker_mount (width height : Z) : System :=
  callWorker (of_Z width) (of_Z height) (App_worker_initial width height).
End Program.

(** ** What the specification asks of the display image *)

(** The exact value of a finite number. *)
Definition float_value (x : float) : option Q :=
  match x with
  | S754_zero _ => Some 0%Q
  | S754_finite s m e => Some (inject_Z (cond_Zopp s (Zpos m)) * Qpower 2 e)%Q
  | _ => None
  end.

(** The floor of [a·2^e]. *)
Definition floor_scaled (a e : Z) : Z :=
  if 0 <=? e then a * 2 ^ e else a / 2 ^ (- e).

(** The floor of [v·255] in exact arithmetic, for a finite [v]. *)
Definition exact_floor_255 (v : float) : option Z :=
  match v with
  | S754_zero _ => Some 0
  | S754_finite s m e => Some (floor_scaled (cond_Zopp s (Zpos m) * 255) e)
  | _ => None
  end.

Definition round_half_up (q : Q) : Z := Qfloor (q + (1 # 2))%Q.

Definition clamp (lo hi x : Z) : Z := Z.max lo (Z.min hi x).

(** The clamped floor of a number: of its exact value if it is finite; NaN
    gives 0 and the infinities the ends of the range. *)
Definition clamped_floor (y : float) : Z :=
  match float_value y with
  | Some q => clamp 0 255 (Qfloor q)
  | None => match y with S754_infinity false => 255 | _ => 0 end
  end.

(** [clamp(round(sum[i] / sampleCount * 255), 0, 255)] *)
Definition spec_display_byte (s n : Q) : Z :=
  clamp 0 255 (round_half_up (s / n * inject_Z 255)%Q).

Definition spec_DisplayImage (st : AccumulationState) : list (option Z) :=
  (fun x => s ← float_value x; n ← float_value (sampleCount st);
            Some (spec_display_byte s n)) <$> sum st.

(** ** Notions used in the further properties *)

(** A number with the sign bit set. *)
Definition is_negative (x : float) : bool :=
  match x with
  | S754_zero s | S754_infinity s | S754_finite s _ _ => s
  | S754_nan => false
  end.

(** The requests of a trace: the arguments of its calls of [callWorker]. *)
Definition request_of (l : Label) : option (float * float) :=
  match l with
  | call width height => Some (width, height)
  | _ => None
  end.

Definition requests (tr : list Label) : list (float * float) :=
  omap request_of tr.

(** The requests that worker [i] handles in a trace. *)
Definition is_render_of (i : nat) (l : Label) : bool :=
  match l with
  | work j => bool_decide (j = i)
  | _ => false
  end.

Definition renders_of (i : nat) (tr : list Label) : nat :=
  length (List.filter (is_render_of i) tr).

(** The requests that worker [i] may still handle: one if it does not exist
    yet. *)
Definition unhandled (i : nat) (s : System) : nat :=
  from_option (fun wk => length (inbox wk)) 1%nat (workers s !! i).

(** The requests and results that have not reached the main context yet. *)
Definition in_flight (s : System) : nat := sum_list (pending <$> workers s).

(** An event that carries the image of one of the requests [R]. *)
Definition image_of_request (create_spectrum_image : float -> float -> Float32Array)
    (R : list (float * float)) (ev : Event) : Prop :=
  exists w h : float,
    (w, h) ∈ R /\ ev = message_event (renderImage create_spectrum_image w h).

(** The invariant of the workers and of the console of the main context:
    every worker has the one listener of [callWorker], its pending requests
    were made, and every result, queued or logged, is the image of a request
    that was made. *)
Definition sound_worker (create_spectrum_image : float -> float -> Float32Array)
    (R : list (float * float)) (wk : Worker) : Prop :=
  listeners wk = [(message, log_the_event)]
  /\ Forall (fun req => req ∈ R) (inbox wk)
  /\ Forall (fun ev => type ev = message ->
                       image_of_request create_spectrum_image R ev) (outbox wk).

Definition sound (create_spectrum_image : float -> float -> Float32Array)
    (R : list (float * float)) (s : System) : Prop :=
  Forall (sound_worker create_spectrum_image R) (workers s)
  /\ Forall (fun entry => exists ev, entry = LogEvent ev
                          /\ image_of_request create_spectrum_image R ev)
       (console s).

(** ** Values and rounding errors *)

(** The rational [a·2^e]. *)
Definition dyadic (a e : Z) : Q := (inject_Z a * Qpower 2 e)%Q.

(** The record [r] is [m] shifted to the right by [k] bits: its mantissa is
    the quotient, and its two bits tell where the remainder lies with respect
    to one half. *)
Definition shifted (m k : Z) (r : shr_record) : Prop :=
  let rem := m - shr_m r * 2 ^ k in
  0 <= shr_m r /\ 0 <= rem < 2 ^ k
  /\ match loc_of_shr_record r with
     | loc_Exact => rem = 0
     | loc_Inexact Lt => 0 < 2 * rem < 2 ^ k
     | loc_Inexact Eq => 2 * rem = 2 ^ k
     | loc_Inexact Gt => 2 ^ k < 2 * rem
     end.

(** The value [m·2^e] is a multiple of [2^g]. *)
Definition on_grid (g : Z) (m : positive) (e : Z) : Prop :=
  (2 ^ Z.max 0 (g - e) | Zpos m).

(** The bound on the relative error of one addition of [add]: the rounding
    of the binary64 sum and the rounding to binary32 together stay below
    [2^-23]. *)
Definition add_roundoff : Q := 1 # 8388608.

(** The value of the element of a buffer under an index; 0 where there is
    none or it is not finite. *)
Definition value_at (i : nat) (a : Float32Array) : Q :=
  from_option (fun x => default 0%Q (float_value x)) 0%Q (a !! i).

(** The exact sum, and the sum of the absolute values, of the elements of
    the buffers under an index. *)
Definition exact_total (i : nat) (samples : list Float32Array) : Q :=
  foldl (fun acc s => (acc + value_at i s)%Q) 0%Q samples.

Definition abs_total (i : nat) (samples : list Float32Array) : Q :=
  foldl (fun acc s => (acc + Qabs (value_at i s))%Q) 0%Q samples.

(** [(1 + u)^k - 1] for the roundoff [u] of [add]: the relative error that
    [k] additions can build up. *)
Fixpoint error_factor (k : nat) : Q :=
  match k with
  | O => 0%Q
  | S k' => ((1 + add_roundoff) * error_factor k' + add_roundoff)%Q
  end.

(** * Exact cases of binary rounding *)

Section Exact.
Variables prec emax : Z.

Lemma iter_pos_iter {A} (f : A -> A) (n : positive) (x : A) :
  SpecFloat.iter_pos f n x = Pos.iter f x n.
Proof.
  revert x. induction n as [n IH | n IH |]; intros x; simpl.
  - rewrite !IH, !Pos.iter_swap. reflexivity.
  - rewrite !IH. reflexivity.
  - reflexivity.
Qed.

Lemma shiftl_succ (m : positive) (j : N) :
  Pos.shiftl m (N.succ j) = xO (Pos.shiftl m j).
Proof.
  destruct j as [| j]; simpl; [reflexivity |].
  apply Pos.iter_succ.
Qed.

Lemma shiftl_shiftl (m : positive) (j k : N) :
  Pos.shiftl (Pos.shiftl m j) k = Pos.shiftl m (j + k).
Proof.
  induction k as [| k IH] using N.peano_ind.
  - rewrite N.add_0_r. reflexivity.
  - rewrite N.add_succ_r, !shiftl_succ, IH. reflexivity.
Qed.

Lemma digits2_pos_shiftl (m : positive) (j : N) :
  Zpos (digits2_pos (Pos.shiftl m j)) = Zpos (digits2_pos m) + Z.of_N j.
Proof.
  induction j as [| j IH] using N.peano_ind.
  - unfold Pos.shiftl. lia.
  - rewrite shiftl_succ. simpl digits2_pos. rewrite Pos2Z.inj_succ, IH. lia.
Qed.

Lemma Zpos_shiftl (m : positive) (j : N) :
  Zpos (Pos.shiftl m j) = Zpos m * 2 ^ Z.of_N j.
Proof.
  induction j as [| j IH] using N.peano_ind.
  - unfold Pos.shiftl. simpl. lia.
  - rewrite shiftl_succ, Pos2Z.inj_xO, IH, N2Z.inj_succ, Z.pow_succ_r by lia. lia.
Qed.

Lemma iter_shr_1_shiftl (m : positive) (j : N) :
  N.iter j shr_1 (exact_record (Pos.shiftl m j)) = exact_record m.
Proof.
  induction j as [| j IH] using N.peano_ind.
  - reflexivity.
  - rewrite shiftl_succ, N.iter_succ_r. exact IH.
Qed.

Lemma shr_exact (m : positive) (j n : N) (e : Z) :
  (n <= j)%N ->
  shr (exact_record (Pos.shiftl m j)) e (Z.of_N n)
  = (exact_record (Pos.shiftl m (j - n)), e + Z.of_N n).
Proof.
  intros Hn. destruct n as [| n]; simpl.
  - rewrite N.sub_0_r, Z.add_0_r. reflexivity.
  - f_equal. rewrite iter_pos_iter.
    replace j with ((j - N.pos n) + N.pos n)%N at 1 by lia.
    rewrite <- shiftl_shiftl.
    exact (iter_shr_1_shiftl (Pos.shiftl m (j - N.pos n)) (N.pos n)).
Qed.

(** Rounding a mantissa whose dropped bits are all zero is exact. *)
Lemma binary_round_aux_exact (s : bool) (m : positive) (j n : N) (e : Z) :
  (n <= j)%N ->
  fexp prec emax (Zpos (digits2_pos m) + Z.of_N j + e) = e + Z.of_N n ->
  binary_round_aux prec emax s (Zpos (Pos.shiftl m j)) e loc_Exact
  = if e + Z.of_N n <=? emax - prec
    then S754_finite s (Pos.shiftl m (j - n)) (e + Z.of_N n)
    else S754_infinity s.
Proof.
  intros Hn Hc. unfold binary_round_aux, shr_fexp.
  cbn [shr_record_of_loc Zdigits2].
  rewrite digits2_pos_shiftl, Hc.
  replace (e + Z.of_N n - e) with (Z.of_N n) by lia.
  change {| shr_m := Zpos (Pos.shiftl m j); shr_r := false; shr_s := false |}
    with (exact_record (Pos.shiftl m j)).
  rewrite shr_exact by assumption.
  cbn [exact_record shr_m loc_of_shr_record round_nearest_even Zdigits2].
  rewrite digits2_pos_shiftl.
  replace (Zpos (digits2_pos m) + Z.of_N (j - n) + (e + Z.of_N n))
    with (Zpos (digits2_pos m) + Z.of_N j + e) by lia.
  rewrite Hc, Z.sub_diag. reflexivity.
Qed.

(** Rounding the pair [(m·2^j, e - j)], whose value [m·2^e] is representable,
    gives the canonical representation of that value. *)
Lemma binary_round_exact (s : bool) (m : positive) (j : N) (e : Z) :
  let c := fexp prec emax (Zpos (digits2_pos m) + e) in
  c <= e ->
  binary_round prec emax s (Pos.shiftl m j) (e - Z.of_N j)
  = if c <=? emax - prec
    then S754_finite s (Pos.shiftl m (Z.to_N (e - c))) c
    else S754_infinity s.
Proof.
  intros c Hc.
  assert (Hf : forall (k : N) (e' : Z), e' = e - Z.of_N k ->
             fexp prec emax (Zpos (digits2_pos m) + Z.of_N k + e') = c).
  { intros k e' ->. unfold c. f_equal. lia. }
  unfold binary_round.
  rewrite digits2_pos_shiftl, (Hf j) by reflexivity.
  unfold shl_align.
  destruct (c - (e - Z.of_N j)) as [| d | d] eqn:Hd.
  - rewrite (binary_round_aux_exact s m j 0%N) by
      (try lia; rewrite (Hf j) by reflexivity; lia).
    replace (e - Z.of_N j + Z.of_N 0) with c by lia.
    replace (j - 0)%N with (Z.to_N (e - c)) by lia. reflexivity.
  - rewrite (binary_round_aux_exact s m j (N.pos d)) by
      (try lia; rewrite (Hf j) by reflexivity; lia).
    replace (e - Z.of_N j + Z.of_N (N.pos d)) with c by lia.
    replace (j - N.pos d)%N with (Z.to_N (e - c)) by lia. reflexivity.
  - change (Pos.iter xO (Pos.shiftl m j) d)
      with (Pos.shiftl (Pos.shiftl m j) (N.pos d)).
    rewrite shiftl_shiftl.
    rewrite (binary_round_aux_exact s m (j + N.pos d) 0%N) by
      (try lia; rewrite (Hf (j + N.pos d)%N) by lia; lia).
    replace (c + Z.of_N 0) with c by lia.
    replace (j + N.pos d - 0)%N with (Z.to_N (e - c)) by lia. reflexivity.
Qed.
End Exact.

Lemma binary_round_shift (prec emax : Z) (s : bool) (m : positive) (j : N) (e : Z) :
  fexp prec emax (Zpos (digits2_pos m) + e) <= e ->
  binary_round prec emax s (Pos.shiftl m j) (e - Z.of_N j)
  = binary_round prec emax s m e.
Proof.
  intros Hc.
  rewrite (binary_round_exact prec emax s m j e Hc).
  generalize (binary_round_exact prec emax s m 0%N e Hc).
  unfold Pos.shiftl at 1. rewrite Z.sub_0_r. intros ->. reflexivity.
Qed.

Lemma digits2_pos_bounds (p : positive) :
  2 ^ (Zpos (digits2_pos p) - 1) <= Zpos p < 2 ^ Zpos (digits2_pos p).
Proof.
  induction p as [p IH | p IH |]; simpl digits2_pos.
  - rewrite Pos2Z.inj_succ, Z.pow_succ_r by lia.
    replace (Z.succ (Zpos (digits2_pos p)) - 1)
      with (Z.succ (Zpos (digits2_pos p) - 1)) by lia.
    rewrite Z.pow_succ_r by lia. lia.
  - rewrite Pos2Z.inj_succ, Z.pow_succ_r by lia.
    replace (Z.succ (Zpos (digits2_pos p)) - 1)
      with (Z.succ (Zpos (digits2_pos p) - 1)) by lia.
    rewrite Z.pow_succ_r by lia. lia.
  - simpl. lia.
Qed.

Lemma digits2_pos_le (p : positive) (n : Z) :
  Zpos p < 2 ^ n -> Zpos (digits2_pos p) <= n.
Proof.
  intros Hp. pose proof (digits2_pos_bounds p) as [Hlo _].
  destruct (Z.le_gt_cases (Zpos (digits2_pos p)) n) as [H | H]; [exact H |].
  exfalso. assert (0 <= n \/ n < 0) as [Hn | Hn] by lia.
  - assert (2 ^ n <= 2 ^ (Zpos (digits2_pos p) - 1))
      by (apply Z.pow_le_mono_r; lia). lia.
  - rewrite Z.pow_neg_r in Hp by lia. lia.
Qed.

(** Counting in binary64 is exact below [2^53]. *)
Lemma js_add_of_Z_1 (k : Z) :
  0 <= k < 2 ^ 53 -> js_add (of_Z k) (of_Z 1) = of_Z (k + 1).
Proof.
  intros [Hk0 Hk].
  destruct (Z.eq_dec k 0) as [-> | Hnz]; [reflexivity |].
  destruct (Z.eq_dec k (2 ^ 53 - 1)) as [-> | Hmax]; [vm_compute; reflexivity |].
  destruct k as [| p | p]; try lia.
  assert (Hd : Zpos (digits2_pos p) <= 53) by (apply digits2_pos_le; lia).
  assert (Hd' : Zpos (digits2_pos (p + 1)) <= 53)
    by (apply digits2_pos_le; lia).
  pose proof (Pos2Z.is_pos (digits2_pos p)) as Hpos.
  pose proof (Pos2Z.is_pos (digits2_pos (p + 1))) as Hpos'.
  change (Zpos p + 1) with (Zpos (p + 1)).
  unfold of_Z at 1. unfold binary_normalize.
  pose proof (binary_round_exact 53 1024 false p 0%N 0) as E.
  cbv zeta in E. unfold fexp, emin in E.
  rewrite Z.max_l in E by lia. specialize (E ltac:(lia)).
  unfold Pos.shiftl at 1 in E. change (0 - Z.of_N 0) with 0 in E.
  rewrite E. clear E.
  destruct (Z.leb_spec (Zpos (digits2_pos p) + 0 - 53) (1024 - 53)); [| lia].
  change (of_Z 1) with (S754_finite false (Pos.shiftl 1 52) (-52)).
  unfold js_add, SFadd.
  rewrite Z.min_r by lia.
  unfold shl_align at 2. change (-52 - -52) with 0. cbn [fst].
  assert (Hal : fst (shl_align
              (Pos.shiftl p (Z.to_N (0 - (Zpos (digits2_pos p) + 0 - 53))))
              (Zpos (digits2_pos p) + 0 - 53) (-52)) = Pos.shiftl p 52).
  { unfold shl_align.
    destruct (-52 - (Zpos (digits2_pos p) + 0 - 53)) as [| d | d] eqn:Hdd;
      cbn [fst].
    - f_equal. lia.
    - lia.
    - change (Pos.iter xO ?x d) with (Pos.shiftl x (N.pos d)).
      rewrite shiftl_shiftl. f_equal. lia. }
  rewrite Hal. cbn [cond_Zopp].
  replace (Zpos (Pos.shiftl p 52) + Zpos (Pos.shiftl 1 52))
    with (Zpos (Pos.shiftl (p + 1) 52))
    by (rewrite !Zpos_shiftl; lia).
  unfold of_Z, binary_normalize.
  apply (binary_round_shift 53 1024 false (p + 1) 52 0).
  unfold fexp, emin. lia.
Qed.

Lemma bounded32_inv (m : positive) (e : Z) :
  bounded 24 128 m e = true ->
  Z.max (Zpos (digits2_pos m) + e - 24) (-149) = e /\ e <= 104.
Proof.
  unfold bounded, canonical_mantissa, fexp, emin.
  intros [H1 H2]%andb_true_iff.
  apply Z.eqb_eq in H1. apply Z.leb_le in H2. split; [exact H1 | lia].
Qed.

Lemma bounded64_inv (m : positive) (e : Z) :
  bounded 53 1024 m e = true ->
  Z.max (Zpos (digits2_pos m) + e - 53) (-1074) = e /\ e <= 971.
Proof.
  unfold bounded, canonical_mantissa, fexp, emin.
  intros [H1 H2]%andb_true_iff.
  apply Z.eqb_eq in H1. apply Z.leb_le in H2. split; [exact H1 | lia].
Qed.

(** Reading a binary32 element is exact: the mantissa is shifted to 53 bits. *)
Lemma Float32_load_finite (s : bool) (m : positive) (e : Z) :
  bounded 24 128 m e = true ->
  Float32_load (S754_finite s m e)
  = S754_finite s (Pos.shiftl m (Z.to_N (53 - Zpos (digits2_pos m))))
      (Zpos (digits2_pos m) + e - 53).
Proof.
  intros [Hc He]%bounded32_inv.
  pose proof (Pos2Z.is_pos (digits2_pos m)) as Hpos.
  unfold Float32_load.
  pose proof (binary_round_exact 53 1024 s m 0%N e) as E.
  cbv zeta in E. unfold fexp, emin in E.
  rewrite Z.max_l in E by lia. specialize (E ltac:(lia)).
  unfold Pos.shiftl at 1 in E. rewrite Z.sub_0_r in E.
  rewrite E.
  destruct (Z.leb_spec (Zpos (digits2_pos m) + e - 53) (1024 - 53)); [| lia].
  do 2 f_equal. lia.
Qed.

Lemma Float32_load_is_float64 (x : float) :
  is_float32 x = true -> is_float64 (Float32_load x) = true.
Proof.
  destruct x as [s | s | | s m e]; try reflexivity.
  unfold is_float32. cbn [valid_binary]. intros Hb.
  rewrite Float32_load_finite by exact Hb.
  apply bounded32_inv in Hb as [Hc He].
  pose proof (Pos2Z.is_pos (digits2_pos m)) as Hpos.
  unfold is_float64, valid_binary, bounded, canonical_mantissa, fexp, emin.
  rewrite digits2_pos_shiftl.
  apply andb_true_iff. split; [apply Z.eqb_eq | apply Z.leb_le]; lia.
Qed.

(** Writing back what was read gives the element again. *)
Lemma Float32_store_load (x : float) :
  is_float32 x = true -> Float32_store (Float32_load x) = x.
Proof.
  destruct x as [s | s | | s m e]; try reflexivity.
  unfold is_float32. cbn [valid_binary]. intros Hb.
  rewrite Float32_load_finite by exact Hb.
  apply bounded32_inv in Hb as [Hc He].
  pose proof (Pos2Z.is_pos (digits2_pos m)) as Hpos.
  unfold Float32_store.
  replace (Zpos (digits2_pos m) + e - 53)
    with (e - Z.of_N (Z.to_N (53 - Zpos (digits2_pos m)))) by lia.
  rewrite binary_round_exact by (unfold fexp, emin; lia).
  unfold fexp, emin. change (3 - 128 - 24) with (-149).
  rewrite Hc, Z.sub_diag.
  destruct (Z.leb_spec e (128 - 24)); [reflexivity | lia].
Qed.

Lemma div_eucl_pow2 (a k : Z) :
  0 <= k -> Z.div_eucl (a * 2 ^ k) (2 ^ k) = (a, 0).
Proof.
  intros Hk. assert (H2 : 2 ^ k <> 0) by (apply Z.pow_nonzero; lia).
  pose proof (Z.div_mul a (2 ^ k) H2) as Hq.
  pose proof (Z.mod_mul a (2 ^ k) H2) as Hr.
  unfold Z.div, Z.modulo in Hq, Hr.
  destruct (Z.div_eucl (a * 2 ^ k) (2 ^ k)) as [q r]. congruence.
Qed.

Lemma SFdiv_core_binary_1 (m : positive) (e : Z) :
  Z.max (Zpos (digits2_pos m) + e - 53) (-1074) = e ->
  let j := if e =? -1074 then 0%N else 1%N in
  SFdiv_core_binary 53 1024 (Zpos m) e 4503599627370496 (-52)
  = (Zpos (Pos.shiftl m j), e - Z.of_N j, loc_Exact).
Proof.
  intros Hc j.
  pose proof (Pos2Z.is_pos (digits2_pos m)) as Hpos.
  unfold SFdiv_core_binary.
  change (Zdigits2 4503599627370496) with 53. cbn [Zdigits2].
  set (e' := Z.min _ _).
  assert (He' : e' = e - Z.of_N j).
  { unfold e', j, fexp, emin. destruct (Z.eqb_spec e (-1074)); lia. }
  clearbody e'. subst e'.
  destruct (e - -52 - (e - Z.of_N j)) as [| p | p] eqn:Hs; try lia.
  rewrite <- Hs, Z.shiftl_mul_pow2 by lia.
  replace (Zpos m * 2 ^ (e - -52 - (e - Z.of_N j)))
    with (Zpos (Pos.shiftl m j) * 2 ^ 52).
  2:{ rewrite Zpos_shiftl, <- Z.mul_assoc, <- Z.pow_add_r by lia.
      do 2 f_equal. lia. }
  change 4503599627370496 with (2 ^ 52).
  rewrite div_eucl_pow2 by lia. reflexivity.
Qed.

(** Dividing a number by one returns it. *)
Lemma js_div_1 (x : float) :
  is_float64 x = true -> js_div x (of_Z 1) = x.
Proof.
  destruct x as [s | s | | s m e];
    try reflexivity; try (destruct s; reflexivity).
  unfold is_float64. cbn [valid_binary]. intros [Hc He]%bounded64_inv.
  pose proof (Pos2Z.is_pos (digits2_pos m)) as Hpos.
  change (of_Z 1) with (S754_finite false 4503599627370496 (-52)).
  unfold js_div, SFdiv.
  rewrite SFdiv_core_binary_1 by exact Hc.
  rewrite xorb_false_r.
  set (j := if e =? -1074 then 0%N else 1%N).
  rewrite (binary_round_aux_exact 53 1024 s m j j (e - Z.of_N j))
    by (try lia; unfold fexp, emin; lia).
  replace (e - Z.of_N j + Z.of_N j) with e by lia.
  rewrite N.sub_diag.
  destruct (Z.leb_spec e (1024 - 53)); [reflexivity | lia].
Qed.

(** * Rounding a large number to binary32 *)

Lemma digits2_pos_unique (p : positive) (n : Z) :
  2 ^ (n - 1) <= Zpos p < 2 ^ n -> Zpos (digits2_pos p) = n.
Proof.
  intros [Hlo Hhi]. pose proof (digits2_pos_bounds p) as [Dlo Dhi].
  pose proof (Pos2Z.is_pos (digits2_pos p)) as Hpos.
  assert (Hn : 0 < n).
  { destruct (Z.lt_ge_cases 0 n) as [H | H]; [exact H |].
    assert (H0 : 2 ^ n <= 2 ^ 0) by (apply Z.pow_le_mono_r; lia).
    change (2 ^ 0) with 1 in H0. lia. }
  destruct (Z.lt_trichotomy (Zpos (digits2_pos p)) n) as [H | [H | H]].
  - assert (2 ^ Zpos (digits2_pos p) <= 2 ^ (n - 1))
      by (apply Z.pow_le_mono_r; lia). lia.
  - exact H.
  - assert (2 ^ n <= 2 ^ (Zpos (digits2_pos p) - 1))
      by (apply Z.pow_le_mono_r; lia). lia.
Qed.

Lemma shr_m_shr_1 (r : shr_record) :
  0 <= shr_m r -> shr_m (shr_1 r) = Z.div2 (shr_m r).
Proof.
  destruct r as [[| [p | p |] | p] b c]; cbn; try reflexivity; lia.
Qed.

Lemma shr_m_iter_shr_1 (n : positive) (r : shr_record) :
  0 <= shr_m r ->
  shr_m (SpecFloat.iter_pos shr_1 n r) = Z.shiftr (shr_m r) (Zpos n).
Proof.
  intros Hr. rewrite iter_pos_iter.
  induction n as [| n IH] using Pos.peano_ind.
  - cbn [Pos.iter]. rewrite shr_m_shr_1 by exact Hr.
    rewrite Z.div2_spec. reflexivity.
  - rewrite Pos.iter_succ, shr_m_shr_1.
    + rewrite IH, Z.div2_spec, Z.shiftr_shiftr by lia.
      f_equal. lia.
    + rewrite IH. apply Z.shiftr_nonneg. exact Hr.
Qed.

Lemma round_nearest_even_bounds (q : Z) (l : location) :
  q <= round_nearest_even q l <= q + 1.
Proof.
  destruct l as [| []]; cbn; try lia. destruct (Z.even q); lia.
Qed.

(** A binary32 value of at least [2^24] is shown as 255. *)
Lemma ToUint8Clamp_load_large (p : positive) (e : Z) :
  2 ^ 23 <= Zpos p < 2 ^ 24 -> 1 <= e <= 104 ->
  ToUint8Clamp (Float32_load (S754_finite false p e)) = 255.
Proof.
  intros Hp He.
  assert (Hd : Zpos (digits2_pos p) = 24) by (apply digits2_pos_unique; exact Hp).
  assert (Hb : bounded 24 128 p e = true).
  { unfold bounded, canonical_mantissa, fexp, emin. rewrite Hd.
    apply andb_true_iff. split; [apply Z.eqb_eq | apply Z.leb_le]; lia. }
  rewrite Float32_load_finite by exact Hb. rewrite Hd.
  change (Z.to_N (53 - 24)) with 29%N.
  cbn [ToUint8Clamp].
  assert (HM : Zpos (Pos.shiftl p 29) = Zpos p * 2 ^ 29)
    by (rewrite Zpos_shiftl; reflexivity).
  destruct (Z.leb_spec 0 (24 + e - 53)) as [Hge | Hlt].
  - rewrite Z.shiftl_mul_pow2 by lia.
    pose proof (Z.pow_le_mono_r 2 0 (24 + e - 53)) as Hpow.
    change (2 ^ 0) with 1 in Hpow. nia.
  - cbv zeta.
    assert (Hf : 255 <= Z.shiftr (Zpos (Pos.shiftl p 29)) (- (24 + e - 53))).
    { rewrite Z.shiftr_div_pow2 by lia. rewrite HM.
      replace 29 with ((29 - e) + e) at 1 by lia.
      rewrite Z.pow_add_r by lia.
      replace (- (24 + e - 53)) with (29 - e) by lia.
      rewrite Z.mul_assoc, (Z.mul_comm (Zpos p * 2 ^ (29 - e))), Z.mul_assoc.
      rewrite Z.div_mul by (apply Z.pow_nonzero; lia).
      pose proof (Z.pow_le_mono_r 2 1 e) as Hpow.
      change (2 ^ 1) with 2 in Hpow.
      pose proof (Z.pow_pos_nonneg 2 (29 - e)) as Hpos. nia. }
    destruct (Z.leb_spec 255 (Z.shiftr (Zpos (Pos.shiftl p 29)) (- (24 + e - 53))));
      [reflexivity | lia].
Qed.

(** The second shift of the rounding: a mantissa that rounding has taken to
    [2^24] is renormalized; any other 24-bit mantissa is kept. *)
Lemma shr_fexp_24 (p : positive) (e : Z) :
  2 ^ 23 <= Zpos p <= 2 ^ 24 -> -149 <= e ->
  shr_fexp 24 128 (Zpos p) e loc_Exact
  = if Zpos p =? 2 ^ 24
    then ({| shr_m := 2 ^ 23; shr_r := false; shr_s := false |}, e + 1)
    else ({| shr_m := Zpos p; shr_r := false; shr_s := false |}, e).
Proof.
  intros Hp He. unfold shr_fexp. cbn [Zdigits2 shr_record_of_loc].
  destruct (Z.eqb_spec (Zpos p) (2 ^ 24)) as [Heq | Hne].
  - assert (Hp24 : p = 16777216%positive) by (change (2 ^ 24) with 16777216 in Heq; lia).
    subst p.
    change (Zpos (digits2_pos 16777216)) with 25.
    unfold fexp, emin. rewrite Z.max_l by lia.
    replace (25 + e - 24 - e) with 1 by lia. reflexivity.
  - assert (Hd : Zpos (digits2_pos p) = 24)
      by (apply digits2_pos_unique; change (24 - 1) with 23; lia).
    rewrite Hd. unfold fexp, emin. rewrite Z.max_l by lia.
    replace (24 + e - 24 - e) with 0 by lia. reflexivity.
Qed.

(** Writing a number of at least [2^24] to a [Float32Array] and showing it
    gives 255. *)
Lemma ToUint8Clamp_store_large (M : positive) (E : Z) :
  Zpos (digits2_pos M) = 53 -> -28 <= E <= 971 ->
  ToUint8Clamp (Float32_load (Float32_store (S754_finite false M E))) = 255.
Proof.
  intros HdM HE.
  pose proof (digits2_pos_bounds M) as HM. rewrite HdM in HM.
  change (53 - 1) with 52 in HM.
  unfold Float32_store, binary_round.
  rewrite HdM. unfold fexp at 1, emin.
  rewrite Z.max_l by lia. unfold shl_align.
  replace (53 + E - 24 - E) with 29 by lia. cbn iota beta.
  unfold binary_round_aux, shr_fexp at 1. cbn [Zdigits2 shr_record_of_loc].
  rewrite HdM. unfold fexp at 1, emin. rewrite Z.max_l by lia.
  replace (53 + E - 24 - E) with 29 by lia. unfold shr at 1.
  set (r1 := SpecFloat.iter_pos shr_1 29 _).
  assert (Hq : shr_m r1 = Z.shiftr (Zpos M) 29)
    by (unfold r1; rewrite shr_m_iter_shr_1 by (cbn; lia); reflexivity).
  assert (Hqb : 2 ^ 23 <= shr_m r1 < 2 ^ 24).
  { rewrite Hq, Z.shiftr_div_pow2 by lia. split.
    - apply Z.div_le_lower_bound; [lia |].
      change (2 ^ 29 * 2 ^ 23) with (2 ^ 52). lia.
    - apply Z.div_lt_upper_bound; [lia |].
      change (2 ^ 29 * 2 ^ 24) with (2 ^ 53). lia. }
  pose proof (round_nearest_even_bounds (shr_m r1) (loc_of_shr_record r1)) as Hrne.
  set (m1 := round_nearest_even (shr_m r1) (loc_of_shr_record r1)) in *.
  clearbody m1 r1.
  destruct m1 as [| p1 | p1]; try lia.
  rewrite shr_fexp_24 by lia.
  destruct (Z.eqb_spec (Zpos p1) (2 ^ 24)) as [Heq | Hne]; cbn [shr_m].
  - change (2 ^ 23) with (Zpos 8388608). cbv iota beta.
    destruct (Z.leb_spec (E + 29 + 1) (128 - 24)); [| reflexivity].
    apply ToUint8Clamp_load_large; [cbn; lia | lia].
  - destruct (Z.leb_spec (E + 29) (128 - 24)); [| reflexivity].
    apply ToUint8Clamp_load_large; lia.
Qed.

(** * What a written and shown number becomes *)

Lemma binary_round_nonpositive (prec emax : Z) (m : positive) (e : Z) :
  is_nonpositive (binary_round prec emax true m e) = true.
Proof.
  unfold binary_round, binary_round_aux.
  destruct (shl_align m e _) as [mz ez].
  destruct (shr_fexp prec emax (Zpos mz) ez loc_Exact) as [mrs' e'].
  destruct (shr_fexp prec emax _ e' loc_Exact) as [mrs'' e''].
  destruct (shr_m mrs'') as [| p | p]; try reflexivity.
  destruct (e'' <=? emax - prec); reflexivity.
Qed.

Lemma Float32_store_nonpositive (x : float) :
  is_nonpositive x = true -> is_nonpositive (Float32_store x) = true.
Proof.
  destruct x as [s | s | | [] m e]; try (intros H; exact H); try discriminate.
  intros _. apply binary_round_nonpositive.
Qed.

Lemma Float32_load_nonpositive (x : float) :
  is_nonpositive x = true -> is_nonpositive (Float32_load x) = true.
Proof.
  destruct x as [s | s | | [] m e]; try (intros H; exact H); try discriminate.
  intros _. apply binary_round_nonpositive.
Qed.

Lemma ToUint8Clamp_nonpositive (x : float) :
  is_nonpositive x = true -> ToUint8Clamp x = 0.
Proof. destruct x as [s | [] | | [] m e]; try reflexivity; discriminate. Qed.

(** A number that is not positive is shown as 0. *)
Lemma ToUint8Clamp_store_nonpositive (x : float) :
  is_nonpositive x = true ->
  ToUint8Clamp (Float32_load (Float32_store x)) = 0.
Proof.
  intros Hx. apply ToUint8Clamp_nonpositive, Float32_load_nonpositive,
    Float32_store_nonpositive, Hx.
Qed.

(** The number of a positive integer below [2^53]. *)
Lemma of_Z_pos (p : positive) :
  Zpos p < 2 ^ 53 ->
  of_Z (Zpos p)
  = S754_finite false (Pos.shiftl p (Z.to_N (53 - Zpos (digits2_pos p))))
      (Zpos (digits2_pos p) - 53).
Proof.
  intros Hp.
  assert (Hd : Zpos (digits2_pos p) <= 53) by (apply digits2_pos_le; exact Hp).
  pose proof (Pos2Z.is_pos (digits2_pos p)) as Hpos.
  unfold of_Z, binary_normalize.
  pose proof (binary_round_exact 53 1024 false p 0%N 0) as E.
  cbv zeta in E. unfold fexp, emin in E.
  rewrite Z.max_l in E by lia. specialize (E ltac:(lia)).
  unfold Pos.shiftl at 1 in E. change (0 - Z.of_N 0) with 0 in E.
  rewrite E.
  destruct (Z.leb_spec (Zpos (digits2_pos p) + 0 - 53) (1024 - 53)); [| lia].
  f_equal; first [lia | f_equal; lia].
Qed.

Lemma digits2_pos_of_Z (p : positive) :
  Zpos p < 2 ^ 53 ->
  Zpos (digits2_pos (Pos.shiftl p (Z.to_N (53 - Zpos (digits2_pos p))))) = 53.
Proof.
  intros Hp.
  assert (Hd : Zpos (digits2_pos p) <= 53) by (apply digits2_pos_le; exact Hp).
  rewrite digits2_pos_shiftl. lia.
Qed.

(** A positive integer below [2^24] is written to a [Float32Array] exactly
    and shown as itself, or as 255 if it is larger. *)
Lemma ToUint8Clamp_store_small (p : positive) :
  Zpos p < 2 ^ 24 ->
  ToUint8Clamp (Float32_load (Float32_store (of_Z (Zpos p)))) = Z.min (Zpos p) 255.
Proof.
  intros Hp.
  assert (Hd : Zpos (digits2_pos p) <= 24) by (apply digits2_pos_le; exact Hp).
  pose proof (Pos2Z.is_pos (digits2_pos p)) as Hpos.
  rewrite of_Z_pos by lia.
  set (d := Zpos (digits2_pos p)) in *.
  unfold Float32_store.
  replace (d - 53) with (0 - Z.of_N (Z.to_N (53 - d))) by lia.
  rewrite binary_round_exact by (unfold fexp, emin; fold d; lia).
  unfold fexp, emin. fold d. rewrite Z.max_l by lia.
  destruct (Z.leb_spec (d + 0 - 24) (128 - 24)); [| lia].
  unfold Float32_load.
  replace (d + 0 - 24) with (0 - Z.of_N (Z.to_N (24 - d))) by lia.
  replace (Z.to_N (0 - (0 - Z.of_N (Z.to_N (24 - d))))) with (Z.to_N (24 - d))
    by lia.
  rewrite binary_round_exact by (unfold fexp, emin; fold d; lia).
  unfold fexp, emin. fold d. rewrite Z.max_l by lia.
  destruct (Z.leb_spec (d + 0 - 53) (1024 - 53)); [| lia].
  cbn [ToUint8Clamp].
  destruct (Z.leb_spec 0 (d + 0 - 53)); [lia |]. cbv zeta.
  set (J := Z.to_N (0 - (d + 0 - 53))).
  assert (HJ : - (d + 0 - 53) = Z.of_N J) by (unfold J; lia).
  rewrite HJ, Zpos_shiftl.
  assert (H2 : 2 ^ Z.of_N J <> 0) by (apply Z.pow_nonzero; lia).
  rewrite Z.shiftr_div_pow2, Z.div_mul by (try exact H2; lia).
  rewrite Z.land_ones, Z.mod_mul by (try exact H2; lia).
  assert (Hhalf : 0 < Z.shiftl 1 (Z.of_N J - 1)).
  { rewrite Z.shiftl_mul_pow2 by lia. apply Z.mul_pos_pos; [lia |].
    apply Z.pow_pos_nonneg; lia. }
  destruct (Z.leb_spec 255 (Zpos p)); [lia |].
  destruct (Z.ltb_spec 0 (Z.shiftl 1 (Z.of_N J - 1))); lia.
Qed.

(** * The exact product with 255 and its floor *)

Lemma Pos_mul_shiftl (a b : positive) (j k : N) :
  (Pos.shiftl a j * Pos.shiftl b k)%positive = Pos.shiftl (a * b) (j + k).
Proof.
  apply Pos2Z.inj. rewrite Pos2Z.inj_mul, !Zpos_shiftl, Pos2Z.inj_mul.
  rewrite N2Z.inj_add, Z.pow_add_r by lia. ring.
Qed.

Lemma digits2_pos_mul_255 (m : positive) :
  Zpos (digits2_pos m) <= Zpos (digits2_pos (m * 255))
  <= Zpos (digits2_pos m) + 8.
Proof.
  pose proof (digits2_pos_bounds m) as [Hlo Hhi].
  pose proof (digits2_pos_bounds (m * 255)) as [Hlo' Hhi'].
  pose proof (Pos2Z.is_pos (digits2_pos m)) as Hpos.
  rewrite Pos2Z.inj_mul in Hlo', Hhi'. split.
  - destruct (Z.le_gt_cases (Zpos (digits2_pos m))
                (Zpos (digits2_pos (m * 255)))) as [H | H]; [exact H |].
    assert (2 ^ Zpos (digits2_pos (m * 255)) <= 2 ^ (Zpos (digits2_pos m) - 1))
      by (apply Z.pow_le_mono_r; lia). lia.
  - apply digits2_pos_le. rewrite Pos2Z.inj_mul, Z.pow_add_r by lia.
    change (2 ^ 8) with 256. lia.
Qed.

(** The product of a binary32 element with 255 is exact in binary64. *)
Lemma js_mul_255 (s : bool) (m : positive) (e : Z) :
  bounded 24 128 m e = true ->
  js_mul (Float32_load (S754_finite s m e)) (of_Z 255)
  = S754_finite s
      (Pos.shiftl (m * 255) (Z.to_N (53 - Zpos (digits2_pos (m * 255)))))
      (e - (53 - Zpos (digits2_pos (m * 255)))).
Proof.
  intros Hb. rewrite Float32_load_finite by exact Hb.
  apply bounded32_inv in Hb as [Hc He].
  pose proof (Pos2Z.is_pos (digits2_pos m)) as Hpos.
  pose proof (digits2_pos_mul_255 m) as Hd'.
  set (d := Zpos (digits2_pos m)) in *.
  set (d' := Zpos (digits2_pos (m * 255))) in *.
  change (of_Z 255) with (S754_finite false (Pos.shiftl 255 45) (-45)).
  unfold js_mul, SFmul. rewrite xorb_false_r, Pos_mul_shiftl.
  rewrite (binary_round_aux_exact 53 1024 s (m * 255) _ (Z.to_N (d' - d + 45))).
  - destruct (Z.leb_spec (d + e - 53 + -45 + Z.of_N (Z.to_N (d' - d + 45)))
                (1024 - 53)); [| lia].
    f_equal; first [lia | f_equal; lia].
  - lia.
  - unfold fexp, emin. fold d'. lia.
Qed.

(** Shifting [a·2^J] right by [J - e] bits is the floor of [a·2^e]. *)
Lemma shiftr_floor_scaled (a J e : Z) :
  0 <= J -> e < J ->
  Z.shiftr (a * 2 ^ J) (J - e) = floor_scaled a e.
Proof.
  intros HJ He. rewrite Z.shiftr_div_pow2 by lia. unfold floor_scaled.
  destruct (Z.leb_spec 0 e) as [H | H].
  - replace J with (e + (J - e)) at 1 by lia.
    rewrite Z.pow_add_r, Z.mul_assoc by lia.
    apply Z.div_mul. apply Z.pow_nonzero; lia.
  - replace (J - e) with (- e + J) by lia.
    rewrite Z.pow_add_r by lia.
    apply Z.div_mul_cancel_r; apply Z.pow_nonzero; lia.
Qed.

Lemma cond_Zopp_mul_255 (s : bool) (m : positive) :
  cond_Zopp s (Zpos m) * 255 = cond_Zopp s (Zpos (m * 255)).
Proof. destruct s; cbn [cond_Zopp]; lia. Qed.

Lemma floor_scaled_sign (s : bool) (p : positive) (e : Z) :
  if s then floor_scaled (cond_Zopp s (Zpos p)) e < 0
  else 0 <= floor_scaled (cond_Zopp s (Zpos p)) e.
Proof.
  unfold floor_scaled. destruct s; cbn [cond_Zopp];
    destruct (Z.leb_spec 0 e) as [He | He].
  - pose proof (Z.pow_pos_nonneg 2 e). nia.
  - apply Z.div_lt_upper_bound; [apply Z.pow_pos_nonneg; lia | lia].
  - pose proof (Z.pow_pos_nonneg 2 e). nia.
  - apply Z.div_pos; [lia | apply Z.pow_pos_nonneg; lia].
Qed.

(** The floor does not depend on the representation of the value. *)
Lemma floor_scaled_shift (a e J : Z) :
  0 <= J -> floor_scaled (a * 2 ^ J) (e - J) = floor_scaled a e.
Proof.
  intros HJ. unfold floor_scaled at 1.
  destruct (Z.leb_spec 0 (e - J)) as [H | H].
  - unfold floor_scaled. destruct (Z.leb_spec 0 e); [| lia].
    rewrite <- Z.mul_assoc, <- Z.pow_add_r by lia. do 2 f_equal. lia.
  - rewrite <- shiftr_floor_scaled with (J := J) by lia.
    rewrite Z.shiftr_div_pow2 by lia. do 2 f_equal. lia.
Qed.

(** The byte shown for a number [y = ±M·2^E] after [Math.floor] and the write
    to a [Float32Array]: the clamped floor of [y]. *)
Lemma shown_floor (s : bool) (M : positive) (E : Z) :
  bounded 53 1024 M E = true ->
  ToUint8Clamp (Float32_load (Float32_store (Math_floor (S754_finite s M E))))
  = clamp 0 255 (floor_scaled (cond_Zopp s (Zpos M)) E).
Proof.
  intros [Hc HE]%bounded64_inv.
  pose proof (Pos2Z.is_pos (digits2_pos M)) as Hpos.
  pose proof (digits2_pos_bounds M) as [_ HM].
  pose proof (floor_scaled_sign s M E) as Hsign.
  assert (HM53 : Zpos M < 2 ^ 53).
  { assert (2 ^ Zpos (digits2_pos M) <= 2 ^ 53)
      by (apply Z.pow_le_mono_r; lia). lia. }
  unfold Math_floor.
  destruct (Z.leb_spec 0 E) as [Hint | Hfrac].
  - (* an integer of at least [2^52] *)
    destruct s.
    + rewrite ToUint8Clamp_store_nonpositive by reflexivity. unfold clamp. lia.
    + rewrite ToUint8Clamp_store_large by lia.
      pose proof (digits2_pos_bounds M) as [HM52 _].
      replace (Zpos (digits2_pos M) - 1) with 52 in HM52 by lia.
      unfold floor_scaled in *. cbn [cond_Zopp] in *.
      destruct (Z.leb_spec 0 E); [| lia].
      pose proof (Z.pow_pos_nonneg 2 E).
      unfold clamp. change (2 ^ 52) with 4503599627370496 in HM52. nia.
  - (* the floor is taken by a right shift *)
    assert (Hfloor : Z.shiftr (cond_Zopp s (Zpos M)) (- E)
                     = floor_scaled (cond_Zopp s (Zpos M)) E).
    { rewrite Z.shiftr_div_pow2 by lia. unfold floor_scaled.
      destruct (Z.leb_spec 0 E); [lia | reflexivity]. }
    rewrite Hfloor. fold (of_Z (floor_scaled (cond_Zopp s (Zpos M)) E)).
    assert (Hbound : floor_scaled (cond_Zopp s (Zpos M)) E < 2 ^ 53).
    { assert (0 < 2 ^ 53) by reflexivity.
      destruct s; [lia |]. cbn [cond_Zopp]. unfold floor_scaled.
      destruct (Z.leb_spec 0 E); [lia |].
      apply Z.div_lt_upper_bound; [apply Z.pow_pos_nonneg; lia |].
      pose proof (Z.pow_le_mono_r 2 0 (- E)) as Hpow.
      change (2 ^ 0) with 1 in Hpow. nia. }
    destruct (floor_scaled (cond_Zopp s (Zpos M)) E) as [| p | p] eqn:HN.
    + reflexivity.
    + destruct s; [lia |].
      destruct (Z.lt_ge_cases (Zpos p) (2 ^ 24)) as [Hsmall | Hlarge].
      * rewrite ToUint8Clamp_store_small by exact Hsmall. unfold clamp. lia.
      * rewrite of_Z_pos by exact Hbound.
        pose proof (digits2_pos_bounds p) as [_ Hp].
        assert (Hdp : 25 <= Zpos (digits2_pos p)).
        { destruct (Z.le_gt_cases 25 (Zpos (digits2_pos p))) as [H | H];
            [exact H |].
          assert (2 ^ Zpos (digits2_pos p) <= 2 ^ 24)
            by (apply Z.pow_le_mono_r; lia). lia. }
        assert (Hdp' : Zpos (digits2_pos p) <= 53)
          by (apply digits2_pos_le; exact Hbound).
        rewrite ToUint8Clamp_store_large
          by (try (apply digits2_pos_of_Z; exact Hbound); lia).
        unfold clamp. change (2 ^ 24) with 16777216 in Hlarge. lia.
    + rewrite ToUint8Clamp_store_nonpositive.
      * unfold clamp. lia.
      * unfold of_Z, binary_normalize. apply binary_round_nonpositive.
Qed.

(** The byte shown for one sample [v]: the clamped floor of [v·255], in exact
    arithmetic. *)
Lemma display_byte_exact (v : float) (N : Z) :
  is_float32 v = true ->
  exact_floor_255 v = Some N ->
  ToUint8Clamp (Float32_load (Float32_store
    (Math_floor (js_mul (Float32_load v) (of_Z 255)))))
  = clamp 0 255 N.
Proof.
  destruct v as [[] | [] | | s m e]; try discriminate;
    try (intros _ [= <-]; reflexivity).
  unfold is_float32. cbn [valid_binary exact_floor_255]. intros Hb [= <-].
  rewrite js_mul_255 by exact Hb. rewrite cond_Zopp_mul_255.
  apply bounded32_inv in Hb as [Hc He].
  pose proof (Pos2Z.is_pos (digits2_pos m)) as Hpos.
  pose proof (digits2_pos_mul_255 m) as Hd'.
  set (mm := (m * 255)%positive) in *.
  set (d' := Zpos (digits2_pos mm)) in *.
  set (J := Z.to_N (53 - d')).
  assert (HJ : 53 - d' = Z.of_N J) by (unfold J; lia).
  rewrite HJ, shown_floor.
  - f_equal. rewrite Zpos_shiftl.
    replace (cond_Zopp s (Zpos mm * 2 ^ Z.of_N J))
      with (cond_Zopp s (Zpos mm) * 2 ^ Z.of_N J)
      by (destruct s; cbn [cond_Zopp]; lia).
    apply floor_scaled_shift. lia.
  - unfold bounded, canonical_mantissa, fexp, emin.
    rewrite digits2_pos_shiftl. fold d'.
    apply andb_true_iff. split; [apply Z.eqb_eq | apply Z.leb_le]; lia.
Qed.

(** [floor_scaled] is the floor of the rational [a·2^e]. *)
Lemma Qfloor_scaled (a e : Z) :
  Qfloor (inject_Z a * Qpower 2 e) = floor_scaled a e.
Proof.
  unfold floor_scaled. destruct (Z.leb_spec 0 e) as [He | He].
  - rewrite <- (Qfloor_Z (a * 2 ^ e)). apply Qfloor_comp.
    rewrite inject_Z_mult, (Zpower_Qpower 2 e He). reflexivity.
  - rewrite Zdiv_Qdiv. apply Qfloor_comp.
    rewrite (Zpower_Qpower 2 (- e)) by lia.
    rewrite Qpower_opp. unfold Qdiv. rewrite Qinv_involutive. reflexivity.
Qed.

(** The floor of [v·255], from the rational value of [v]. *)
Lemma exact_floor_255_value (v : float) (q : Q) :
  float_value v = Some q ->
  exact_floor_255 v = Some (Qfloor (q * inject_Z 255)).
Proof.
  destruct v as [s | s | | s m e]; try discriminate; intros [= <-].
  - reflexivity.
  - cbn [exact_floor_255]. f_equal.
    rewrite <- Qfloor_scaled. apply Qfloor_comp.
    rewrite inject_Z_mult. ring.
Qed.

(** The byte shown for a finite number [y] after [Math.floor] and the write to
    a [Float32Array] is the clamped floor of the value of [y]. *)
Lemma shown_floor_value (y : float) (q : Q) :
  is_float64 y = true ->
  float_value y = Some q ->
  ToUint8Clamp (Float32_load (Float32_store (Math_floor y)))
  = clamp 0 255 (Qfloor q).
Proof.
  destruct y as [[] | [] | | s M E]; try discriminate;
    try (intros _ [= <-]; reflexivity).
  unfold is_float64. cbn [valid_binary float_value]. intros Hb [= <-].
  rewrite Qfloor_scaled. apply shown_floor. exact Hb.
Qed.

(** * Rounding gives valid numbers *)

Lemma Zdigits2_nonneg (m : Z) : 0 <= Zdigits2 m.
Proof. destruct m; cbn; lia. Qed.

Lemma Zdigits2_bounds (m : Z) :
  0 < m -> 2 ^ (Zdigits2 m - 1) <= m < 2 ^ Zdigits2 m.
Proof. destruct m as [| p | p]; try lia. intros _. apply digits2_pos_bounds. Qed.

Lemma Zdigits2_unique (m k : Z) :
  0 < m -> 2 ^ (k - 1) <= m < 2 ^ k -> Zdigits2 m = k.
Proof.
  destruct m as [| p | p]; try lia. intros _. apply digits2_pos_unique.
Qed.

Lemma Zdigits2_le (a b : Z) : 0 <= a <= b -> Zdigits2 a <= Zdigits2 b.
Proof.
  intros [Ha Hab].
  destruct (Z.eq_dec a 0) as [-> | Hnz]; [apply Zdigits2_nonneg |].
  pose proof (Zdigits2_bounds a ltac:(lia)) as [Hlo _].
  pose proof (Zdigits2_bounds b ltac:(lia)) as [_ Hhi].
  destruct (Z.le_gt_cases (Zdigits2 a) (Zdigits2 b)) as [H | H]; [exact H |].
  pose proof (Zdigits2_nonneg b) as Hnn.
  assert (2 ^ Zdigits2 b <= 2 ^ (Zdigits2 a - 1))
    by (apply Z.pow_le_mono_r; lia). lia.
Qed.

Lemma Zdigits2_succ (q : Z) : 0 <= q -> Zdigits2 (q + 1) <= Zdigits2 q + 1.
Proof.
  intros Hq. destruct (Z.eq_dec q 0) as [-> | Hnz]; [change (1 <= 1); lia |].
  pose proof (Zdigits2_bounds q ltac:(lia)) as [_ Hhi].
  pose proof (Zdigits2_bounds (q + 1) ltac:(lia)) as [Hlo _].
  pose proof (Zdigits2_nonneg q) as Hnn.
  destruct (Z.le_gt_cases (Zdigits2 (q + 1)) (Zdigits2 q + 1)) as [H | H];
    [exact H |].
  assert (2 ^ (Zdigits2 q + 1) <= 2 ^ (Zdigits2 (q + 1) - 1))
    by (apply Z.pow_le_mono_r; lia).
  rewrite Z.pow_add_r in * by lia. change (2 ^ 1) with 2 in *. lia.
Qed.

Lemma Zdigits2_0 (q : Z) : 0 <= q -> Zdigits2 q = 0 -> q = 0.
Proof.
  destruct q as [| p | p]; try lia. cbn.
  pose proof (Pos2Z.is_pos (digits2_pos p)). lia.
Qed.

(** The digits of a number shifted to the right. *)
Lemma Zdigits2_shiftr (m n : Z) :
  0 <= m -> 0 <= n -> Zdigits2 (Z.shiftr m n) = Z.max 0 (Zdigits2 m - n).
Proof.
  intros Hm Hn. rewrite Z.shiftr_div_pow2 by exact Hn.
  assert (H2n : 0 < 2 ^ n) by (apply Z.pow_pos_nonneg; lia).
  destruct (Z.eq_dec m 0) as [-> | Hnz].
  { rewrite Z.div_0_l by lia. cbn. lia. }
  pose proof (Zdigits2_bounds m ltac:(lia)) as [Hlo Hhi].
  pose proof (Zdigits2_nonneg m) as HD.
  destruct (Z.le_gt_cases (Zdigits2 m) n) as [Hge | Hlt].
  - rewrite Z.div_small; [cbn; lia |]. split; [lia |].
    assert (2 ^ Zdigits2 m <= 2 ^ n) by (apply Z.pow_le_mono_r; lia). lia.
  - rewrite Z.max_r by lia. apply Zdigits2_unique.
    + apply Z.div_str_pos. split; [lia |].
      assert (2 ^ n <= 2 ^ (Zdigits2 m - 1)) by (apply Z.pow_le_mono_r; lia).
      lia.
    + split.
      * apply Z.div_le_lower_bound; [lia |].
        rewrite <- Z.pow_add_r by lia.
        replace (n + (Zdigits2 m - n - 1)) with (Zdigits2 m - 1) by lia.
        exact Hlo.
      * apply Z.div_lt_upper_bound; [lia |].
        rewrite <- Z.pow_add_r by lia.
        replace (n + (Zdigits2 m - n)) with (Zdigits2 m) by lia.
        exact Hhi.
Qed.

Lemma shr_m_shr_record_of_loc (m : Z) (l : location) :
  shr_m (shr_record_of_loc m l) = m.
Proof. destruct l as [| []]; reflexivity. Qed.

(** A shift to the right by [n] bits. *)
Lemma shr_spec (r : shr_record) (e n : Z) :
  0 <= shr_m r -> 0 <= n ->
  snd (shr r e n) = e + n
  /\ shr_m (fst (shr r e n)) = Z.shiftr (shr_m r) n.
Proof.
  intros Hr Hn. destruct n as [| p | p]; try lia; cbn [shr fst snd].
  - split; [lia | reflexivity].
  - split; [reflexivity | apply shr_m_iter_shr_1; exact Hr].
Qed.

Section Valid.
Variables prec emax : Z.
Hypothesis prec_pos : 0 < prec.

(** Rounding a mantissa that has at least the digits of the format gives a
    zero, an infinity or a number in canonical form. *)
Lemma binary_round_aux_valid (s : bool) (m e : Z) (l : location) :
  0 <= m ->
  e <= fexp prec emax (Zdigits2 m + e) ->
  valid_binary prec emax (binary_round_aux prec emax s m e l) = true.
Proof.
  intros Hm He. unfold binary_round_aux, shr_fexp at 1.
  set (D := Zdigits2 m) in *.
  set (e1 := fexp prec emax (D + e)) in *.
  pose proof (shr_spec (shr_record_of_loc m l) e (e1 - e)) as Hshr.
  rewrite shr_m_shr_record_of_loc in Hshr.
  destruct (Hshr Hm ltac:(lia)) as [Hsnd Hfst]. clear Hshr.
  destruct (shr (shr_record_of_loc m l) e (e1 - e)) as [r1 e1'].
  cbn [fst snd] in Hsnd, Hfst.
  assert (He1 : e1' = e1) by lia. clear Hsnd. subst e1'.
  set (q := shr_m r1) in *.
  assert (Hq : 0 <= q) by (rewrite Hfst; apply Z.shiftr_nonneg; exact Hm).
  assert (Hdq : Zdigits2 q = Z.max 0 (D - (e1 - e)))
    by (rewrite Hfst; apply Zdigits2_shiftr; lia).
  pose proof (round_nearest_even_bounds q (loc_of_shr_record r1)) as Hm1.
  set (m1 := round_nearest_even q (loc_of_shr_record r1)) in *.
  assert (Hd1 : Zdigits2 q <= Zdigits2 m1 <= Zdigits2 q + 1).
  { split; [apply Zdigits2_le; lia |].
    transitivity (Zdigits2 (q + 1)); [apply Zdigits2_le; lia |].
    apply Zdigits2_succ; exact Hq. }
  pose proof (Zdigits2_nonneg m) as HD. fold D in HD.
  unfold shr_fexp. cbn [shr_record_of_loc].
  set (d1 := Zdigits2 m1) in *.
  assert (A : 0 <= fexp prec emax (d1 + e1) - e1 <= 1
              /\ (fexp prec emax (d1 + e1) - e1 = 1 -> 2 <= d1)).
  { unfold fexp in *. fold (emin prec emax) in *.
    set (emin' := emin prec emax) in *. clearbody emin' m1 q.
    destruct (Z.le_gt_cases (D - (e1 - e)) 0) as [Hsmall | Hbig].
    - assert (Hq0 : q = 0) by (apply Zdigits2_0; lia).
      assert (d1 <= 1) by lia.
      unfold e1 in *. lia.
    - unfold e1 in *. lia. }
  destruct A as [Hn2 Hn2'].
  pose proof (shr_spec {| shr_m := m1; shr_r := false; shr_s := false |} e1
                (fexp prec emax (d1 + e1) - e1)) as Hshr2.
  cbn [shr_m] in Hshr2. destruct (Hshr2 ltac:(lia) ltac:(lia)) as [Hsnd2 Hfst2].
  clear Hshr2.
  destruct (shr _ e1 (fexp prec emax (d1 + e1) - e1)) as [r2 e2].
  cbn [fst snd] in Hsnd2, Hfst2.
  assert (Hd2 : Zdigits2 (shr_m r2)
                = Z.max 0 (d1 - (fexp prec emax (d1 + e1) - e1)))
    by (rewrite Hfst2; apply Zdigits2_shiftr; lia).
  destruct (shr_m r2) as [| p | p] eqn:Hm2; try reflexivity.
  destruct (Z.leb_spec e2 (emax - prec)) as [Hle | Hgt]; [| reflexivity].
  cbn [valid_binary]. unfold bounded, canonical_mantissa.
  apply andb_true_iff. split; [apply Z.eqb_eq | apply Z.leb_le; exact Hle].
  cbn [Zdigits2] in Hd2.
  pose proof (Pos2Z.is_pos (digits2_pos p)) as Hpos.
  replace (Zpos (digits2_pos p) + e2) with (d1 + e1) by lia. lia.
Qed.
End Valid.

Lemma digits2_pos_mul (a b : positive) :
  Zpos (digits2_pos a) + Zpos (digits2_pos b) - 1 <= Zpos (digits2_pos (a * b)).
Proof.
  pose proof (digits2_pos_bounds a) as [Ha _].
  pose proof (digits2_pos_bounds b) as [Hb _].
  pose proof (digits2_pos_bounds (a * b)) as [_ Hab].
  pose proof (Pos2Z.is_pos (digits2_pos a)) as Hpa.
  pose proof (Pos2Z.is_pos (digits2_pos b)) as Hpb.
  pose proof (Pos2Z.is_pos (digits2_pos (a * b))) as Hpab.
  rewrite Pos2Z.inj_mul in Hab.
  destruct (Z.le_gt_cases (Zpos (digits2_pos a) + Zpos (digits2_pos b) - 1)
              (Zpos (digits2_pos (a * b)))) as [H | H]; [exact H |].
  assert (Hpow : 2 ^ Zpos (digits2_pos (a * b))
                 <= 2 ^ ((Zpos (digits2_pos a) - 1) + (Zpos (digits2_pos b) - 1)))
    by (apply Z.pow_le_mono_r; lia).
  rewrite Z.pow_add_r in Hpow by lia.
  pose proof (Z.pow_pos_nonneg 2 (Zpos (digits2_pos a) - 1)) as Hqa.
  pose proof (Z.pow_pos_nonneg 2 (Zpos (digits2_pos b) - 1)) as Hqb.
  nia.
Qed.

(** The product of two numbers is a number. *)
Lemma js_mul_valid (x y : float) :
  is_float64 x = true -> is_float64 y = true -> is_float64 (js_mul x y) = true.
Proof.
  destruct x as [[] | [] | | sx mx ex], y as [[] | [] | | sy my ey];
    try reflexivity.
  unfold is_float64. cbn [valid_binary].
  intros [Hx _]%bounded64_inv [Hy _]%bounded64_inv.
  unfold js_mul, SFmul. apply binary_round_aux_valid; [lia | lia |].
  pose proof (digits2_pos_mul mx my) as Hd.
  pose proof (Pos2Z.is_pos (digits2_pos mx)) as Hpx.
  pose proof (Pos2Z.is_pos (digits2_pos my)) as Hpy.
  cbn [Zdigits2]. unfold fexp, emin. lia.
Qed.

Lemma div_eucl_div_mod (a b : Z) : Z.div_eucl a b = (a / b, a mod b).
Proof. unfold Z.div, Z.modulo. destruct (Z.div_eucl a b). reflexivity. Qed.

Lemma Zdigits2_pow2 (k : Z) : 0 <= k -> Zdigits2 (2 ^ k) = k + 1.
Proof.
  intros Hk. apply Zdigits2_unique.
  - apply Z.pow_pos_nonneg; lia.
  - replace (k + 1 - 1) with k by lia. split; [lia |].
    apply Z.pow_lt_mono_r; lia.
Qed.

(** A quotient has at least the difference of the digits. *)
Lemma Zdigits2_div (a b : Z) :
  0 < a -> 0 < b -> Zdigits2 a - Zdigits2 b <= Zdigits2 (a / b).
Proof.
  intros Ha Hb.
  pose proof (Zdigits2_bounds a Ha) as [Hlo _].
  pose proof (Zdigits2_bounds b Hb) as [_ Hhi].
  pose proof (Zdigits2_nonneg (a / b)) as Hnn.
  pose proof (Zdigits2_nonneg b) as Hnb.
  destruct (Z.le_gt_cases (Zdigits2 a - Zdigits2 b) 0) as [H | H]; [lia |].
  set (k := Zdigits2 a - 1 - Zdigits2 b).
  assert (Hq : 2 ^ k <= a / b).
  { apply Z.div_le_lower_bound; [exact Hb |].
    pose proof (Z.pow_pos_nonneg 2 k) as Hk.
    assert (Hsplit : 2 ^ (Zdigits2 a - 1) = 2 ^ k * 2 ^ Zdigits2 b).
    { rewrite <- Z.pow_add_r by (unfold k; lia). f_equal. unfold k. lia. }
    unfold k in *. nia. }
  assert (Hd : Zdigits2 (2 ^ k) <= Zdigits2 (a / b)).
  { apply Zdigits2_le. split; [| exact Hq].
    apply Z.pow_nonneg. lia. }
  rewrite Zdigits2_pow2 in Hd by (unfold k; lia). unfold k in Hd. lia.
Qed.

(** The quotient of two numbers is a number. *)
Lemma js_div_valid (x y : float) :
  is_float64 x = true -> is_float64 y = true -> is_float64 (js_div x y) = true.
Proof.
  destruct x as [[] | [] | | sx mx ex], y as [[] | [] | | sy my ey];
    try reflexivity.
  unfold is_float64. cbn [valid_binary].
  intros [Hx _]%bounded64_inv [Hy _]%bounded64_inv.
  pose proof (Pos2Z.is_pos (digits2_pos mx)) as Hpx.
  pose proof (Pos2Z.is_pos (digits2_pos my)) as Hpy.
  unfold js_div, SFdiv, SFdiv_core_binary. cbn [Zdigits2].
  set (e' := Z.min _ _).
  assert (He' : e' <= ex - ey /\ e' <= fexp 53 1024
             (Zpos (digits2_pos mx) + ex - (Zpos (digits2_pos my) + ey)))
    by (unfold e'; lia).
  clearbody e'.
  set (m' := match ex - ey - e' with
             | 0 => Zpos mx
             | Zpos _ => Z.shiftl (Zpos mx) (ex - ey - e')
             | Zneg _ => 0
             end).
  assert (Hm' : m' = Zpos mx * 2 ^ (ex - ey - e')).
  { unfold m'. destruct (ex - ey - e') as [| p | p] eqn:Hs; try lia.
    rewrite Z.shiftl_mul_pow2 by lia. reflexivity. }
  clearbody m'.
  rewrite div_eucl_div_mod.
  assert (Hpow : 0 < 2 ^ (ex - ey - e')) by (apply Z.pow_pos_nonneg; lia).
  assert (Hm'pos : 0 < m') by nia.
  apply binary_round_aux_valid; [lia | apply Z.div_pos; lia |].
  pose proof (Zdigits2_div m' (Zpos my) Hm'pos ltac:(lia)) as Hdq.
  assert (HDm' : Zdigits2 m' = Zpos (digits2_pos mx) + (ex - ey - e')).
  { rewrite Hm'.
    replace (Zpos mx * 2 ^ (ex - ey - e'))
      with (Zpos (Pos.shiftl mx (Z.to_N (ex - ey - e'))))
      by (rewrite Zpos_shiftl; do 2 f_equal; lia).
    cbn [Zdigits2]. rewrite digits2_pos_shiftl. lia. }
  cbn [Zdigits2] in Hdq. unfold fexp, emin in *. lia.
Qed.

(** The byte shown for a number [y] after [Math.floor] and the write to a
    [Float32Array]. *)
Lemma shown_clamped_floor (y : float) :
  is_float64 y = true ->
  ToUint8Clamp (Float32_load (Float32_store (Math_floor y))) = clamped_floor y.
Proof.
  intros Hy. unfold clamped_floor.
  destruct (float_value y) as [q |] eqn:Hq.
  - apply shown_floor_value; assumption.
  - destruct y as [s | [] | | s M E]; try discriminate; reflexivity.
Qed.

(** * Typed arrays: lengths and elements *)

Lemma length_Float32Array_map (callback : float -> nat -> float) (a : Float32Array) :
  length (Float32Array_map callback a) = length a.
Proof. unfold Float32Array_map. apply length_imap. Qed.

Lemma lookup_Float32Array_map (callback : float -> nat -> float)
    (a : Float32Array) (i : nat) :
  Float32Array_map callback a !! i
  = (fun x => Float32_store (callback (Float32_load x) i)) <$> a !! i.
Proof. unfold Float32Array_map. apply list_lookup_imap. Qed.

Lemma length_add (a b : Float32Array) : length (add a b) = length a.
Proof. apply length_Float32Array_map. Qed.

(** Where both arrays have an element, [add] adds them. *)
Lemma lookup_add_both (a b : Float32Array) (i : nat) (x y : float) :
  a !! i = Some x -> b !! i = Some y -> add a b !! i = Some (f32_add x y).
Proof.
  intros Ha Hb. unfold add. rewrite lookup_Float32Array_map, Ha.
  unfold Float32Array_get. rewrite Ha, Hb. reflexivity.
Qed.

(** Where [b] is too short, [b[i]] is [undefined] and the sum is NaN. *)
Lemma lookup_add_short (a b : Float32Array) (i : nat) (x : float) :
  a !! i = Some x -> b !! i = None -> add a b !! i = Some NaN.
Proof.
  intros Ha Hb. unfold add. rewrite lookup_Float32Array_map, Ha.
  unfold Float32Array_get. rewrite Ha, Hb. cbn.
  unfold js_plus, js_add, ToNumber.
  destruct (Float32_load x) as [[] | [] | |]; reflexivity.
Qed.

Lemma lookup_add_beyond (a b : Float32Array) (i : nat) :
  (length a <= i)%nat -> add a b !! i = None.
Proof. intros Hi. apply lookup_ge_None. rewrite length_add. exact Hi. Qed.

Lemma length_toImageBuffer (buffer : Float32Array) (numSamples : float) :
  length (toImageBuffer buffer numSamples) = length buffer.
Proof.
  unfold toImageBuffer, new_Uint8ClampedArray.
  rewrite length_fmap. apply length_Float32Array_map.
Qed.

Lemma lookup_toImageBuffer (buffer : Float32Array) (numSamples : float)
    (i : nat) (x : float) :
  buffer !! i = Some x ->
  toImageBuffer buffer numSamples !! i
  = Some (ToUint8Clamp (Float32_load (Float32_store
       (Math_floor (js_mul (js_div (Float32_load x) numSamples) (of_Z 255)))))).
Proof.
  intros Hx. unfold toImageBuffer, new_Uint8ClampedArray.
  rewrite list_lookup_fmap, lookup_Float32Array_map, Hx. reflexivity.
Qed.

(** * The range of [ToUint8Clamp] *)

Lemma ToUint8Clamp_range (x : float) : 0 <= ToUint8Clamp x <= 255.
Proof.
  destruct x as [s | [] | | [] m e]; cbn [ToUint8Clamp]; try lia.
  destruct (Z.leb_spec 0 e) as [He | He].
  - assert (0 <= Z.shiftl (Zpos m) e) by (apply Z.shiftl_nonneg; lia). lia.
  - cbv zeta.
    assert (Hf : 0 <= Z.shiftr (Zpos m) (- e)) by (apply Z.shiftr_nonneg; lia).
    destruct (Z.leb_spec 255 (Z.shiftr (Zpos m) (- e))); [lia |].
    repeat match goal with
           | |- context [if ?b then _ else _] => destruct b
           end; lia.
Qed.

Lemma new_Uint8ClampedArray_range (a : Float32Array) :
  Forall (fun byte => 0 <= byte <= 255) (new_Uint8ClampedArray a).
Proof.
  unfold new_Uint8ClampedArray. apply Forall_fmap, Forall_forall.
  intros x _. apply ToUint8Clamp_range.
Qed.

(** * Merging *)

Lemma length_sum_merge_all (st : AccumulationState) (samples : list Float32Array) :
  length (sum (merge_all st samples)) = length (sum st).
Proof.
  revert st. induction samples as [| s samples IH]; intros st; [reflexivity |].
  cbn. unfold merge_all in IH. rewrite IH. apply length_add.
Qed.

(** The counter after merging is the number of samples, up to [2^53], where
    binary64 can no longer represent the successor. *)
Lemma js_add_of_Z_1_saturates : js_add (of_Z (2 ^ 53)) (of_Z 1) = of_Z (2 ^ 53).
Proof. vm_compute. reflexivity. Qed.

Lemma sampleCount_merge_all (st : AccumulationState)
    (samples : list Float32Array) (c : Z) :
  sampleCount st = of_Z c -> 0 <= c <= 2 ^ 53 ->
  sampleCount (merge_all st samples)
  = of_Z (Z.min (c + Z.of_nat (length samples)) (2 ^ 53)).
Proof.
  revert st c. induction samples as [| s samples IH]; intros st c Hc Hc0.
  - cbn. rewrite Hc. f_equal. lia.
  - change (merge_all st (s :: samples)) with (merge_all (merge st s) samples).
    destruct (Z.eq_dec c (2 ^ 53)) as [-> | Hne].
    + rewrite (IH (merge st s) (2 ^ 53)).
      * f_equal. cbn [length]. lia.
      * cbn. rewrite Hc. apply js_add_of_Z_1_saturates.
      * lia.
    + rewrite (IH (merge st s) (c + 1)).
      * f_equal. cbn [length]. lia.
      * cbn. rewrite Hc. apply js_add_of_Z_1. lia.
      * lia.
Qed.

(** * Claims *)

(** C10: [toImageBuffer] and [renderImage] are total: for every input buffer,
    also with out-of-range values, NaN or [numSamples] zero, the result has the
    length of the input and every element is an integer in [0, 255]. *)
Theorem C10_image_buffers_total
    (create_spectrum_image : float -> float -> Float32Array) :
  (forall (buffer : Float32Array) (numSamples : float),
      length (toImageBuffer buffer numSamples) = length buffer
      /\ Forall (fun byte => 0 <= byte <= 255) (toImageBuffer buffer numSamples))
  /\ (forall width height : float,
      length (renderImage create_spectrum_image width height)
      = length (create_spectrum_image width height)
      /\ Forall (fun byte => 0 <= byte <= 255)
           (renderImage create_spectrum_image width height)).
Proof.
  split.
  - intros buffer numSamples. split.
    + apply length_toImageBuffer.
    + apply new_Uint8ClampedArray_range.
  - intros width height. split.
    + unfold renderImage, new_Uint8ClampedArray.
      rewrite length_fmap. apply length_Float32Array_map.
    + apply new_Uint8ClampedArray_range.
Qed.

(** C7, as the code has it: merging a sample of matching length adds it to the
    sum index by index (in binary32, as [add] computes) and increments the
    sample counter by the [n + 1] of JS numbers.  The counter is a binary64
    number: after [k] merges from the zero state it is [min(k, 2^53)], that
    is [k] for every [k] up to [2^53], and [2^53] from there on. *)
Theorem C7_merge_adds_and_counts :
  (forall (st : AccumulationState) (sample : Float32Array),
      length sample = length (sum st) ->
      length (sum (merge st sample)) = length (sum st)
      /\ (forall (i : nat) (x y : float),
             sum st !! i = Some x -> sample !! i = Some y ->
             sum (merge st sample) !! i = Some (f32_add x y))
      /\ sampleCount (merge st sample) = js_add (sampleCount st) (of_Z 1))
  /\ (forall (n : nat) (samples : list Float32Array),
      Forall (fun sample => length sample = n) samples ->
      sampleCount (merge_all (zero_state n) samples)
      = of_Z (Z.min (Z.of_nat (length samples)) (2 ^ 53)))
  /\ (forall (n : nat) (samples : list Float32Array),
      Forall (fun sample => length sample = n) samples ->
      Z.of_nat (length samples) <= 2 ^ 53 ->
      sampleCount (merge_all (zero_state n) samples)
      = of_Z (Z.of_nat (length samples))).
Proof.
  split; [| split].
  - intros st sample Hlen. split; [apply length_add |]. split; [| reflexivity].
    intros i x y Hx Hy. cbn. apply lookup_add_both; assumption.
  - intros n samples _.
    rewrite (sampleCount_merge_all _ _ 0) by (try reflexivity; lia).
    f_equal.
  - intros n samples _ Hk.
    rewrite (sampleCount_merge_all _ _ 0) by (try reflexivity; lia).
    f_equal. lia.
Qed.

(** One merge and three merges of [[1; 0.5]], by the theorem of C7. *)
Lemma C7_merge_adds_and_counts_witness :
  let st := zero_state 2 in
  let sample := [one32; half32] in
  length sample = length (sum st)
  /\ sum (merge st sample) !! 1%nat = Some half32
  /\ sampleCount (merge_all (zero_state 2) [sample; sample; sample]) = of_Z 3.
Proof.
  intros st sample.
  destruct C7_merge_adds_and_counts as (H1 & _ & H2).
  split; [reflexivity |]. split.
  - destruct (H1 st sample eq_refl) as (_ & Hsum & _).
    exact (Hsum 1%nat pos_zero half32 eq_refl eq_refl).
  - apply (H2 2%nat [sample; sample; sample]).
    + repeat constructor.
    + cbn. lia.
Defined.

(** C7 as stated fails: after [2^53 + 2] merges of one-element buffers into
    the zero state of that length, the counter is [2^53], not [2^53 + 2]
    (which is a binary64 number too): [2^53 + 1] rounds back to [2^53]. *)
Lemma C7_counter_stops_at_2_53 :
  let k := Z.to_nat (2 ^ 53 + 2) in
  let samples := replicate k ([pos_zero] : Float32Array) in
  Forall (fun sample => length sample = 1%nat) samples
  /\ Z.of_nat (length samples) = 2 ^ 53 + 2
  /\ sampleCount (merge_all (zero_state 1) samples) = of_Z (2 ^ 53)
  /\ of_Z (2 ^ 53) <> of_Z (2 ^ 53 + 2)
  /\ js_add (of_Z (2 ^ 53)) (of_Z 1) = of_Z (2 ^ 53).
Proof.
  intros k samples.
  assert (Hk : Z.of_nat k = 2 ^ 53 + 2)
    by (unfold k; apply Z2Nat.id; vm_compute; discriminate).
  clearbody k.
  assert (Hlen : length samples = k) by apply length_replicate.
  assert (Hall : Forall (fun sample : Float32Array => length sample = 1%nat)
                   samples) by (apply Forall_replicate; reflexivity).
  clearbody samples.
  split; [exact Hall |]. split; [rewrite Hlen; exact Hk |].
  split; [| split].
  - rewrite (sampleCount_merge_all _ _ 0) by (try reflexivity; lia).
    rewrite Hlen, Hk. reflexivity.
  - intros H. vm_compute in H. discriminate H.
  - apply js_add_of_Z_1_saturates.
Qed.

(** C2, as the code has it: [merge] has no dimension guard and never fails.
    For a sample of a different length the counter is still incremented and the
    sum is replaced by an array of the old length: the element-wise sum where
    both have an element, NaN where the sample is too short; the elements of
    the sample past the end of the sum are dropped. *)
Theorem C2_merge_mismatched_length (st : AccumulationState) (sample : Float32Array) :
  length sample <> length (sum st) ->
  length (sum (merge st sample)) = length (sum st)
  /\ sampleCount (merge st sample) = js_add (sampleCount st) (of_Z 1)
  /\ (forall (i : nat) (x y : float),
         sum st !! i = Some x -> sample !! i = Some y ->
         sum (merge st sample) !! i = Some (f32_add x y))
  /\ (forall (i : nat) (x : float),
         sum st !! i = Some x -> sample !! i = None ->
         sum (merge st sample) !! i = Some NaN)
  /\ (forall i : nat,
         (length (sum st) <= i)%nat -> sum (merge st sample) !! i = None).
Proof.
  intros _. split; [apply length_add |]. split; [reflexivity |].
  split; [| split].
  - intros i x y Hx Hy. cbn. apply lookup_add_both; assumption.
  - intros i x Hx Hy. cbn. apply lookup_add_short with x; assumption.
  - intros i Hi. cbn. apply lookup_add_beyond. exact Hi.
Qed.

(** A sample that is too short, by the theorem of C2. *)
Lemma C2_merge_mismatched_length_witness :
  let st := {| sum := [one32; one32]; sampleCount := of_Z 0 |} in
  length [one32] <> length (sum st)
  /\ sum (merge st [one32]) = [f32 2 0; NaN]
  /\ sampleCount (merge st [one32]) = of_Z 1.
Proof.
  intros st.
  assert (Hne : length [one32] <> length (sum st)) by (cbn; lia).
  destruct (C2_merge_mismatched_length st [one32] Hne)
    as (Hlen & Hcount & Hboth & Hshort & _).
  split; [exact Hne |]. split; [| exact Hcount].
  apply list_eq. intros [| [| i]].
  - exact (Hboth 0%nat one32 one32 eq_refl eq_refl).
  - exact (Hshort 1%nat one32 eq_refl eq_refl).
  - reflexivity.
Defined.

(** C2 as stated fails: a sample that is too long is merged without any error,
    truncated to the length of the sum, and the state changes. *)
Lemma C2_no_dimension_guard :
  let st := {| sum := [one32]; sampleCount := of_Z 0 |} in
  let sample := [one32; half32] in
  length sample <> length (sum st)
  /\ merge st sample = {| sum := [f32 2 0]; sampleCount := of_Z 1 |}
  /\ merge st sample <> st.
Proof.
  intros st sample. split; [cbn; lia |]. split; [reflexivity |].
  intros H. discriminate H.
Qed.

(** The byte shown when the counter is zero. *)
Lemma display_byte_zero_count (x : float) :
  is_float32 x = true ->
  ToUint8Clamp (Float32_load (Float32_store
    (Math_floor (js_mul (js_div (Float32_load x) (of_Z 0)) (of_Z 255)))))
  = match x with
    | S754_finite false _ _ | S754_infinity false => 255
    | _ => 0
    end.
Proof.
  destruct x as [[] | [] | | s m e]; try reflexivity.
  unfold is_float32. cbn [valid_binary]. intros Hb.
  rewrite Float32_load_finite by exact Hb.
  destruct s; reflexivity.
Qed.

(** C3, as the code has it: [toImageBuffer] has no guard for a counter of zero
    and never fails.  Dividing by zero gives an infinity or NaN, so the image
    has the length of the sum and shows 255 where the sum is positive and 0
    where it is zero, negative or NaN; before any merge it is all zeros. *)
Theorem C3_display_at_zero_count (st : AccumulationState) :
  sampleCount st = of_Z 0 ->
  Forall (fun x => is_float32 x = true) (sum st) ->
  toDisplayImage st
  = (fun x => match x with
              | S754_finite false _ _ | S754_infinity false => 255
              | _ => 0
              end) <$> sum st.
Proof.
  intros Hc Hv. unfold toDisplayImage. rewrite Hc.
  apply list_eq. intros i. rewrite list_lookup_fmap.
  destruct (sum st !! i) as [x |] eqn:Hx.
  - rewrite (lookup_toImageBuffer _ _ _ _ Hx). cbn. f_equal.
    apply display_byte_zero_count.
    rewrite Forall_forall in Hv. apply Hv.
    apply list_elem_of_lookup. exists i. exact Hx.
  - cbn. apply lookup_ge_None. rewrite length_toImageBuffer.
    apply lookup_ge_None. exact Hx.
Qed.

(** A sum shown with a counter of zero, by the theorem of C3. *)
Lemma C3_display_at_zero_count_witness :
  toDisplayImage {| sum := [half32; pos_zero; f32 (-1) 0]; sampleCount := of_Z 0 |}
  = [255; 0; 0].
Proof.
  apply (C3_display_at_zero_count
           {| sum := [half32; pos_zero; f32 (-1) 0]; sampleCount := of_Z 0 |}).
  - reflexivity.
  - repeat constructor.
Defined.

(** C3 as stated fails: before any merge, the display image is produced, and
    it is the silent zero image. *)
Lemma C3_no_NoSamplesYet :
  sampleCount (zero_state 4) = of_Z 0
  /\ toDisplayImage (zero_state 4) = [0; 0; 0; 0].
Proof. split; reflexivity. Qed.

(** Adding an element to the zero of a fresh sum gives the element (and [+0]
    for [-0]). *)
Lemma f32_add_zero_l (v : float) :
  is_float32 v = true ->
  f32_add pos_zero v = match v with S754_zero _ => pos_zero | _ => v end.
Proof.
  destruct v as [[] | [] | | s m e]; try reflexivity.
  intros Hv. unfold f32_add.
  change (Float32_load pos_zero) with pos_zero.
  assert (Hadd : js_add pos_zero (Float32_load (S754_finite s m e))
                 = Float32_load (S754_finite s m e)).
  { unfold is_float32 in Hv. cbn [valid_binary] in Hv.
    rewrite Float32_load_finite by exact Hv. reflexivity. }
  rewrite Hadd. apply Float32_store_load. exact Hv.
Qed.

Lemma sum_merge_zero_state (n : nat) (v : float) :
  sum (merge (zero_state n) (replicate n v)) = replicate n (f32_add pos_zero v).
Proof.
  apply list_eq. intros i. cbn [merge sum zero_state].
  destruct (Nat.lt_ge_cases i n) as [Hi | Hi].
  - rewrite (lookup_add_both _ _ i pos_zero v), lookup_replicate_2; auto.
    + unfold new_Float32Array. apply lookup_replicate_2. exact Hi.
    + apply lookup_replicate_2. exact Hi.
  - rewrite lookup_add_beyond
      by (unfold new_Float32Array; rewrite length_replicate; exact Hi).
    symmetry. apply lookup_replicate_None. exact Hi.
Qed.

(** After one merge into a fresh state of a buffer whose elements all equal
    [v], every byte is the one of [v * 255]. *)
Lemma toDisplayImage_single_merge (n : nat) (v : float) :
  is_float32 v = true ->
  toDisplayImage (merge (zero_state n) (replicate n v))
  = replicate n
      (ToUint8Clamp (Float32_load (Float32_store
         (Math_floor (js_mul (Float32_load v) (of_Z 255)))))).
Proof.
  intros Hv. unfold toDisplayImage.
  rewrite sum_merge_zero_state, (f32_add_zero_l v Hv).
  change (sampleCount (merge (zero_state n) (replicate n v))) with (of_Z 1).
  apply list_eq. intros i.
  destruct (Nat.lt_ge_cases i n) as [Hi | Hi].
  - rewrite (lookup_replicate_2 n _ i Hi).
    erewrite lookup_toImageBuffer by (apply lookup_replicate_2; exact Hi).
    f_equal.
    destruct v as [[] | [] | | s m e]; try reflexivity.
    rewrite js_div_1 by (apply Float32_load_is_float64; exact Hv).
    reflexivity.
  - transitivity (@None Z).
    + apply lookup_ge_None.
      rewrite length_toImageBuffer, length_replicate. exact Hi.
    + symmetry. apply lookup_replicate_None. exact Hi.
Qed.

(** C1, as the code has it: the byte under every index is the clamped floor
    (not the rounding half up) of the number [sum[i] / sampleCount * 255] that
    binary64 arithmetic gives, NaN giving 0.  After exactly one merge of a
    buffer whose elements all equal a finite [v], every byte is exactly
    [clamp(floor(v * 255), 0, 255)], and 0, 255 or 0 if [v] is NaN, [Infinity]
    or [-Infinity]; an average of one half gives 127.  [renderImage] shows
    every finite sample in the same way. *)
Theorem C1_display_is_clamped_floor :
  (forall (st : AccumulationState) (i : nat) (x : float),
      sum st !! i = Some x ->
      is_float32 x = true ->
      is_float64 (sampleCount st) = true ->
      toDisplayImage st !! i
      = Some (clamped_floor
                (js_mul (js_div (Float32_load x) (sampleCount st)) (of_Z 255))))
  /\ (forall (n : nat) (v : float) (q : Q),
      is_float32 v = true ->
      float_value v = Some q ->
      toDisplayImage (merge (zero_state n) (replicate n v))
      = replicate n (clamp 0 255 (Qfloor (q * inject_Z 255))))
  /\ (forall n : nat,
      toDisplayImage (merge (zero_state n) (replicate n NaN)) = replicate n 0
      /\ toDisplayImage (merge (zero_state n) (replicate n Infinity))
         = replicate n 255
      /\ toDisplayImage (merge (zero_state n) (replicate n (S754_infinity true)))
         = replicate n 0)
  /\ toDisplayImage (merge (zero_state 1) [half32]) = [127]
  /\ (forall (create_spectrum_image : float -> float -> Float32Array)
             (width height : float) (i : nat) (v : float) (q : Q),
      create_spectrum_image width height !! i = Some v ->
      is_float32 v = true ->
      float_value v = Some q ->
      renderImage create_spectrum_image width height !! i
      = Some (clamp 0 255 (Qfloor (q * inject_Z 255)))).
Proof.
  split; [| split; [| split; [| split]]].
  - intros st i x Hx Hv Hn. unfold toDisplayImage.
    rewrite (lookup_toImageBuffer _ _ _ _ Hx). f_equal.
    apply shown_clamped_floor, js_mul_valid; [| reflexivity].
    apply js_div_valid; [| exact Hn].
    apply Float32_load_is_float64. exact Hv.
  - intros n v q Hv Hq. rewrite toDisplayImage_single_merge by exact Hv.
    f_equal. apply display_byte_exact; [exact Hv |].
    apply exact_floor_255_value. exact Hq.
  - intros n. repeat split; rewrite toDisplayImage_single_merge; reflexivity.
  - reflexivity.
  - intros csi width height i v q Hi Hv Hq.
    unfold renderImage, new_Uint8ClampedArray.
    rewrite list_lookup_fmap, lookup_Float32Array_map, Hi. cbn. f_equal.
    apply display_byte_exact; [exact Hv |].
    apply exact_floor_255_value. exact Hq.
Qed.

(** An average of a quarter and a single sample of three quarters, by the
    theorem of C1. *)
Lemma C1_display_is_clamped_floor_witness :
  toDisplayImage {| sum := [one32; half32]; sampleCount := of_Z 2 |} !! 1%nat
  = Some 63
  /\ toDisplayImage (merge (zero_state 3) (replicate 3 (f32 3 (-2))))
     = [191; 191; 191].
Proof.
  destruct C1_display_is_clamped_floor as (Hidx & Hone & _). split.
  - exact (Hidx {| sum := [one32; half32]; sampleCount := of_Z 2 |}
             1%nat half32 eq_refl eq_refl eq_refl).
  - exact (Hone 3%nat (f32 3 (-2)) _ eq_refl eq_refl).
Defined.

(** C1 as stated fails: a single merged sample of one half has counter 1 and
    the specification's rounding gives 128, but the byte shown is 127. *)
Lemma C1_half_is_127_not_128 :
  let st := merge (zero_state 1) [half32] in
  sampleCount st = of_Z 1
  /\ spec_DisplayImage st = [Some 128]
  /\ toDisplayImage st = [127].
Proof. repeat split. Qed.

(** * [add] on the heap *)

Lemma heap_set_other (h : heap) (A l : loc) (i : nat) (v : float) :
  l <> A -> heap_set h A i v !! l = h !! l.
Proof. intros Hl. unfold heap_set. apply lookup_alter_ne. congruence. Qed.

Lemma heap_set_same (h : heap) (A : loc) (i : nat) (v : float) (arr : Float32Array) :
  h !! A = Some arr ->
  heap_set h A i v !! A = Some (<[i := Float32_store v]> arr).
Proof. intros HA. unfold heap_set. rewrite lookup_alter_eq, HA. reflexivity. Qed.

(** The loop writes to the new array only. *)
Lemma map_loop_other (callback : heap -> float -> nat -> float) (O A l : loc)
    (n k : nat) (h : heap) :
  l <> A -> map_loop callback O A k n h !! l = h !! l.
Proof.
  intros Hl. revert k h. induction n as [| n IH]; intros k h; [reflexivity |].
  cbn [map_loop]. rewrite IH. apply heap_set_other. exact Hl.
Qed.

(** After the loop has run from index [k], the new array holds the elements of
    [add] from [k] on. *)
Lemma map_loop_add (a b A : loc) (va vb : Float32Array) :
  A <> a -> A <> b ->
  forall (n k : nat) (h : heap) (arr : Float32Array),
    h !! a = Some va -> h !! b = Some vb -> h !! A = Some arr ->
    length arr = length va -> (k + n)%nat = length va ->
    map_loop (fun h _ i => js_plus (heap_get h a i) (heap_get h b i)) a A k n h
      !! A
    = Some (take k arr ++ drop k (add va vb)).
Proof.
  intros HAa HAb. induction n as [| n IH]; intros k h arr Ha Hb HA Hlen Hk.
  - cbn [map_loop]. rewrite HA. f_equal.
    rewrite take_ge, drop_ge, app_nil_r by (rewrite ?length_add; lia).
    reflexivity.
  - cbn [map_loop].
    set (w := js_plus (heap_get h a k) (heap_get h b k)).
    assert (Hk' : (k < length va)%nat) by lia.
    destruct (lookup_lt_is_Some_2 va k Hk') as [x Hx].
    assert (Hw : add va vb !! k = Some (Float32_store w)).
    { unfold add. rewrite lookup_Float32Array_map, Hx. cbn.
      unfold w, heap_get. rewrite Ha, Hb. reflexivity. }
    rewrite (IH (S k) (heap_set h A k w) (<[k := Float32_store w]> arr)).
    + f_equal.
      rewrite (take_S_r _ k (Float32_store w))
        by (apply list_lookup_insert_eq; lia).
      rewrite take_insert_ge by lia.
      rewrite <- app_assoc. cbn [app].
      rewrite <- (drop_S _ _ _ Hw). reflexivity.
    + rewrite heap_set_other by congruence. exact Ha.
    + rewrite heap_set_other by congruence. exact Hb.
    + apply heap_set_same. exact HA.
    + rewrite length_insert. exact Hlen.
    + lia.
Qed.

(** C9: [add] mutates neither argument: the result is a freshly allocated
    array holding the element-wise sums, and [a], [b] and every other array of
    the heap hold their contents of before the call (also when [a] and [b] are
    the same array). *)
Theorem C9_add_leaves_arguments (h : heap) (a b : loc) (va vb : Float32Array) :
  h !! a = Some va -> h !! b = Some vb ->
  let result := (add_heap a b h).2 in
  let h' := (add_heap a b h).1 in
  h !! result = None
  /\ h' !! result = Some (add va vb)
  /\ h' !! a = Some va
  /\ h' !! b = Some vb
  /\ (forall l : loc, l <> result -> h' !! l = h !! l).
Proof.
  intros Ha Hb result h'. subst result h'.
  unfold add_heap, Float32Array_map_heap. cbn [fst snd].
  rewrite Ha. cbn [from_option].
  set (r := fresh (dom h)).
  assert (Hfresh : h !! r = None).
  { apply not_elem_of_dom. apply is_fresh. }
  assert (Hra : r <> a) by congruence.
  assert (Hrb : r <> b) by congruence.
  set (h0 := <[r := new_Float32Array (length va)]> h).
  assert (Hother : forall l : loc, l <> r ->
            map_loop (fun h _ i => js_plus (heap_get h a i) (heap_get h b i))
              a r 0 (length va) h0 !! l = h !! l).
  { intros l Hl. rewrite map_loop_other by exact Hl.
    apply lookup_insert_ne. congruence. }
  split; [exact Hfresh |]. split; [| split; [| split]].
  - rewrite (map_loop_add a b r va vb Hra Hrb (length va) 0
               h0 (new_Float32Array (length va))).
    + rewrite take_0, drop_0. reflexivity.
    + unfold h0. rewrite lookup_insert_ne by congruence. exact Ha.
    + unfold h0. rewrite lookup_insert_ne by congruence. exact Hb.
    + apply lookup_insert_eq.
    + unfold new_Float32Array. apply length_replicate.
    + reflexivity.
  - rewrite Hother by congruence. exact Ha.
  - rewrite Hother by congruence. exact Hb.
  - exact Hother.
Qed.

(** [add(a, a)] and [add(a, b)] on a heap of two arrays, by the theorem of C9. *)
Lemma C9_add_leaves_arguments_witness :
  let h : heap := <[1%positive := [one32; half32]]> (<[2%positive := [half32]]> ∅) in
  (add_heap 1 1 h).1 !! (add_heap 1 1 h).2 = Some [f32 2 0; one32]
  /\ (add_heap 1 1 h).1 !! 1%positive = Some [one32; half32]
  /\ (add_heap 1 2 h).1 !! 2%positive = Some [half32].
Proof.
  intros h. split; [| split].
  - exact (proj1 (proj2 (C9_add_leaves_arguments h 1 1 [one32; half32]
                           [one32; half32] eq_refl eq_refl))).
  - exact (proj1 (proj2 (proj2 (C9_add_leaves_arguments h 1 1 [one32; half32]
                                  [one32; half32] eq_refl eq_refl)))).
  - exact (proj1 (proj2 (proj2 (proj2 (C9_add_leaves_arguments h 1 2
             [one32; half32] [half32] eq_refl eq_refl))))).
Defined.

(** * The effect of [App] *)

Lemma Uint8ClampedArray_set_full (target source : Uint8ClampedArray) :
  length source = length target ->
  Uint8ClampedArray_set target source = Some source.
Proof.
  intros Hlen. unfold Uint8ClampedArray_set.
  destruct (decide (length source <= length target)%nat) as [_ | Hn]; [| lia].
  rewrite drop_ge, app_nil_r by lia. reflexivity.
Qed.

(** Mounting [App] with a canvas: the state after the commit, and the pixels
    that the effect has painted. *)
Lemma App_mount_painted
    (create_spectrum_image : float -> float -> Float32Array)
    (width height : Z) (px : Uint8ClampedArray) :
  let newSamples := create_spectrum_image (of_Z width) (of_Z height) in
  let zero := zero_state (Z.to_nat (width * height * 4)) in
  App_mount create_spectrum_image width height
    (Some {| has_context := true; pixels := px |})
  = ({| state := done; numSamples := of_Z 1 |},
     {| buffer_current := sum (merge zero newSamples);
        canvasRef_current :=
          Some {| has_context := true;
                  pixels := toImageBuffer (sum (merge zero newSamples))
                              (sampleCount zero) |} |}).
Proof.
  intros newSamples zero. unfold App_mount, App_effect, App_effect_run.
  cbn [canvasRef_current App_initial_refs has_context buffer_current
       numSamples App_initial_hooks].
  rewrite Uint8ClampedArray_set_full.
  - reflexivity.
  - rewrite length_toImageBuffer, length_add. unfold createImageData,
      new_Float32Array. rewrite !length_replicate. reflexivity.
Qed.

(** C4 fails on the code: in the effect of [App] the display image is derived
    from the sum that already holds the merge and from the counter of before
    the merge, which the closure of the first render captured; the counter
    that the state holds afterwards is 1.  For 1280 by 720 samples that are
    all one half, the canvas shows 255 where the average of the state would
    give 127. *)
Theorem C4_display_pairs_new_sum_with_old_count :
  (forall (create_spectrum_image : float -> float -> Float32Array)
          (width height : Z) (px : Uint8ClampedArray),
      let newSamples := create_spectrum_image (of_Z width) (of_Z height) in
      let zero := zero_state (Z.to_nat (width * height * 4)) in
      let mounted := App_mount create_spectrum_image width height
                       (Some {| has_context := true; pixels := px |}) in
      App_accumulation mounted.1 mounted.2 = merge zero newSamples
      /\ pixels <$> canvasRef_current mounted.2
         = Some (toImageBuffer (sum (merge zero newSamples)) (sampleCount zero)))
  /\ (let mounted := App_mount (fun _ _ => replicate (Z.to_nat 3686400) half32)
                       1280 720
                       (Some {| has_context := true;
                                pixels := createImageData 1280 720 |}) in
      sampleCount (App_accumulation mounted.1 mounted.2) = of_Z 1
      /\ (pixels <$> canvasRef_current mounted.2) ≫= (fun px => px !! 0%nat)
         = Some 255
      /\ toDisplayImage (App_accumulation mounted.1 mounted.2) !! 0%nat
         = Some 127).
Proof.
  split.
  - intros csi width height px newSamples zero mounted.
    subst mounted. rewrite App_mount_painted. fold newSamples zero.
    split; reflexivity.
  - intros mounted. subst mounted. rewrite App_mount_painted.
    unfold zero_state, merge, App_accumulation, toDisplayImage.
    cbn [fst snd sum sampleCount numSamples canvasRef_current buffer_current
         fmap option_fmap option_map mbind option_bind pixels].
    set (zeros := new_Float32Array (Z.to_nat (1280 * 720 * 4))).
    set (newSamples := replicate (Z.to_nat 3686400) half32).
    assert (Hzeros : zeros !! 0%nat = Some pos_zero)
      by (apply lookup_replicate_2; lia).
    assert (HnewSamples : newSamples !! 0%nat = Some half32)
      by (apply lookup_replicate_2; lia).
    clearbody zeros newSamples.
    pose proof (lookup_add_both _ _ _ _ _ Hzeros HnewSamples) as Hsum.
    split; [reflexivity |].
    rewrite !(lookup_toImageBuffer _ _ _ _ Hsum).
    split; reflexivity.
Qed.

(** * The worker protocol *)

Lemma insert_last {A} (l : list A) (x y : A) :
  <[length l := y]> (l ++ [x]) = l ++ [y].
Proof.
  rewrite insert_app_r_alt, Nat.sub_diag by reflexivity. reflexivity.
Qed.

Section Protocol.
Variable create_spectrum_image : float -> float -> Float32Array.

Abbreviation step := (step create_spectrum_image).
Abbreviation run := (run create_spectrum_image).

(** Listeners only write to the console. *)
Lemma dispatchEvent_frame (ls : list (EventType * Listener)) (ev : Event)
    (s : System) :
  accumulation (dispatchEvent ls ev s) = accumulation s
  /\ workers (dispatchEvent ls ev s) = workers s
  /\ worker_console (dispatchEvent ls ev s) = worker_console s.
Proof.
  unfold dispatchEvent.
  revert s. induction ls as [| [ty l] ls IH]; intros s; [auto |].
  cbn [foldl].
  destruct (decide (ty = type ev)) as [_ | _].
  - destruct l. destruct (IH (run_listener log_the_event ev s)) as (-> & -> & ->).
    auto.
  - apply IH.
Qed.

(** The listener of [callWorker] logs a [message] event ... *)
Lemma dispatchEvent_message (ev : Event) (s : System) :
  type ev = message ->
  dispatchEvent [(message, log_the_event)] ev s
  = {| console := console s ++ [LogEvent ev];
       accumulation := accumulation s;
       workers := workers s;
       worker_console := worker_console s |}.
Proof.
  intros Hty. cbn. rewrite Hty.
  destruct (decide (message = message)); [reflexivity | congruence].
Qed.

(** ... and is not run for any other event. *)
Lemma dispatchEvent_not_message (ev : Event) (s : System) :
  type ev <> message ->
  dispatchEvent [(message, log_the_event)] ev s = s.
Proof.
  intros Hty. cbn.
  destruct (decide (message = type ev)); [congruence | reflexivity].
Qed.

Lemma step_accumulation (s s' : System) (l : Label) :
  step s l s' -> accumulation s' = accumulation s.
Proof.
  intros Hstep. destruct Hstep; try reflexivity.
  rewrite (proj1 (dispatchEvent_frame _ _ _)). reflexivity.
Qed.

(** No step of the system merges anything. *)
Lemma run_accumulation (s s' : System) (tr : list Label) :
  run s tr s' -> accumulation s' = accumulation s.
Proof.
  induction 1 as [| s s' s'' l tr Hstep _ IH]; [reflexivity |].
  rewrite IH. eapply step_accumulation. exact Hstep.
Qed.

Lemma step_work_to (i : nat) (wk : Worker) (req : float * float)
    (rest : list (float * float)) (s s' : System) :
  workers s !! i = Some wk -> alive wk = true -> inbox wk = req :: rest ->
  s' = {| console := console s;
          accumulation := accumulation s;
          workers := <[i := {| alive := true; inbox := rest;
                               outbox := outbox wk ++
                                 (message_event <$>
                                    (self_onmessage create_spectrum_image req).2);
                               listeners := listeners wk |}]> (workers s);
          worker_console := worker_console s ++
            (self_onmessage create_spectrum_image req).1 |} ->
  step s (work i) s'.
Proof. intros Hwk Halive Hin ->. eapply step_work; eassumption. Qed.

Lemma step_lost_to (i : nat) (wk : Worker) (s s' : System) :
  workers s !! i = Some wk -> alive wk = true ->
  s' = set_worker i {| alive := false; inbox := [];
                       outbox := outbox wk ++ [error_event];
                       listeners := listeners wk |} s ->
  step s (lost i) s'.
Proof. intros Hwk Halive ->. eapply step_lost; eassumption. Qed.

Lemma step_deliver_to (i : nat) (wk : Worker) (ev : Event) (rest : list Event)
    (s s' : System) :
  workers s !! i = Some wk -> outbox wk = ev :: rest ->
  s' = dispatchEvent (listeners wk) ev
         (set_worker i {| alive := alive wk; inbox := inbox wk;
                          outbox := rest; listeners := listeners wk |} s) ->
  step s (deliver i ev) s'.
Proof. intros Hwk Hout ->. eapply step_deliver; eassumption. Qed.

(** The request of [callWorker] is answered and the answer delivered. *)
Lemma run_completed (width height : float) (s : System) :
  let i := length (workers s) in
  let ev := message_event (renderImage create_spectrum_image width height) in
  run (callWorker width height s) [work i; deliver i ev]
    {| console := console s ++ [LogEvent ev];
       accumulation := accumulation s;
       workers := workers s ++
         [{| alive := true; inbox := []; outbox := [];
             listeners := [(message, log_the_event)] |}];
       worker_console := worker_console s ++
         [LogText "worker loaded"; LogText "worker received message"] |}.
Proof.
  intros i ev.
  eapply run_cons.
  { eapply (step_work_to i) with (req := (width, height)) (rest := []).
    - cbn. apply list_lookup_middle. reflexivity.
    - reflexivity.
    - reflexivity.
    - reflexivity. }
  eapply run_cons; [| apply run_nil].
  eapply (step_deliver_to i) with (rest := []).
  - cbn. unfold i. rewrite insert_last. apply list_lookup_middle. reflexivity.
  - reflexivity.
  - cbn [listeners alive inbox].
    rewrite dispatchEvent_message by reflexivity.
    unfold set_worker.
    cbn [self_onmessage fst snd callWorker console accumulation workers
         worker_console outbox listeners fmap list_fmap app].
    unfold i. rewrite !insert_last, <- app_assoc. reflexivity.
Qed.

(** The worker of [callWorker] fails and its [error] event is delivered:
    nothing that the main context holds has changed. *)
Lemma run_lost (width height : float) (s : System) :
  let i := length (workers s) in
  run (callWorker width height s) [lost i; deliver i error_event]
    {| console := console s;
       accumulation := accumulation s;
       workers := workers s ++
         [{| alive := false; inbox := []; outbox := [];
             listeners := [(message, log_the_event)] |}];
       worker_console := worker_console s ++ [LogText "worker loaded"] |}.
Proof.
  intros i.
  eapply run_cons.
  { eapply (step_lost_to i).
    - cbn. apply list_lookup_middle. reflexivity.
    - reflexivity.
    - reflexivity. }
  eapply run_cons; [| apply run_nil].
  eapply (step_deliver_to i) with (rest := []).
  - cbn. unfold i. rewrite insert_last. apply list_lookup_middle. reflexivity.
  - reflexivity.
  - cbn [listeners alive inbox].
    rewrite dispatchEvent_not_message by discriminate.
    unfold set_worker.
    cbn [callWorker console accumulation workers worker_console outbox
         listeners app].
    unfold i. rewrite !insert_last. reflexivity.
Qed.

Lemma budget_insert (i j : nat) (wk wk' : Worker) (s s' : System) :
  workers s !! j = Some wk ->
  workers s' = <[j := wk']> (workers s) ->
  budget i s' = if decide (i = j) then pending wk' else budget i s.
Proof.
  intros Hwk Hws. unfold budget. rewrite Hws.
  destruct (decide (i = j)) as [-> | Hne].
  - rewrite list_lookup_insert_eq by (eapply lookup_lt_Some; exact Hwk).
    reflexivity.
  - rewrite list_lookup_insert_ne by congruence. reflexivity.
Qed.

Lemma budget_callWorker (i : nat) (width height : float) (s : System) :
  budget i (callWorker width height s) = budget i s.
Proof.
  unfold budget. cbn [callWorker workers].
  destruct (Nat.lt_total i (length (workers s))) as [Hlt | [-> | Hgt]].
  - rewrite lookup_app_l by exact Hlt. reflexivity.
  - rewrite list_lookup_middle by reflexivity.
    rewrite (proj2 (lookup_ge_None (workers s) _)) by lia. reflexivity.
  - rewrite !(proj2 (lookup_ge_None _ _)); [reflexivity | lia |].
    rewrite length_app. cbn. lia.
Qed.

Lemma pending_message (ev : Event) (out : list Event) :
  length (List.filter is_message (out ++ [ev]))
  = (length (List.filter is_message out) + if is_message ev then 1 else 0)%nat.
Proof.
  rewrite List.filter_app, length_app. cbn. destruct (is_message ev); reflexivity.
Qed.

(** A step that hands a result of worker [i] to the main context uses up
    the budget of that worker; no step increases a budget. *)
Lemma step_budget (i : nat) (s s' : System) (l : Label) :
  step s l s' ->
  ((if is_result_from i l then 1 else 0) + budget i s' <= budget i s)%nat.
Proof.
  intros Hstep. destruct Hstep as [width height s | j wk req rest s Hwk _ Hin
    | j wk s Hwk _ | j wk ev rest s Hwk Hout]; cbn [is_result_from].
  - rewrite budget_callWorker. lia.
  - erewrite budget_insert by (try exact Hwk; reflexivity).
    destruct (decide (i = j)) as [-> | _]; [| lia].
    unfold budget. rewrite Hwk. unfold pending. cbn [from_option inbox outbox].
    rewrite Hin. destruct req as [w h].
    cbn [self_onmessage snd fmap list_fmap].
    rewrite pending_message.
    change (is_message (message_event _)) with true. cbn. lia.
  - erewrite budget_insert by (try exact Hwk; reflexivity).
    destruct (decide (i = j)) as [-> | _]; [| lia].
    unfold budget. rewrite Hwk. unfold pending. cbn [from_option inbox outbox].
    rewrite pending_message.
    change (is_message error_event) with false. cbn. lia.
  - erewrite budget_insert
      by (try exact Hwk; rewrite (proj1 (proj2 (dispatchEvent_frame _ _ _)));
          reflexivity).
    destruct (decide (i = j)) as [-> | Hne].
    + unfold budget. rewrite Hwk. unfold pending.
      cbn [from_option inbox outbox]. rewrite Hout. cbn [List.filter].
      rewrite bool_decide_eq_true_2 by reflexivity. unfold is_message.
      destruct (bool_decide (type ev = message)); cbn; lia.
    + rewrite bool_decide_eq_false_2 by congruence. cbn. lia.
Qed.

Lemma run_budget (i : nat) (s s' : System) (tr : list Label) :
  run s tr s' -> (results_from i tr + budget i s' <= budget i s)%nat.
Proof.
  induction 1 as [s | s s' s'' l tr Hstep _ IH]; [cbn; lia |].
  pose proof (step_budget i s s' l Hstep) as Hb.
  unfold results_from in *. cbn [List.filter].
  destruct (is_result_from i l); cbn [length]; lia.
Qed.
End Protocol.

(** C5, as the code has it: for every dispatched request whose worker
    completes, the worker posts one message, carrying the 8-bit image
    [renderImage(w, h)]; when it is delivered, the listener of [callWorker]
    logs the event and nothing else: the result is not forwarded to a merge,
    and no run of the system changes the accumulation state. *)
Theorem C5_result_is_logged_not_merged
    (create_spectrum_image : float -> float -> Float32Array) :
  (forall w h : float,
      (self_onmessage create_spectrum_image (w, h)).2
      = [renderImage create_spectrum_image w h])
  /\ (forall (w h : float) (s : System),
      exists s' : System,
        run create_spectrum_image (callWorker w h s)
          [work (length (workers s));
           deliver (length (workers s))
             (message_event (renderImage create_spectrum_image w h))] s'
        /\ console s'
           = console s ++
             [LogEvent (message_event (renderImage create_spectrum_image w h))]
        /\ accumulation s' = accumulation s)
  /\ (forall (s s' : System) (tr : list Label),
      run create_spectrum_image s tr s' -> accumulation s' = accumulation s).
Proof.
  split; [reflexivity |]. split.
  - intros w h s. eexists. split; [apply run_completed |]. split; reflexivity.
  - apply run_accumulation.
Qed.

(** The accumulation state after a completed request, by the theorem of C5. *)
Lemma C5_result_is_logged_not_merged_witness :
  let csi := fun _ _ : float => [half32; half32; half32; half32] in
  let tr := [work 0; deliver 0 (message_event (renderImage csi (of_Z 1) (of_Z 1)))] in
  exists s : System,
    run csi (App_worker_mount 1 1) tr s
    /\ accumulation s = accumulation (App_worker_mount 1 1).
Proof.
  intros csi tr. eexists. split.
  - apply (run_completed csi (of_Z 1) (of_Z 1) (App_worker_initial 1 1)).
  - apply (proj2 (proj2 (C5_result_is_logged_not_merged csi)) _ _ tr).
    apply (run_completed csi (of_Z 1) (of_Z 1) (App_worker_initial 1 1)).
Defined.

(** C5 as stated fails: the worker of the mounted [App] completes and its
    result reaches the main context, but no merge has happened: the sample
    counter is still 0. *)
Lemma C5_completed_result_never_merged :
  let csi := fun _ _ : float => [half32; half32; half32; half32] in
  exists s : System,
    run csi (App_worker_mount 1 1)
      [work 0; deliver 0 (message_event (renderImage csi (of_Z 1) (of_Z 1)))] s
    /\ console s = [LogEvent (message_event [127; 127; 127; 127])]
    /\ accumulation s = zero_state 4
    /\ (forall sample : Float32Array, accumulation s <> merge (zero_state 4) sample).
Proof.
  intros csi. eexists. split.
  - apply (run_completed csi (of_Z 1) (of_Z 1) (App_worker_initial 1 1)).
  - split; [reflexivity |]. split; [reflexivity |].
    intros sample H. apply (f_equal sampleCount) in H. discriminate H.
Qed.

(** C6, as the code has it: a worker that fails before it answers is not
    detected.  [callWorker] registers a listener for [message] events only, so
    the [error] event changes nothing that the main context holds: console
    and accumulation state are as before, and nothing records the loss.  No
    run merges anything, and no worker hands more than one result to the main
    context. *)
Theorem C6_lost_worker_is_not_detected
    (create_spectrum_image : float -> float -> Float32Array) :
  (forall (w h : float) (s : System),
      exists s' : System,
        run create_spectrum_image (callWorker w h s)
          [lost (length (workers s));
           deliver (length (workers s)) error_event] s'
        /\ console s' = console s
        /\ accumulation s' = accumulation s)
  /\ (forall (s s' : System) (tr : list Label),
      run create_spectrum_image s tr s' -> accumulation s' = accumulation s)
  /\ (forall (s s' : System) (tr : list Label) (i : nat),
      workers s = [] ->
      run create_spectrum_image s tr s' ->
      (results_from i tr <= 1)%nat).
Proof.
  split; [| split].
  - intros w h s. eexists. split; [apply run_lost |]. split; reflexivity.
  - apply run_accumulation.
  - intros s s' tr i Hs Hrun.
    pose proof (run_budget create_spectrum_image i s s' tr Hrun) as Hb.
    assert (Hone : budget i s = 1%nat)
      by (unfold budget; rewrite Hs, lookup_nil; reflexivity).
    lia.
Qed.

(** The results of the worker of a completed request, by the theorem of C6. *)
Lemma C6_lost_worker_is_not_detected_witness :
  let csi := fun _ _ : float => [half32; half32; half32; half32] in
  (results_from 0
     [call (of_Z 1) (of_Z 1); work 0;
      deliver 0 (message_event (renderImage csi (of_Z 1) (of_Z 1)))] <= 1)%nat.
Proof.
  intros csi.
  refine (proj2 (proj2 (C6_lost_worker_is_not_detected csi))
            (App_worker_initial 1 1) _ _ 0%nat eq_refl _).
  eapply run_cons; [apply step_call |].
  apply (run_completed csi (of_Z 1) (of_Z 1) (App_worker_initial 1 1)).
Defined.

(** C6 as stated fails: the worker of the mounted [App] fails before it
    answers and its [error] event is delivered, yet the main context is
    exactly as it was when the request was still pending. *)
Lemma C6_lost_worker_goes_unnoticed :
  let csi := fun _ _ : float => [half32; half32; half32; half32] in
  exists s : System,
    run csi (App_worker_mount 1 1) [lost 0; deliver 0 error_event] s
    /\ console s = console (App_worker_mount 1 1)
    /\ accumulation s = accumulation (App_worker_mount 1 1)
    /\ outbox <$> workers s = [[]].
Proof.
  intros csi. eexists. split.
  - apply (run_lost csi (of_Z 1) (of_Z 1) (App_worker_initial 1 1)).
  - repeat split.
Qed.

(** * The order of merges *)

Lemma js_add_comm (x y : float) : js_add x y = js_add y x.
Proof.
  unfold js_add.
  destruct x as [[] | [] | | sx mx ex], y as [[] | [] | | sy my ey];
    try reflexivity.
  unfold SFadd. rewrite (Z.min_comm ey ex). f_equal. apply Z.add_comm.
Qed.

Lemma f32_add_comm (x y : float) : f32_add x y = f32_add y x.
Proof. unfold f32_add. rewrite js_add_comm. reflexivity. Qed.

(** The counter depends on the number of merged samples only. *)
Lemma sampleCount_merge_all_length (st : AccumulationState)
    (samples : list Float32Array) :
  sampleCount (merge_all st samples)
  = Nat.iter (length samples) (fun c => js_add c (of_Z 1)) (sampleCount st).
Proof.
  revert st. induction samples as [| s samples IH]; intros st; [reflexivity |].
  change (merge_all st (s :: samples)) with (merge_all (merge st s) samples).
  rewrite IH. cbn [length merge sampleCount].
  rewrite Nat.iter_succ_r. reflexivity.
Qed.

(** * Further properties of the code *)

(** ** The image of one sample buffer *)

Lemma lookup_renderImage (csi : float -> float -> Float32Array)
    (width height : float) (i : nat) (x : float) :
  csi width height !! i = Some x ->
  renderImage csi width height !! i
  = Some (ToUint8Clamp (Float32_load (Float32_store
       (Math_floor (js_mul (Float32_load x) (of_Z 255)))))).
Proof.
  intros Hx. unfold renderImage, new_Uint8ClampedArray.
  rewrite list_lookup_fmap, lookup_Float32Array_map, Hx. reflexivity.
Qed.

Lemma length_renderImage (csi : float -> float -> Float32Array)
    (width height : float) :
  length (renderImage csi width height) = length (csi width height).
Proof.
  unfold renderImage, new_Uint8ClampedArray.
  rewrite length_fmap. apply length_Float32Array_map.
Qed.

(** The byte of an element does not depend on the sign of a zero. *)
Lemma display_byte_plus_zero (v n : float) :
  ToUint8Clamp (Float32_load (Float32_store (Math_floor (js_mul
    (js_div (Float32_load (match v with S754_zero _ => pos_zero | _ => v end)) n)
    (of_Z 255)))))
  = ToUint8Clamp (Float32_load (Float32_store (Math_floor (js_mul
      (js_div (Float32_load v) n) (of_Z 255))))).
Proof.
  destruct v as [[] | [] | | s m e]; try reflexivity.
  destruct n as [[] | [] | | [] mn en]; reflexivity.
Qed.

(** Adding a buffer to a fresh one copies it, [-0] becoming [+0]. *)
Lemma add_zeros_l (a : Float32Array) :
  Forall (fun x => is_float32 x = true) a ->
  add (new_Float32Array (length a)) a
  = (fun v => match v with S754_zero _ => pos_zero | _ => v end) <$> a.
Proof.
  intros Hv. apply list_eq. intros i. rewrite list_lookup_fmap.
  destruct (a !! i) as [x |] eqn:Hx.
  - assert (Hi : (i < length a)%nat) by (eapply lookup_lt_Some; exact Hx).
    rewrite (lookup_add_both _ a i pos_zero x)
      by (try exact Hx; apply lookup_replicate_2; exact Hi).
    cbn. f_equal. apply f32_add_zero_l.
    exact (Forall_lookup_1 _ a i x Hv Hx).
  - apply lookup_add_beyond. unfold new_Float32Array.
    rewrite length_replicate. apply lookup_ge_None. exact Hx.
Qed.

(** X1: the image that the worker posts ([renderImage]) is the image that
    [toImageBuffer] gives for the same samples and a counter of 1, and it is
    the display image of the state after the first merge of these samples into
    a fresh buffer: the two programs show one sample buffer in the same way. *)
Theorem renderImage_is_first_display
    (create_spectrum_image : float -> float -> Float32Array)
    (width height : float) :
  Forall (fun x => is_float32 x = true) (create_spectrum_image width height) ->
  let sample := create_spectrum_image width height in
  renderImage create_spectrum_image width height = toImageBuffer sample (of_Z 1)
  /\ renderImage create_spectrum_image width height
     = toDisplayImage (merge (zero_state (length sample)) sample).
Proof.
  intros Hv sample.
  assert (H1 : renderImage create_spectrum_image width height
               = toImageBuffer sample (of_Z 1)).
  { apply list_eq. intros i. destruct (sample !! i) as [x |] eqn:Hx.
    - rewrite (lookup_renderImage _ _ _ _ _ Hx).
      rewrite (lookup_toImageBuffer _ _ _ _ Hx).
      rewrite js_div_1; [reflexivity |].
      apply Float32_load_is_float64.
      exact (Forall_lookup_1 _ sample i x Hv Hx).
    - apply lookup_ge_None in Hx.
      rewrite !(proj2 (lookup_ge_None _ _)); [reflexivity | |].
      + rewrite length_toImageBuffer. exact Hx.
      + rewrite length_renderImage. exact Hx. }
  split; [exact H1 |]. rewrite H1.
  unfold toDisplayImage. cbn [merge sum sampleCount zero_state].
  rewrite add_zeros_l by exact Hv.
  change (js_add (of_Z 0) (of_Z 1)) with (of_Z 1).
  apply list_eq. intros i. destruct (sample !! i) as [x |] eqn:Hx.
  - rewrite (lookup_toImageBuffer _ _ _ _ Hx).
    erewrite lookup_toImageBuffer by (rewrite list_lookup_fmap, Hx; reflexivity).
    f_equal. symmetry. apply display_byte_plus_zero.
  - apply lookup_ge_None in Hx.
    rewrite !(proj2 (lookup_ge_None _ _)); [reflexivity | |].
    + rewrite length_toImageBuffer, length_fmap. exact Hx.
    + rewrite length_toImageBuffer. exact Hx.
Qed.

(** Four samples, one of them [-0] and one negative, by the theorem of X1. *)
Lemma renderImage_is_first_display_witness :
  let csi := fun _ _ : float => [half32; one32; S754_zero true; f32 (-3) 0] in
  renderImage csi (of_Z 2) (of_Z 1) = toImageBuffer (csi (of_Z 2) (of_Z 1)) (of_Z 1)
  /\ renderImage csi (of_Z 2) (of_Z 1)
     = toDisplayImage (merge (zero_state 4) (csi (of_Z 2) (of_Z 1))).
Proof.
  intros csi.
  apply (renderImage_is_first_display csi (of_Z 2) (of_Z 1)).
  repeat constructor.
Defined.

(** The byte that [renderImage] gives for a finite sample of value [q]. *)
Lemma renderImage_byte_value (csi : float -> float -> Float32Array)
    (width height : float) (i : nat) (v : float) (q : Q) :
  csi width height !! i = Some v ->
  is_float32 v = true ->
  float_value v = Some q ->
  renderImage csi width height !! i
  = Some (clamp 0 255 (Qfloor (q * inject_Z 255))).
Proof.
  intros Hi Hv Hq. rewrite (lookup_renderImage _ _ _ _ _ Hi). f_equal.
  apply display_byte_exact; [exact Hv |].
  apply exact_floor_255_value. exact Hq.
Qed.

Lemma Qfloor_ge (z : Z) (x : Q) : z <= Qfloor x <-> (inject_Z z <= x)%Q.
Proof.
  split; intros H.
  - apply Qle_trans with (inject_Z (Qfloor x)); [| apply Qfloor_le].
    rewrite <- Zle_Qle. exact H.
  - rewrite <- (Qfloor_Z z). apply Qfloor_resp_le. exact H.
Qed.

(** X2: [renderImage] is monotone: of two finite samples, the one of the
    larger value never gets the smaller byte. *)
Theorem renderImage_monotone
    (create_spectrum_image : float -> float -> Float32Array)
    (width height : float) (i j : nat) (v1 v2 : float) (q1 q2 : Q) :
  create_spectrum_image width height !! i = Some v1 ->
  create_spectrum_image width height !! j = Some v2 ->
  is_float32 v1 = true -> is_float32 v2 = true ->
  float_value v1 = Some q1 -> float_value v2 = Some q2 ->
  (q1 <= q2)%Q ->
  exists b1 b2 : Z,
    renderImage create_spectrum_image width height !! i = Some b1
    /\ renderImage create_spectrum_image width height !! j = Some b2
    /\ b1 <= b2.
Proof.
  intros Hi Hj Hv1 Hv2 Hq1 Hq2 Hle.
  exists (clamp 0 255 (Qfloor (q1 * inject_Z 255))),
         (clamp 0 255 (Qfloor (q2 * inject_Z 255))).
  split; [eapply renderImage_byte_value; eassumption |].
  split; [eapply renderImage_byte_value; eassumption |].
  assert (Hf : Qfloor (q1 * inject_Z 255) <= Qfloor (q2 * inject_Z 255)).
  { apply Qfloor_resp_le. apply Qmult_le_compat_r; [exact Hle | discriminate]. }
  unfold clamp. lia.
Qed.

(** The samples one half and three quarters, by the theorem of X2. *)
Lemma renderImage_monotone_witness :
  let csi := fun _ _ : float => [f32 3 (-2); half32; f32 (-1) 0; f32 5 0] in
  exists b1 b2 : Z,
    renderImage csi (of_Z 1) (of_Z 1) !! 1%nat = Some b1
    /\ renderImage csi (of_Z 1) (of_Z 1) !! 0%nat = Some b2
    /\ b1 <= b2.
Proof.
  intros csi.
  apply (renderImage_monotone csi (of_Z 1) (of_Z 1) 1 0 half32 (f32 3 (-2))
           _ _ eq_refl eq_refl eq_refl eq_refl eq_refl eq_refl).
  vm_compute. discriminate.
Defined.

(** X3: where [renderImage] saturates: a finite sample gets the byte 255
    exactly when its value is at least 1, and the byte 0 exactly when its value
    is below 1/255 (negative samples included). *)
Theorem renderImage_black_and_white
    (create_spectrum_image : float -> float -> Float32Array)
    (width height : float) (i : nat) (v : float) (q : Q) :
  create_spectrum_image width height !! i = Some v ->
  is_float32 v = true ->
  float_value v = Some q ->
  (renderImage create_spectrum_image width height !! i = Some 255
   <-> (1 <= q)%Q)
  /\ (renderImage create_spectrum_image width height !! i = Some 0
      <-> (q < 1 # 255)%Q).
Proof.
  intros Hi Hv Hq. rewrite (renderImage_byte_value _ _ _ _ _ _ Hi Hv Hq).
  set (f := Qfloor (q * inject_Z 255)).
  assert (H255 : 255 <= f <-> (1 <= q)%Q).
  { unfold f. rewrite Qfloor_ge. split; intros H.
    - apply (Qmult_le_r _ _ (inject_Z 255)); [reflexivity |].
      rewrite Qmult_1_l. exact H.
    - apply (Qmult_le_r _ _ (inject_Z 255)) in H; [| reflexivity].
      rewrite Qmult_1_l in H. exact H. }
  assert (H0 : f <= 0 <-> (q < 1 # 255)%Q).
  { assert (H1 : 1 <= f <-> (1 # 255 <= q)%Q).
    { assert (E : ((1 # 255) * inject_Z 255 == inject_Z 1)%Q) by reflexivity.
      unfold f. rewrite Qfloor_ge. split; intros H.
      - apply (Qmult_le_r _ _ (inject_Z 255)); [reflexivity |].
        rewrite E. exact H.
      - apply (Qmult_le_r _ _ (inject_Z 255)) in H; [| reflexivity].
        rewrite E in H. exact H. }
    split; intros H.
    - apply Qnot_le_lt. intros Hq'. apply H1 in Hq'. lia.
    - apply Qlt_not_le in H. destruct (Z.le_gt_cases f 0) as [Hf | Hf];
        [exact Hf |]. exfalso. apply H, H1. lia. }
  unfold clamp. split; split; intros H.
  - apply H255. injection H as H. lia.
  - apply H255 in H. f_equal. lia.
  - apply H0. injection H as H. lia.
  - apply H0 in H. f_equal. lia.
Qed.

(** The sample 5, by the theorem of X3. *)
Lemma renderImage_black_and_white_witness :
  let csi := fun _ _ : float => [f32 3 (-2); f32 1 (-8); f32 (-1) 0; f32 5 0] in
  exists q : Q,
    float_value (f32 5 0) = Some q
    /\ (renderImage csi (of_Z 1) (of_Z 1) !! 3%nat = Some 255 <-> (1 <= q)%Q)
    /\ (renderImage csi (of_Z 1) (of_Z 1) !! 3%nat = Some 0 <-> (q < 1 # 255)%Q).
Proof.
  intros csi. eexists. split; [reflexivity |].
  apply (renderImage_black_and_white csi (of_Z 1) (of_Z 1) 3 (f32 5 0));
    reflexivity.
Defined.

(** ** [add] *)

Lemma add_comm_eq_length (a b : Float32Array) :
  length a = length b -> add a b = add b a.
Proof.
  intros Hlen. apply list_eq. intros i.
  destruct (a !! i) as [x |] eqn:Hx.
  - assert (Hi : (i < length b)%nat)
      by (rewrite <- Hlen; eapply lookup_lt_Some; exact Hx).
    destruct (lookup_lt_is_Some_2 b i Hi) as [y Hy].
    rewrite (lookup_add_both a b i x y Hx Hy), (lookup_add_both b a i y x Hy Hx).
    f_equal. apply f32_add_comm.
  - apply lookup_ge_None in Hx.
    rewrite !lookup_add_beyond by lia. reflexivity.
Qed.

(** X4: [add(a, b)] and [add(b, a)] are the same array exactly when [a] and
    [b] have the same length (the result has the length of the first
    argument). *)
Theorem add_commutes_iff_equal_length (a b : Float32Array) :
  add a b = add b a <-> length a = length b.
Proof.
  split.
  - intros H. apply (f_equal length) in H. rewrite !length_add in H. exact H.
  - apply add_comm_eq_length.
Qed.

(** X5: a fresh buffer ([new Float32Array(n)]) is neutral for [add], on
    either side, up to the sign of zero: the result holds the elements of the
    other buffer, with [+0] in the place of [-0]. *)
Theorem add_fresh_buffer_copies (a : Float32Array) :
  Forall (fun x => is_float32 x = true) a ->
  let shown := (fun v => match v with S754_zero _ => pos_zero | _ => v end) <$> a in
  add (new_Float32Array (length a)) a = shown
  /\ add a (new_Float32Array (length a)) = shown.
Proof.
  intros Hv shown. split; [apply add_zeros_l; exact Hv |].
  rewrite add_comm_eq_length
    by (unfold new_Float32Array; rewrite length_replicate; reflexivity).
  apply add_zeros_l. exact Hv.
Qed.

(** A buffer with [-0], NaN and [Infinity], by the theorem of X5. *)
Lemma add_fresh_buffer_copies_witness :
  let a := [half32; S754_zero true; f32 (-3) 1; NaN; Infinity] in
  add (new_Float32Array 5) a = [half32; pos_zero; f32 (-3) 1; NaN; Infinity]
  /\ add a (new_Float32Array 5) = [half32; pos_zero; f32 (-3) 1; NaN; Infinity].
Proof.
  intros a. apply (add_fresh_buffer_copies a). repeat constructor.
Defined.

(** ** NaN in the sum *)

Lemma lookup_add_NaN (a b : Float32Array) (i : nat) :
  a !! i = Some NaN -> add a b !! i = Some NaN.
Proof.
  intros Ha. unfold add. rewrite lookup_Float32Array_map, Ha.
  unfold Float32Array_get. rewrite Ha. reflexivity.
Qed.

Lemma lookup_merge_all_NaN (st : AccumulationState)
    (samples : list Float32Array) (i : nat) :
  sum st !! i = Some NaN -> sum (merge_all st samples) !! i = Some NaN.
Proof.
  revert st. induction samples as [| s samples IH]; intros st Hi; [exact Hi |].
  change (merge_all st (s :: samples)) with (merge_all (merge st s) samples).
  apply IH. cbn [merge sum]. apply lookup_add_NaN. exact Hi.
Qed.

Lemma lookup_toImageBuffer_NaN (buffer : Float32Array) (n : float) (i : nat) :
  buffer !! i = Some NaN -> toImageBuffer buffer n !! i = Some 0.
Proof.
  intros Hi. rewrite (lookup_toImageBuffer _ _ _ _ Hi). reflexivity.
Qed.

(** X6: a NaN in the running sum is never recovered: whatever buffers are
    merged afterwards, of whatever lengths, the sum holds NaN under that index
    and the display image shows 0 there. *)
Theorem NaN_is_never_recovered (st : AccumulationState)
    (samples : list Float32Array) (i : nat) :
  sum st !! i = Some NaN ->
  sum (merge_all st samples) !! i = Some NaN
  /\ toDisplayImage (merge_all st samples) !! i = Some 0.
Proof.
  intros Hi.
  pose proof (lookup_merge_all_NaN st samples i Hi) as Hs.
  split; [exact Hs |]. apply lookup_toImageBuffer_NaN. exact Hs.
Qed.

(** Three more merges into a sum with a NaN, by the theorem of X6. *)
Lemma NaN_is_never_recovered_witness :
  let st := {| sum := [one32; NaN]; sampleCount := of_Z 1 |} in
  let samples := [[one32; one32]; [half32]; [one32; f32 (-5) 0; one32]] in
  sum (merge_all st samples) !! 1%nat = Some NaN
  /\ toDisplayImage (merge_all st samples) !! 1%nat = Some 0.
Proof.
  intros st samples. apply (NaN_is_never_recovered st samples 1). reflexivity.
Defined.

(** X7: one sample buffer that is too short blacks out the rest of the image
    for good: under every index that the short buffer lacks, the sum is NaN
    and the display image shows 0 after any further merges. *)
Theorem short_sample_blacks_out (st : AccumulationState)
    (short : Float32Array) (later : list Float32Array) (i : nat) :
  (length short <= i < length (sum st))%nat ->
  sum (merge_all st (short :: later)) !! i = Some NaN
  /\ toDisplayImage (merge_all st (short :: later)) !! i = Some 0.
Proof.
  intros [Hlo Hhi].
  change (merge_all st (short :: later)) with (merge_all (merge st short) later).
  destruct (lookup_lt_is_Some_2 (sum st) i Hhi) as [x Hx].
  assert (Hs : sum (merge_all (merge st short) later) !! i = Some NaN).
  { apply lookup_merge_all_NaN. cbn [merge sum].
    apply lookup_add_short with x; [exact Hx |].
    apply lookup_ge_None. exact Hlo. }
  split; [exact Hs |]. apply lookup_toImageBuffer_NaN. exact Hs.
Qed.

(** A buffer of two elements merged into a sum of three, by the theorem of
    X7. *)
Lemma short_sample_blacks_out_witness :
  let later := [[one32; one32; one32]; [half32; half32; half32]] in
  sum (merge_all (zero_state 3) ([one32; one32] :: later)) !! 2%nat = Some NaN
  /\ toDisplayImage (merge_all (zero_state 3) ([one32; one32] :: later)) !! 2%nat
     = Some 0.
Proof.
  intros later.
  apply (short_sample_blacks_out (zero_state 3) [one32; one32] later 2).
  cbn. lia.
Defined.

(** ** What [toImageBuffer] shows as black *)

(** X8: a fresh buffer is shown as the black image for every counter, also
    for 0, NaN and the infinities. *)
Theorem fresh_buffer_is_black (n : nat) (numSamples : float) :
  toImageBuffer (new_Float32Array n) numSamples = replicate n 0.
Proof.
  apply list_eq. intros i. destruct (Nat.lt_ge_cases i n) as [Hi | Hi].
  - rewrite (lookup_toImageBuffer _ _ i pos_zero)
      by (apply lookup_replicate_2; exact Hi).
    rewrite lookup_replicate_2 by exact Hi. f_equal.
    destruct numSamples as [[] | [] | | [] m e]; reflexivity.
  - transitivity (@None Z).
    + apply lookup_ge_None. rewrite length_toImageBuffer.
      unfold new_Float32Array. rewrite length_replicate. exact Hi.
    + symmetry. apply lookup_replicate_None. exact Hi.
Qed.

Lemma binary_round_aux_nonpositive (prec emax : Z) (m e : Z) (l : location) :
  is_nonpositive (binary_round_aux prec emax true m e l) = true.
Proof.
  unfold binary_round_aux.
  destruct (shr_fexp prec emax m e l) as [mrs' e'].
  destruct (shr_fexp prec emax _ e' loc_Exact) as [mrs'' e''].
  destruct (shr_m mrs'') as [| p | p]; try reflexivity.
  destruct (e'' <=? emax - prec); reflexivity.
Qed.

Lemma js_div_nonpositive (x n : float) :
  is_nonpositive x = true -> is_negative n = false ->
  is_nonpositive (js_div x n) = true.
Proof.
  destruct x as [sx | [] | | [] mx ex]; try discriminate;
    destruct n as [[] | [] | | [] mn en]; try discriminate;
    try reflexivity.
  intros _ _. unfold js_div, SFdiv.
  destruct (SFdiv_core_binary 53 1024 (Zpos mx) ex (Zpos mn) en) as [[mz ez] lz].
  apply binary_round_aux_nonpositive.
Qed.

Lemma js_mul_255_nonpositive (x : float) :
  is_nonpositive x = true -> is_nonpositive (js_mul x (of_Z 255)) = true.
Proof.
  assert (E : exists m e, of_Z 255 = S754_finite false m e)
    by (do 2 eexists; vm_compute; reflexivity).
  destruct E as (m & e & ->).
  destruct x as [sx | [] | | [] mx ex]; try discriminate; try reflexivity.
  intros _. apply binary_round_aux_nonpositive.
Qed.

Lemma Math_floor_nonpositive (x : float) :
  is_nonpositive x = true -> is_nonpositive (Math_floor x) = true.
Proof.
  destruct x as [sx | [] | | [] m e]; try discriminate;
    try (intros H; exact H).
  intros _. unfold Math_floor. destruct (0 <=? e) eqn:He; [reflexivity |].
  apply Z.leb_gt in He. cbn [cond_Zopp].
  set (z := Z.shiftr _ _).
  assert (Hneg : z < 0) by (apply Z.shiftr_neg; lia).
  destruct z as [| p | p]; try lia.
  unfold binary_normalize. apply binary_round_nonpositive.
Qed.

(** X9: an element of the sum that is zero, negative, minus infinity or NaN
    is shown as 0 for every counter that is not negative (every counter that
    counting from 0 reaches): negative light is clamped, never wrapped. *)
Theorem nonpositive_sum_is_black (buffer : Float32Array) (numSamples : float)
    (i : nat) (x : float) :
  buffer !! i = Some x ->
  is_nonpositive x = true ->
  is_negative numSamples = false ->
  toImageBuffer buffer numSamples !! i = Some 0.
Proof.
  intros Hi Hx Hn. rewrite (lookup_toImageBuffer _ _ _ _ Hi). f_equal.
  apply ToUint8Clamp_store_nonpositive, Math_floor_nonpositive,
    js_mul_255_nonpositive, js_div_nonpositive; [| exact Hn].
  apply Float32_load_nonpositive. exact Hx.
Qed.

(** A negative element with the counter 3 and minus infinity with the
    counter 0, by the theorem of X9. *)
Lemma nonpositive_sum_is_black_witness :
  toImageBuffer [one32; f32 (-7) (-3); S754_infinity true] (of_Z 3) !! 1%nat
  = Some 0
  /\ toImageBuffer [one32; f32 (-7) (-3); S754_infinity true] (of_Z 0) !! 2%nat
     = Some 0.
Proof.
  split.
  - apply (nonpositive_sum_is_black _ (of_Z 3) 1 (f32 (-7) (-3)));
      reflexivity.
  - apply (nonpositive_sum_is_black _ (of_Z 0) 2 (S754_infinity true));
      reflexivity.
Defined.

(** ** Merging a buffer twice *)

(** Adding a number of 53 bits to itself increments its exponent. *)
Lemma js_add_self (s : bool) (M : positive) (E : Z) :
  Zpos (digits2_pos M) = 53 -> -1074 <= E < 971 ->
  js_add (S754_finite s M E) (S754_finite s M E) = S754_finite s M (E + 1).
Proof.
  intros Hd HE. unfold js_add, SFadd.
  rewrite Z.min_id. unfold shl_align. rewrite Z.sub_diag. cbn [fst].
  assert (Hsum : cond_Zopp s (Zpos M) + cond_Zopp s (Zpos M)
                 = cond_Zopp s (Zpos (Pos.shiftl M 1))).
  { rewrite Zpos_shiftl. destruct s; cbn [cond_Zopp]; lia. }
  rewrite Hsum.
  assert (Hn : binary_normalize 53 1024 (cond_Zopp s (Zpos (Pos.shiftl M 1))) E false
               = binary_round 53 1024 s (Pos.shiftl M 1) E).
  { destruct s; reflexivity. }
  rewrite Hn.
  replace E with (E + 1 - Z.of_N 1) at 1 by lia.
  rewrite binary_round_exact by (unfold fexp, emin; lia).
  unfold fexp, emin. rewrite Hd.
  replace (Z.max (53 + (E + 1) - 53) (3 - 1024 - 53)) with (E + 1) by lia.
  rewrite Z.sub_diag.
  destruct (Z.leb_spec (E + 1) (1024 - 53)); [reflexivity | lia].
Qed.

Lemma SFdiv_core_binary_2 (M : positive) (E : Z) :
  Zpos (digits2_pos M) = 53 -> -1074 < E ->
  SFdiv_core_binary 53 1024 (Zpos M) (E + 1) 4503599627370496 (-51)
  = (Zpos (Pos.shiftl M 1), E - 1, loc_Exact).
Proof.
  intros Hd HE. unfold SFdiv_core_binary.
  change (Zdigits2 4503599627370496) with 53. cbn [Zdigits2]. rewrite Hd.
  set (e' := Z.min _ _).
  assert (He' : e' = E - 1) by (unfold e', fexp, emin; lia).
  clearbody e'. subst e'.
  replace (E + 1 - -51 - (E - 1)) with 53 by lia.
  rewrite Z.shiftl_mul_pow2 by lia.
  replace (Zpos M * 2 ^ 53) with (Zpos (Pos.shiftl M 1) * 2 ^ 52)
    by (rewrite Zpos_shiftl; change (2 ^ 53) with (2 ^ Z.of_N 1 * 2 ^ 52); lia).
  change 4503599627370496 with (2 ^ 52).
  rewrite div_eucl_pow2 by lia. reflexivity.
Qed.

(** Halving is exact. *)
Lemma js_div_2 (s : bool) (M : positive) (E : Z) :
  Zpos (digits2_pos M) = 53 -> -1074 < E <= 971 ->
  js_div (S754_finite s M (E + 1)) (of_Z 2) = S754_finite s M E.
Proof.
  intros Hd HE.
  change (of_Z 2) with (S754_finite false 4503599627370496 (-51)).
  unfold js_div, SFdiv.
  rewrite SFdiv_core_binary_2 by (try exact Hd; lia).
  rewrite xorb_false_r.
  rewrite (binary_round_aux_exact 53 1024 s M 1 1 (E - 1))
    by (try lia; unfold fexp, emin; lia).
  replace (E - 1 + Z.of_N 1) with E by lia.
  rewrite N.sub_diag.
  destruct (Z.leb_spec E (1024 - 53)); [reflexivity | lia].
Qed.

(** Twice a binary32 element, as [add] computes it: read as a number, it has
    the mantissa of the element and the next exponent, unless it overflows. *)
Lemma f32_add_self (s : bool) (m : positive) (e : Z) :
  bounded 24 128 m e = true ->
  let M := Pos.shiftl m (Z.to_N (53 - Zpos (digits2_pos m))) in
  let E := Zpos (digits2_pos m) + e - 53 in
  if e <? 104
  then Float32_load (f32_add (S754_finite s m e) (S754_finite s m e))
       = S754_finite s M (E + 1)
  else f32_add (S754_finite s m e) (S754_finite s m e) = S754_infinity s.
Proof.
  intros Hb M E.
  pose proof Hb as [Hc He]%bounded32_inv.
  pose proof (Pos2Z.is_pos (digits2_pos m)) as Hpos.
  assert (HdM : Zpos (digits2_pos M) = 53)
    by (unfold M; rewrite digits2_pos_shiftl; lia).
  set (j := Z.to_N (53 - Zpos (digits2_pos m))).
  set (c := Z.max (Zpos (digits2_pos m) + (e + 1) - 24) (-149)).
  assert (Hadd : f32_add (S754_finite s m e) (S754_finite s m e)
                 = if c <=? 104
                   then S754_finite s (Pos.shiftl m (Z.to_N (e + 1 - c))) c
                   else S754_infinity s).
  { unfold f32_add. rewrite Float32_load_finite by exact Hb. fold M E.
    rewrite js_add_self by (try exact HdM; unfold E; lia).
    unfold Float32_store, M. fold j.
    replace (E + 1) with (e + 1 - Z.of_N j) by (unfold E, j; lia).
    rewrite binary_round_exact by (unfold fexp, emin; lia).
    reflexivity. }
  rewrite Hadd.
  destruct (Z.ltb_spec e 104) as [Hlt | Hge].
  - destruct (Z.leb_spec c 104) as [_ | Hc']; [| unfold c in Hc'; lia].
    rewrite Float32_load_finite.
    + rewrite digits2_pos_shiftl, shiftl_shiftl.
      unfold M, E. fold j.
      f_equal; [f_equal |]; unfold c, j; lia.
    + unfold bounded, canonical_mantissa, fexp, emin.
      rewrite digits2_pos_shiftl.
      apply andb_true_iff. split; [apply Z.eqb_eq | apply Z.leb_le];
        unfold c; lia.
  - destruct (Z.leb_spec c 104) as [Hc' | _]; [unfold c in Hc'; lia |].
    reflexivity.
Qed.

(** The byte of an element merged twice, with the counter 2, is its byte
    merged once, with the counter 1. *)
Lemma repeated_byte (v : float) :
  is_float32 v = true ->
  ToUint8Clamp (Float32_load (Float32_store (Math_floor (js_mul
    (js_div (Float32_load (f32_add (f32_add pos_zero v) v)) (of_Z 2))
    (of_Z 255)))))
  = ToUint8Clamp (Float32_load (Float32_store (Math_floor (js_mul
      (js_div (Float32_load (f32_add pos_zero v)) (of_Z 1)) (of_Z 255))))).
Proof.
  intros Hv. rewrite (f32_add_zero_l v Hv).
  destruct v as [[] | [] | | s m e]; try reflexivity.
  pose proof Hv as Hb. unfold is_float32 in Hb. cbn [valid_binary] in Hb.
  pose proof Hb as [Hc He]%bounded32_inv.
  pose proof (Pos2Z.is_pos (digits2_pos m)) as Hpos.
  rewrite (js_div_1 (Float32_load _))
    by (apply Float32_load_is_float64; exact Hv).
  pose proof (f32_add_self s m e Hb) as Hself. cbv zeta in Hself.
  destruct (Z.ltb_spec e 104) as [Hlt | Hge].
  - rewrite Hself.
    rewrite js_div_2
      by (try (rewrite digits2_pos_shiftl); lia).
    rewrite Float32_load_finite by exact Hb. reflexivity.
  - rewrite Hself.
    rewrite (display_byte_exact _ _ Hv eq_refl).
    assert (He104 : e = 104) by lia. subst e.
    unfold floor_scaled. change (0 <=? 104) with true. cbv iota.
    assert (Hp : 1 <= 2 ^ 104) by (vm_compute; discriminate).
    generalize dependent (2 ^ 104). intros p Hp.
    destruct s; cbn [cond_Zopp].
    + transitivity 0; [reflexivity |]. unfold clamp. nia.
    + transitivity 255; [reflexivity |]. unfold clamp. nia.
Qed.

(** X10: averaging is exact for a repeated sample: merging the same buffer of
    binary32 values twice into a fresh state (sum [2v], counter 2) gives the
    display image of merging it once, for buffers of every length, also where
    [2v] overflows to an infinity. *)
Theorem repeated_sample_keeps_display (n : nat) (a : Float32Array) :
  Forall (fun v => is_float32 v = true) a ->
  toDisplayImage (merge (merge (zero_state n) a) a)
  = toDisplayImage (merge (zero_state n) a).
Proof.
  intros Hv. unfold toDisplayImage. cbn [merge sum sampleCount zero_state].
  change (js_add (js_add (of_Z 0) (of_Z 1)) (of_Z 1)) with (of_Z 2).
  change (js_add (of_Z 0) (of_Z 1)) with (of_Z 1).
  apply list_eq. intros i.
  destruct (Nat.lt_ge_cases i n) as [Hi | Hi].
  - assert (Hz : new_Float32Array n !! i = Some pos_zero)
      by (apply lookup_replicate_2; exact Hi).
    destruct (a !! i) as [v |] eqn:Ha.
    + pose proof (lookup_add_both _ _ _ _ _ Hz Ha) as H1.
      pose proof (lookup_add_both _ _ _ _ _ H1 Ha) as H2.
      rewrite (lookup_toImageBuffer _ _ _ _ H1).
      rewrite (lookup_toImageBuffer _ _ _ _ H2).
      f_equal. apply repeated_byte.
      exact (Forall_lookup_1 _ a i v Hv Ha).
    + pose proof (lookup_add_short _ _ _ _ Hz Ha) as H1.
      pose proof (lookup_add_short _ _ _ _ H1 Ha) as H2.
      rewrite (lookup_toImageBuffer _ _ _ _ H1).
      rewrite (lookup_toImageBuffer _ _ _ _ H2).
      reflexivity.
  - rewrite !(proj2 (lookup_ge_None _ _)); [reflexivity | |];
      rewrite length_toImageBuffer, ?length_add;
      unfold new_Float32Array; rewrite length_replicate; exact Hi.
Qed.

(** Four samples, one of them the largest binary32 number, by the theorem of
    X10. *)
Lemma repeated_sample_keeps_display_witness :
  let a := [half32; f32 3 (-2); S754_finite false 16777215 104; f32 (-1) 0] in
  toDisplayImage (merge (merge (zero_state 4) a) a) = [127; 191; 255; 0]
  /\ toDisplayImage (merge (zero_state 4) a) = [127; 191; 255; 0].
Proof.
  intros a.
  assert (Hv : Forall (fun v => is_float32 v = true) a) by (repeat constructor).
  pose proof (repeated_sample_keeps_display 4 a Hv) as H.
  split; [rewrite H |]; reflexivity.
Defined.

(** ** What the accumulation state holds *)

(** Rounding gives a number of the format. *)
Lemma binary_round_valid (prec emax : Z) (s : bool) (m : positive) (e : Z) :
  0 < prec -> valid_binary prec emax (binary_round prec emax s m e) = true.
Proof.
  intros Hprec. unfold binary_round, shl_align.
  set (c := fexp prec emax (Zpos (digits2_pos m) + e)).
  destruct (c - e) as [| d | d] eqn:Hd.
  - apply binary_round_aux_valid; [exact Hprec | lia |].
    cbn [Zdigits2]. fold c. lia.
  - apply binary_round_aux_valid; [exact Hprec | lia |].
    cbn [Zdigits2]. fold c. lia.
  - apply binary_round_aux_valid; [exact Hprec | lia |].
    unfold shift_pos. cbn [Zdigits2].
    change (Pos.iter xO m d) with (Pos.shiftl m (N.pos d)).
    rewrite digits2_pos_shiftl.
    replace (Zpos (digits2_pos m) + Z.of_N (N.pos d) + c)
      with (Zpos (digits2_pos m) + e) by lia.
    fold c. lia.
Qed.

Lemma Float32_store_is_float32 (x : float) : is_float32 (Float32_store x) = true.
Proof.
  destruct x as [s | s | | s m e]; try reflexivity.
  apply binary_round_valid. lia.
Qed.

Lemma add_is_float32 (a b : Float32Array) :
  Forall (fun x => is_float32 x = true) (add a b).
Proof.
  apply Forall_lookup. intros i x. unfold add.
  rewrite lookup_Float32Array_map.
  destruct (a !! i) as [y |]; [| discriminate].
  intros [= <-]. apply Float32_store_is_float32.
Qed.

Lemma of_Z_is_float64 (z : Z) : is_float64 (of_Z z) = true.
Proof.
  unfold of_Z, binary_normalize.
  destruct z as [| p | p]; [reflexivity | |]; apply binary_round_valid; lia.
Qed.

(** X11: in every state reached from the fresh one, whatever was merged, the
    sum holds binary32 values in canonical form and the counter is a binary64
    number in canonical form: [add] writes every element through the rounding
    of the [Float32Array]. *)
Theorem accumulation_holds_numbers (n : nat) (samples : list Float32Array) :
  Forall (fun x => is_float32 x = true) (sum (merge_all (zero_state n) samples))
  /\ is_float64 (sampleCount (merge_all (zero_state n) samples)) = true.
Proof.
  split.
  - destruct samples as [| s samples _] using rev_ind.
    + cbn. unfold new_Float32Array. apply Forall_replicate. reflexivity.
    + unfold merge_all. rewrite foldl_app. cbn. apply add_is_float32.
  - rewrite (sampleCount_merge_all _ _ 0) by (try reflexivity; lia).
    apply of_Z_is_float64.
Qed.

(** X12: the counter [numSamples] saturates: from a counter [c] of at most
    [2^53], merging [k] buffers gives [min(c + k, 2^53)]; once it is [2^53],
    [n + 1] rounds back to [n] and no merge changes it any more. *)
Theorem sampleCount_saturates (st : AccumulationState)
    (samples : list Float32Array) (c : Z) :
  sampleCount st = of_Z c -> 0 <= c <= 2 ^ 53 ->
  sampleCount (merge_all st samples)
  = of_Z (Z.min (c + Z.of_nat (length samples)) (2 ^ 53))
  /\ (c = 2 ^ 53 -> sampleCount (merge_all st samples) = sampleCount st).
Proof.
  intros Hc Hr.
  pose proof (sampleCount_merge_all st samples c Hc Hr) as H.
  split; [exact H |]. intros ->. rewrite H, Hc. f_equal. lia.
Qed.

(** Three merges from the counter [2^53 - 1], by the theorem of X12. *)
Lemma sampleCount_saturates_witness :
  let st := {| sum := [one32]; sampleCount := of_Z (2 ^ 53 - 1) |} in
  sampleCount (merge_all st [[one32]; [one32]; [one32]]) = of_Z (2 ^ 53).
Proof.
  intros st.
  refine (proj1 (sampleCount_saturates st [[one32]; [one32]; [one32]]
                   (2 ^ 53 - 1) eq_refl _)).
  split; discriminate.
Defined.

(** ** [map] on the heap *)

(** After the loop of [map] has run from index [k] with a callback that uses
    its arguments only, the new array holds the elements of the pure map from
    [k] on. *)
Lemma map_loop_pure (callback : float -> nat -> float) (O A : loc)
    (va : Float32Array) :
  A <> O ->
  forall (n k : nat) (h : heap) (arr : Float32Array),
    h !! O = Some va -> h !! A = Some arr ->
    length arr = length va -> (k + n)%nat = length va ->
    map_loop (fun _ x i => callback x i) O A k n h !! A
    = Some (take k arr ++ drop k (Float32Array_map callback va)).
Proof.
  intros HAO. induction n as [| n IH]; intros k h arr HO HA Hlen Hk.
  - cbn [map_loop]. rewrite HA. f_equal.
    rewrite take_ge, drop_ge, app_nil_r
      by (rewrite ?length_Float32Array_map; lia).
    reflexivity.
  - cbn [map_loop].
    assert (Hk' : (k < length va)%nat) by lia.
    destruct (lookup_lt_is_Some_2 va k Hk') as [x Hx].
    assert (Hget : ToNumber (heap_get h O k) = Float32_load x).
    { unfold heap_get. rewrite HO. cbn. unfold Float32Array_get.
      rewrite Hx. reflexivity. }
    rewrite Hget.
    set (w := callback (Float32_load x) k).
    assert (Hw : Float32Array_map callback va !! k = Some (Float32_store w)).
    { rewrite lookup_Float32Array_map, Hx. reflexivity. }
    rewrite (IH (S k) (heap_set h A k w) (<[k := Float32_store w]> arr)).
    + f_equal.
      rewrite (take_S_r _ k (Float32_store w))
        by (apply list_lookup_insert_eq; lia).
      rewrite take_insert_ge by lia.
      rewrite <- app_assoc. cbn [app].
      rewrite <- (drop_S _ _ _ Hw). reflexivity.
    + rewrite heap_set_other by congruence. exact HO.
    + apply heap_set_same. exact HA.
    + rewrite length_insert. exact Hlen.
    + lia.
Qed.

(** X13: [map] with a callback that uses only the element and the index, as
    the callbacks of [toImageBuffer] and [renderImage] do, allocates a new
    array, fills it with what the pure [Float32Array_map] computes and leaves
    every array of the heap, the receiver included, as it was. *)
Theorem Float32Array_map_heap_pure (callback : float -> nat -> float)
    (O : loc) (h : heap) (va : Float32Array) :
  h !! O = Some va ->
  let result := (Float32Array_map_heap (fun _ x i => callback x i) O h).2 in
  let h' := (Float32Array_map_heap (fun _ x i => callback x i) O h).1 in
  h !! result = None
  /\ h' !! result = Some (Float32Array_map callback va)
  /\ (forall l : loc, l <> result -> h' !! l = h !! l).
Proof.
  intros HO result h'. subst result h'.
  unfold Float32Array_map_heap. cbn [fst snd].
  rewrite HO. cbn [from_option].
  set (r := fresh (dom h)).
  assert (Hfresh : h !! r = None).
  { apply not_elem_of_dom. apply is_fresh. }
  assert (HrO : r <> O) by congruence.
  split; [exact Hfresh |]. split.
  - rewrite (map_loop_pure callback O r va HrO (length va) 0
               _ (new_Float32Array (length va))).
    + rewrite take_0, drop_0. reflexivity.
    + rewrite lookup_insert_ne by congruence. exact HO.
    + apply lookup_insert_eq.
    + unfold new_Float32Array. apply length_replicate.
    + reflexivity.
  - intros l Hl. rewrite map_loop_other by exact Hl.
    apply lookup_insert_ne. congruence.
Qed.

(** The callback of [renderImage] on a heap of one array, by the theorem of
    X13. *)
Lemma Float32Array_map_heap_pure_witness :
  let h : heap := <[1%positive := [one32; half32]]> ∅ in
  let callback := fun (x : float) (_ : nat) => Math_floor (js_mul x (of_Z 255)) in
  let h' := (Float32Array_map_heap (fun _ x i => callback x i) 1%positive h).1 in
  h' !! (Float32Array_map_heap (fun _ x i => callback x i) 1%positive h).2
  = Some [f32 255 0; f32 127 0]
  /\ h' !! 1%positive = Some [one32; half32].
Proof.
  intros h callback h'.
  destruct (Float32Array_map_heap_pure callback 1%positive h [one32; half32]
              eq_refl) as (Hfresh & Hresult & Hother).
  split; [exact Hresult |].
  rewrite Hother; [reflexivity |].
  intros Heq. rewrite <- Heq in Hfresh. discriminate Hfresh.
Defined.

(** ** The effect of [App] with and without a canvas *)



(** ** Requests and results of the workers *)

Section Results.
Variable create_spectrum_image : float -> float -> Float32Array.

Abbreviation step := (step create_spectrum_image).
Abbreviation run := (run create_spectrum_image).
Abbreviation sound := (sound create_spectrum_image).
Abbreviation sound_worker := (sound_worker create_spectrum_image).
Abbreviation image_of_request := (image_of_request create_spectrum_image).

Lemma image_of_request_mono (R R' : list (float * float)) (ev : Event) :
  R ⊆ R' -> image_of_request R ev -> image_of_request R' ev.
Proof. intros HR (w & h & Hin & ->). exists w, h. split; [apply HR, Hin | reflexivity]. Qed.

Lemma sound_worker_mono (R R' : list (float * float)) (wk : Worker) :
  R ⊆ R' -> sound_worker R wk -> sound_worker R' wk.
Proof.
  intros HR (Hl & Hin & Hout). split; [exact Hl |]. split.
  - eapply Forall_impl; [exact Hin |]. intros req Hreq. apply HR, Hreq.
  - eapply Forall_impl; [exact Hout |]. intros ev Hev Hty.
    eapply image_of_request_mono; [exact HR | apply Hev, Hty].
Qed.

Lemma sound_mono (R R' : list (float * float)) (s : System) :
  R ⊆ R' -> sound R s -> sound R' s.
Proof.
  intros HR [Hw Hc]. split.
  - eapply Forall_impl; [exact Hw |]. intros wk. apply sound_worker_mono, HR.
  - eapply Forall_impl; [exact Hc |]. intros entry (ev & -> & Hev).
    exists ev. split; [reflexivity |].
    eapply image_of_request_mono; [exact HR | exact Hev].
Qed.

(** Every step keeps the invariant, for the requests made so far. *)
Lemma step_sound (R : list (float * float)) (s s' : System) (l : Label) :
  step s l s' -> sound R s -> sound (R ++ requests [l]) s'.
Proof.
  intros Hstep Hs.
  destruct Hstep as [width height s | j wk req rest s Hwk _ Hin
    | j wk s Hwk _ | j wk ev rest s Hwk Hout].
  - apply (sound_mono R (R ++ requests [call width height])) in Hs;
      [| intros x Hx; apply elem_of_app; left; exact Hx].
    destruct Hs as [Hw Hc]. split; [| exact Hc].
    cbn [callWorker workers]. apply Forall_app. split; [exact Hw |].
    apply Forall_singleton. split; [reflexivity |]. split.
    + apply Forall_singleton. apply elem_of_app. right. cbn. left.
    + apply Forall_nil_2.
  - cbn [requests omap request_of]. rewrite app_nil_r.
    destruct Hs as [Hw Hc]. split; [| exact Hc].
    cbn [workers]. apply Forall_insert; [exact Hw |].
    destruct (Forall_lookup_1 _ _ _ _ Hw Hwk) as (Hl & Hi & Ho).
    split; [exact Hl |]. rewrite Hin in Hi. apply Forall_cons in Hi as [Hreq Hi].
    split; [exact Hi |]. cbn [outbox]. apply Forall_app. split; [exact Ho |].
    destruct req as [w h]. cbn [self_onmessage snd fmap list_fmap].
    apply Forall_singleton. intros _. exists w, h. split; [exact Hreq | reflexivity].
  - cbn [requests omap request_of]. rewrite app_nil_r.
    destruct Hs as [Hw Hc]. split; [| exact Hc].
    cbn [set_worker workers]. apply Forall_insert; [exact Hw |].
    destruct (Forall_lookup_1 _ _ _ _ Hw Hwk) as (Hl & Hi & Ho).
    split; [exact Hl |]. split; [apply Forall_nil_2 |].
    cbn [outbox]. apply Forall_app. split; [exact Ho |].
    apply Forall_singleton. intros Hty. discriminate Hty.
  - cbn [requests omap request_of]. rewrite app_nil_r.
    destruct Hs as [Hw Hc].
    destruct (Forall_lookup_1 _ _ _ _ Hw Hwk) as (Hl & Hi & Ho).
    rewrite Hout in Ho. apply Forall_cons in Ho as [Hev Ho].
    split.
    + rewrite (proj1 (proj2 (dispatchEvent_frame _ _ _))).
      cbn [set_worker workers]. apply Forall_insert; [exact Hw |].
      split; [exact Hl |]. split; [exact Hi | exact Ho].
    + rewrite Hl. destruct (decide (type ev = message)) as [Hty | Hty].
      * rewrite dispatchEvent_message by exact Hty. cbn [console set_worker].
        apply Forall_app. split; [exact Hc |].
        apply Forall_singleton. exists ev. split; [reflexivity | apply Hev, Hty].
      * rewrite dispatchEvent_not_message by exact Hty. exact Hc.
Qed.

Lemma run_sound (R : list (float * float)) (s s' : System) (tr : list Label) :
  run s tr s' -> sound R s -> sound (R ++ requests tr) s'.
Proof.
  intros Hrun. revert R.
  induction Hrun as [s | s s' s'' l tr Hstep _ IH]; intros R Hs.
  - cbn. rewrite app_nil_r. exact Hs.
  - apply (step_sound R) in Hstep; [| exact Hs].
    apply IH in Hstep. rewrite <- app_assoc in Hstep.
    replace (requests (l :: tr)) with (requests [l] ++ requests tr)
      by (unfold requests; cbn; destruct (request_of l); reflexivity).
    exact Hstep.
Qed.

Lemma unhandled_insert (i j : nat) (wk wk' : Worker) (s s' : System) :
  workers s !! j = Some wk ->
  workers s' = <[j := wk']> (workers s) ->
  unhandled i s' = if decide (i = j) then length (inbox wk') else unhandled i s.
Proof.
  intros Hwk Hws. unfold unhandled. rewrite Hws.
  destruct (decide (i = j)) as [-> | Hne].
  - rewrite list_lookup_insert_eq by (eapply lookup_lt_Some; exact Hwk).
    reflexivity.
  - rewrite list_lookup_insert_ne by congruence. reflexivity.
Qed.

Lemma unhandled_callWorker (i : nat) (width height : float) (s : System) :
  unhandled i (callWorker width height s) = unhandled i s.
Proof.
  unfold unhandled. cbn [callWorker workers].
  destruct (Nat.lt_total i (length (workers s))) as [Hlt | [-> | Hgt]].
  - rewrite lookup_app_l by exact Hlt. reflexivity.
  - rewrite list_lookup_middle by reflexivity.
    rewrite (proj2 (lookup_ge_None (workers s) _)) by lia. reflexivity.
  - rewrite !(proj2 (lookup_ge_None _ _)); [reflexivity | lia |].
    rewrite length_app. cbn. lia.
Qed.

Lemma step_unhandled (i : nat) (s s' : System) (l : Label) :
  step s l s' ->
  ((if is_render_of i l then 1 else 0) + unhandled i s' <= unhandled i s)%nat.
Proof.
  intros Hstep. destruct Hstep as [width height s | j wk req rest s Hwk _ Hin
    | j wk s Hwk _ | j wk ev rest s Hwk Hout]; cbn [is_render_of].
  - rewrite unhandled_callWorker. lia.
  - erewrite unhandled_insert by (try exact Hwk; reflexivity).
    destruct (decide (i = j)) as [-> | Hne].
    + rewrite bool_decide_eq_true_2 by reflexivity.
      unfold unhandled. rewrite Hwk. cbn [from_option inbox]. rewrite Hin.
      cbn. lia.
    + rewrite bool_decide_eq_false_2 by congruence. lia.
  - erewrite unhandled_insert by (try exact Hwk; reflexivity).
    destruct (decide (i = j)) as [-> | _]; [| lia].
    unfold unhandled. rewrite Hwk. cbn. lia.
  - erewrite unhandled_insert
      by (try exact Hwk; rewrite (proj1 (proj2 (dispatchEvent_frame _ _ _)));
          reflexivity).
    destruct (decide (i = j)) as [-> | _]; [| lia].
    unfold unhandled. rewrite Hwk. cbn. lia.
Qed.

Lemma run_unhandled (i : nat) (s s' : System) (tr : list Label) :
  run s tr s' -> (renders_of i tr + unhandled i s' <= unhandled i s)%nat.
Proof.
  induction 1 as [s | s s' s'' l tr Hstep _ IH]; [cbn; lia |].
  pose proof (step_unhandled i s s' l Hstep) as Hb.
  unfold renders_of in *. cbn [List.filter].
  destruct (is_render_of i l); cbn [length]; lia.
Qed.
End Results.


Lemma sum_list_insert (l : list nat) (i x y : nat) :
  l !! i = Some x -> (sum_list (<[i := y]> l) + x = sum_list l + y)%nat.
Proof.
  revert i. induction l as [| z l IH]; intros [| i] Hi; try discriminate.
  - injection Hi as ->. simpl. lia.
  - simpl in Hi |- *. specialize (IH i Hi). lia.
Qed.

Lemma in_flight_insert (ws : list Worker) (i : nat) (wk wk' : Worker) :
  ws !! i = Some wk ->
  (sum_list (pending <$> <[i := wk']> ws) + pending wk
   = sum_list (pending <$> ws) + pending wk')%nat.
Proof.
  intros Hwk. rewrite list_fmap_insert.
  apply sum_list_insert. rewrite list_lookup_fmap, Hwk. reflexivity.
Qed.

Section Count.
Variable create_spectrum_image : float -> float -> Float32Array.

(** A step adds to the console and to what is in flight at most the request
    that it makes. *)
Lemma step_in_flight (R : list (float * float)) (s s' : System) (l : Label) :
  step create_spectrum_image s l s' ->
  sound create_spectrum_image R s ->
  (length (console s') + in_flight s'
   <= length (console s) + in_flight s + length (requests [l]))%nat.
Proof.
  intros Hstep [Hw _].
  destruct Hstep as [width height s | j wk req rest s Hwk _ Hin
    | j wk s Hwk _ | j wk ev rest s Hwk Hout].
  - unfold in_flight. cbn [callWorker workers console].
    rewrite fmap_app, sum_list_with_app. cbn. lia.
  - unfold in_flight. cbn [console workers]. destruct req as [w h].
    cbn [self_onmessage snd fmap list_fmap].
    change (length (requests [work j])) with 0%nat.
    match goal with
    | |- context [<[j := ?wk']> (workers s)] =>
        pose proof (in_flight_insert (workers s) j wk wk' Hwk) as Hf
    end.
    unfold pending at 2 4 in Hf. cbn [inbox outbox] in Hf.
    rewrite Hin in Hf. rewrite pending_message in Hf.
    change (is_message (message_event _)) with true in Hf.
    cbn [length] in Hf. lia.
  - unfold in_flight. cbn [set_worker console workers].
    change (length (requests [lost j])) with 0%nat.
    match goal with
    | |- context [<[j := ?wk']> (workers s)] =>
        pose proof (in_flight_insert (workers s) j wk wk' Hwk) as Hf
    end.
    unfold pending at 2 4 in Hf. cbn [inbox outbox] in Hf.
    rewrite pending_message in Hf.
    change (is_message error_event) with false in Hf.
    cbn [length] in Hf. lia.
  - destruct (Forall_lookup_1 _ _ _ _ Hw Hwk) as (Hl & _ & _).
    unfold in_flight.
    rewrite (proj1 (proj2 (dispatchEvent_frame _ _ _))).
    cbn [set_worker workers].
    change (length (requests [deliver j ev])) with 0%nat.
    match goal with
    | |- context [<[j := ?wk']> (workers s)] =>
        pose proof (in_flight_insert (workers s) j wk wk' Hwk) as Hf
    end.
    unfold pending at 2 4 in Hf. cbn [inbox outbox] in Hf.
    rewrite Hout in Hf. cbn [List.filter] in Hf.
    rewrite Hl in Hf |- *. unfold is_message in Hf.
    destruct (decide (type ev = message)) as [Hty | Hty].
    + rewrite dispatchEvent_message by exact Hty.
      rewrite bool_decide_eq_true_2 in Hf by exact Hty.
      cbn [console set_worker]. rewrite length_app. cbn [length] in *. lia.
    + rewrite dispatchEvent_not_message by exact Hty.
      rewrite bool_decide_eq_false_2 in Hf by exact Hty.
      cbn [console set_worker length] in *. lia.
Qed.

Lemma run_in_flight (R : list (float * float)) (s s' : System) (tr : list Label) :
  run create_spectrum_image s tr s' ->
  sound create_spectrum_image R s ->
  (length (console s') + in_flight s'
   <= length (console s) + in_flight s + length (requests tr))%nat.
Proof.
  intros Hrun. revert R.
  induction Hrun as [s | s s' s'' l tr Hstep _ IH]; intros R Hs.
  - cbn. lia.
  - pose proof (step_in_flight R s s' l Hstep Hs) as H1.
    pose proof (IH _ (step_sound create_spectrum_image R s s' l Hstep Hs)) as H2.
    replace (requests (l :: tr)) with (requests [l] ++ requests tr)
      by (unfold requests; cbn; destruct (request_of l); reflexivity).
    rewrite length_app. lia.
Qed.
End Count.


(** X16: whatever the main context logs is a requested image: in every run
    from a state without workers and with an empty console, each console entry
    is a [message] event that carries [renderImage(w, h)] for a request
    [(w, h)] that some call of [callWorker] made in that run. *)
Theorem logged_results_are_requested_images
    (create_spectrum_image : float -> float -> Float32Array)
    (s s' : System) (tr : list Label) :
  workers s = [] -> console s = [] ->
  run create_spectrum_image s tr s' ->
  Forall (fun entry =>
            exists w h : float,
              (w, h) ∈ requests tr
              /\ entry = LogEvent
                   (message_event (renderImage create_spectrum_image w h)))
    (console s').
Proof.
  intros Hw Hc Hrun.
  assert (Hs : sound create_spectrum_image [] s).
  { split; [rewrite Hw | rewrite Hc]; apply Forall_nil_2. }
  destruct (run_sound create_spectrum_image [] s s' tr Hrun Hs) as [_ Hcon].
  eapply Forall_impl; [exact Hcon |].
  intros entry (ev & -> & w & h & Hin & ->). exists w, h. split; [exact Hin | reflexivity].
Qed.

(** A completed request of the mounted [App], by the theorem of X16. *)
Lemma logged_results_are_requested_images_witness :
  let csi := fun _ _ : float => [half32; half32; half32; half32] in
  exists s : System,
    console s = [LogEvent (message_event [127; 127; 127; 127])]
    /\ Forall (fun entry =>
                 exists w h : float,
                   (w, h) ∈ [(of_Z 1, of_Z 1)]
                   /\ entry = LogEvent (message_event (renderImage csi w h)))
         (console s).
Proof.
  intros csi. eexists. split; [| 
  apply (logged_results_are_requested_images csi (App_worker_initial 1 1) _
           [call (of_Z 1) (of_Z 1); work 0;
            deliver 0 (message_event (renderImage csi (of_Z 1) (of_Z 1)))]
           eq_refl eq_refl);
  eapply run_cons; [apply step_call |];
  apply (run_completed csi (of_Z 1) (of_Z 1) (App_worker_initial 1 1))].
  reflexivity.
Defined.


(** X17: the main context never holds more results than requests were made:
    in every run from a state without workers and with an empty console, the
    logged results together with the requests and results still under way are
    at most the calls of [callWorker] in that run. *)
Theorem logged_results_at_most_requests
    (create_spectrum_image : float -> float -> Float32Array)
    (s s' : System) (tr : list Label) :
  workers s = [] -> console s = [] ->
  run create_spectrum_image s tr s' ->
  (length (console s') + in_flight s' <= length (requests tr))%nat.
Proof.
  intros Hw Hc Hrun.
  assert (Hs : sound create_spectrum_image [] s).
  { split; [rewrite Hw | rewrite Hc]; apply Forall_nil_2. }
  pose proof (run_in_flight create_spectrum_image [] s s' tr Hrun Hs) as H.
  unfold in_flight at 2 in H. rewrite Hw, Hc in H. cbn in H. exact H.
Qed.

(** A completed request of the mounted [App], by the theorem of X17. *)
Lemma logged_results_at_most_requests_witness :
  let csi := fun _ _ : float => [half32; half32; half32; half32] in
  exists s : System,
    console s = [LogEvent (message_event [127; 127; 127; 127])]
    /\ (length (console s) + in_flight s <= 1)%nat.
Proof.
  intros csi. eexists. split; [|
  apply (logged_results_at_most_requests csi (App_worker_initial 1 1) _
           [call (of_Z 1) (of_Z 1); work 0;
            deliver 0 (message_event (renderImage csi (of_Z 1) (of_Z 1)))]
           eq_refl eq_refl);
  eapply run_cons; [apply step_call |];
  apply (run_completed csi (of_Z 1) (of_Z 1) (App_worker_initial 1 1))].
  reflexivity.
Defined.


(** X18: a worker renders at most once: [callWorker] posts one request to
    the worker it creates and [self.onmessage] consumes it, so no run handles
    more than one request on any worker. *)
Theorem worker_renders_at_most_once
    (create_spectrum_image : float -> float -> Float32Array)
    (s s' : System) (tr : list Label) (i : nat) :
  workers s = [] ->
  run create_spectrum_image s tr s' ->
  (renders_of i tr <= 1)%nat.
Proof.
  intros Hs Hrun.
  pose proof (run_unhandled create_spectrum_image i s s' tr Hrun) as Hb.
  assert (Hone : unhandled i s = 1%nat)
    by (unfold unhandled; rewrite Hs, lookup_nil; reflexivity).
  lia.
Qed.

(** A completed request of the mounted [App], by the theorem of X18. *)
Lemma worker_renders_at_most_once_witness :
  let csi := fun _ _ : float => [half32; half32; half32; half32] in
  (renders_of 0
     [call (of_Z 1) (of_Z 1); work 0;
      deliver 0 (message_event (renderImage csi (of_Z 1) (of_Z 1)))] <= 1)%nat.
Proof.
  intros csi.
  refine (worker_renders_at_most_once csi (App_worker_initial 1 1) _ _ 0%nat
            eq_refl _).
  eapply run_cons; [apply step_call |].
  apply (run_completed csi (of_Z 1) (of_Z 1) (App_worker_initial 1 1)).
Defined.

(** * The order of merges: how close the sums are *)

(** ** Dyadic rationals *)

Lemma float_value_finite (s : bool) (m : positive) (e : Z) :
  float_value (S754_finite s m e) = Some (dyadic (cond_Zopp s (Zpos m)) e).
Proof. reflexivity. Qed.

Lemma Qpower_2_pos (e : Z) : (0 < Qpower 2 e)%Q.
Proof. apply Qpower_0_lt. reflexivity. Qed.

Lemma dyadic_shift (a e k : Z) :
  0 <= k -> (dyadic (a * 2 ^ k) (e - k) == dyadic a e)%Q.
Proof.
  intros Hk. unfold dyadic.
  replace e with ((e - k) + k) at 2 by lia.
  rewrite Qpower_plus by discriminate.
  rewrite inject_Z_mult, (Zpower_Qpower 2 k Hk).
  change (inject_Z 2) with 2%Q. ring.
Qed.

Lemma dyadic_plus (a b e : Z) :
  (dyadic a e + dyadic b e == dyadic (a + b) e)%Q.
Proof. unfold dyadic. rewrite inject_Z_plus. ring. Qed.

Lemma dyadic_opp (a e : Z) : (- dyadic a e == dyadic (- a) e)%Q.
Proof. unfold dyadic. rewrite inject_Z_opp. ring. Qed.

Lemma dyadic_minus (a b e : Z) :
  (dyadic a e - dyadic b e == dyadic (a - b) e)%Q.
Proof. unfold dyadic, Z.sub. rewrite inject_Z_plus, inject_Z_opp. ring. Qed.

Lemma dyadic_le (a b e : Z) : a <= b -> (dyadic a e <= dyadic b e)%Q.
Proof.
  intros Hab. unfold dyadic. apply Qmult_le_compat_r.
  - rewrite <- Zle_Qle. exact Hab.
  - apply Qlt_le_weak, Qpower_2_pos.
Qed.

Lemma dyadic_abs (a e : Z) : (Qabs (dyadic a e) == dyadic (Z.abs a) e)%Q.
Proof.
  unfold dyadic. rewrite Qabs_Qmult.
  rewrite (Qabs_pos (Qpower 2 e)) by (apply Qlt_le_weak, Qpower_2_pos).
  apply Qmult_comp; [| reflexivity].
  destruct a as [| p | p]; reflexivity.
Qed.

Lemma dyadic_0 (e : Z) : (dyadic 0 e == 0)%Q.
Proof. unfold dyadic. ring. Qed.

(** [2^-k · a·2^e = a·2^(e-k)] *)
Lemma dyadic_scale (a e k : Z) :
  (Qpower 2 (- k) * dyadic a e == dyadic a (e - k))%Q.
Proof.
  unfold dyadic, Z.sub. rewrite (Qpower_plus 2 e (- k)) by discriminate. ring.
Qed.

(** ** The error of one rounding *)

Lemma shifted_0 (m : Z) :
  0 <= m -> shifted m 0 {| shr_m := m; shr_r := false; shr_s := false |}.
Proof. intros Hm. unfold shifted. cbn. lia. Qed.

Lemma shifted_shr_1 (m k : Z) (r : shr_record) :
  0 <= k -> shifted m k r -> shifted m (k + 1) (shr_1 r).
Proof.
  intros Hk (Hq & Hrem & Hloc). unfold shifted in *.
  rewrite Z.pow_add_r, Z.pow_1_r by lia.
  assert (Hp : 0 < 2 ^ k) by (apply Z.pow_pos_nonneg; lia).
  set (P := 2 ^ k) in *. clearbody P.
  destruct r as [q b s]. cbn [shr_m] in *.
  destruct q as [| [p | p |] | p]; try lia;
    destruct b, s; cbn [shr_1 shr_m loc_of_shr_record orb] in *; lia.
Qed.

Lemma shifted_iter (m k : Z) (p : positive) (r : shr_record) :
  0 <= k -> shifted m k r ->
  shifted m (k + Zpos p) (SpecFloat.iter_pos shr_1 p r).
Proof.
  intros Hk Hr. rewrite iter_pos_iter.
  induction p as [| p IH] using Pos.peano_ind.
  - cbn [Pos.iter]. apply shifted_shr_1; assumption.
  - rewrite Pos.iter_succ, Pos2Z.inj_succ.
    replace (k + Z.succ (Zpos p)) with (k + Zpos p + 1) by lia.
    apply shifted_shr_1; [lia | exact IH].
Qed.

Lemma shifted_shr (m e n : Z) :
  0 <= m -> 0 <= n ->
  shifted m n (fst (shr {| shr_m := m; shr_r := false; shr_s := false |} e n)).
Proof.
  intros Hm Hn. destruct n as [| p | p]; try lia; cbn [shr fst].
  - apply shifted_0. exact Hm.
  - apply (shifted_iter m 0 p); [lia | apply shifted_0; exact Hm].
Qed.

(** Rounding the shifted mantissa to the nearest: the error is at most one
    half of the last place, and none if no nonzero bit was dropped. *)
Lemma round_shifted (m k : Z) (r : shr_record) :
  0 <= k -> shifted m k r ->
  let m1 := round_nearest_even (shr_m r) (loc_of_shr_record r) in
  shr_m r <= m1 <= shr_m r + 1
  /\ Z.abs (2 * (m1 * 2 ^ k) - 2 * m) <= 2 ^ k
  /\ (m mod 2 ^ k = 0 -> m1 * 2 ^ k = m).
Proof.
  intros Hk (Hq & Hrem & Hloc) m1.
  assert (Hp : 0 < 2 ^ k) by (apply Z.pow_pos_nonneg; lia).
  assert (Hmod : m mod 2 ^ k = m - shr_m r * 2 ^ k).
  { symmetry. apply (Z.mod_unique_pos m (2 ^ k) (shr_m r)); lia. }
  rewrite Hmod. subst m1.
  set (P := 2 ^ k) in *. clearbody P.
  set (q := shr_m r) in *. clearbody q.
  destruct (loc_of_shr_record r) as [| []]; cbn [round_nearest_even];
    try destruct (Z.even q); lia.
Qed.

Lemma Zdigits2_succ_pow2 (q : Z) :
  0 <= q -> Zdigits2 (q + 1) = Zdigits2 q + 1 -> q + 1 = 2 ^ Zdigits2 q.
Proof.
  intros Hq Hd. destruct (Z.eq_dec q 0) as [-> | Hnz]; [reflexivity |].
  pose proof (Zdigits2_bounds q ltac:(lia)) as [_ Hhi].
  pose proof (Zdigits2_bounds (q + 1) ltac:(lia)) as [Hlo _].
  rewrite Hd in Hlo. replace (Zdigits2 q + 1 - 1) with (Zdigits2 q) in Hlo by lia.
  lia.
Qed.

Section RoundingError.
Variables prec emax : Z.
Hypothesis prec_pos : 0 < prec.

(** What [binary_round_aux] returns for a mantissa that has at least the
    digits of the format: the rounded mantissa [m1] at the exponent [c] of
    the format, within one half of the last place of [m], and [m] itself
    where no nonzero bit is dropped. *)
Lemma binary_round_aux_error (s : bool) (m e : Z) :
  0 < m ->
  let c := fexp prec emax (Zdigits2 m + e) in
  e <= c ->
  exists m1 : Z,
    Z.shiftr m (c - e) <= m1
    /\ Z.abs (2 * (m1 * 2 ^ (c - e)) - 2 * m) <= 2 ^ (c - e)
    /\ (m mod 2 ^ (c - e) = 0 -> m1 * 2 ^ (c - e) = m)
    /\ match binary_round_aux prec emax s m e loc_Exact with
       | S754_zero s' => s' = s /\ m1 = 0
       | S754_finite s' m2 e2 =>
           s' = s /\ c <= e2 /\ Zpos m2 * 2 ^ (e2 - c) = m1
       | S754_infinity s' => s' = s /\ 0 < m1
       | S754_nan => False
       end.
Proof.
  intros Hm c He. unfold binary_round_aux, shr_fexp at 1.
  set (D := Zdigits2 m) in *. fold c.
  cbn [shr_record_of_loc].
  pose proof (shr_spec {| shr_m := m; shr_r := false; shr_s := false |} e (c - e))
    as Hshr.
  cbn [shr_m] in Hshr.
  destruct (Hshr ltac:(lia) ltac:(lia)) as [Hsnd Hfst]. clear Hshr.
  pose proof (shifted_shr m e (c - e) ltac:(lia) ltac:(lia)) as Hsh.
  destruct (shr {| shr_m := m; shr_r := false; shr_s := false |} e (c - e))
    as [r1 e1'].
  cbn [fst snd] in Hsnd, Hfst, Hsh.
  assert (He1 : e1' = c) by lia. clear Hsnd. subst e1'.
  destruct (round_shifted m (c - e) r1 ltac:(lia) Hsh) as (Hm1 & Herr & Hexact).
  set (q := shr_m r1) in *.
  set (m1 := round_nearest_even q (loc_of_shr_record r1)) in *.
  assert (Hq : 0 <= q) by (rewrite Hfst; apply Z.shiftr_nonneg; lia).
  assert (Hdq : Zdigits2 q = Z.max 0 (D - (c - e)))
    by (rewrite Hfst; apply Zdigits2_shiftr; lia).
  assert (Hd1 : Zdigits2 q <= Zdigits2 m1 <= Zdigits2 q + 1).
  { split; [apply Zdigits2_le; lia |].
    transitivity (Zdigits2 (q + 1)); [apply Zdigits2_le; lia |].
    apply Zdigits2_succ; exact Hq. }
  pose proof (Zdigits2_nonneg m) as HD. fold D in HD.
  assert (HDpos : 0 < D).
  { pose proof (Zdigits2_0 m ltac:(lia)). unfold D. lia. }
  exists m1. split; [rewrite <- Hfst; lia |]. split; [exact Herr |].
  split; [exact Hexact |].
  unfold shr_fexp. cbn [shr_record_of_loc].
  set (d1 := Zdigits2 m1) in *.
  set (n2 := fexp prec emax (d1 + c) - c).
  assert (A : 0 <= n2 <= 1 /\ (n2 = 1 -> m1 = 2 * (m1 / 2) /\ 0 < m1)).
  { assert (B : 0 <= n2 <= 1 /\ (n2 = 1 -> d1 = Zdigits2 q + 1 /\ 1 <= Zdigits2 q)).
    { unfold n2, c, fexp in *. fold (emin prec emax) in *.
      set (emin' := emin prec emax) in *. clearbody emin'.
      destruct (Z.le_gt_cases (D - (Z.max (D + e - prec) emin' - e)) 0)
        as [Hsmall | Hbig]; lia. }
    destruct B as [B1 B2]. split; [exact B1 |]. intros Hn2.
    destruct (B2 Hn2) as [Hd1' Hdq1].
    assert (Hm1q : m1 = q + 1).
    { destruct (Z.eq_dec m1 q) as [Heq | Hne]; [| lia].
      unfold d1 in Hd1'. rewrite Heq in Hd1'. lia. }
    pose proof (Zdigits2_succ_pow2 q Hq) as Hpow.
    rewrite <- Hm1q in Hpow. specialize (Hpow Hd1').
    assert (Hev : 2 ^ Zdigits2 q = 2 * 2 ^ (Zdigits2 q - 1)).
    { rewrite <- Z.pow_succ_r by lia. f_equal. lia. }
    rewrite Hpow, Hev.
    rewrite (Z.mul_comm 2), Z.div_mul by lia.
    assert (0 < 2 ^ (Zdigits2 q - 1)) by (apply Z.pow_pos_nonneg; lia).
    lia. }
  destruct A as [Hn2 Heven].
  pose proof (shr_spec {| shr_m := m1; shr_r := false; shr_s := false |} c n2)
    as Hshr2.
  cbn [shr_m] in Hshr2.
  destruct (Hshr2 ltac:(lia) ltac:(lia)) as [Hsnd2 Hfst2]. clear Hshr2.
  fold n2.
  destruct (shr {| shr_m := m1; shr_r := false; shr_s := false |} c n2)
    as [r2 e2].
  cbn [fst snd] in Hsnd2, Hfst2.
  assert (Hm2 : shr_m r2 * 2 ^ (e2 - c) = m1).
  { rewrite Hfst2, Hsnd2. replace (c + n2 - c) with n2 by lia.
    rewrite Z.shiftr_div_pow2 by lia.
    destruct (Z.eq_dec n2 0) as [-> | Hn2'].
    - rewrite Z.pow_0_r, Z.div_1_r. lia.
    - assert (Hone : n2 = 1) by lia. destruct (Heven Hone) as [Hev _].
      rewrite Hone, Z.pow_1_r. lia. }
  destruct (shr_m r2) as [| p | p] eqn:Hr2.
  - split; [reflexivity | lia].
  - destruct (Z.leb_spec e2 (emax - prec)).
    + split; [reflexivity |]. split; [lia | exact Hm2].
    + split; [reflexivity |].
      assert (0 < 2 ^ (e2 - c)) by (apply Z.pow_pos_nonneg; lia). nia.
  - assert (0 <= Z.shiftr m1 n2) by (apply Z.shiftr_nonneg; lia). lia.
Qed.
End RoundingError.

Lemma pow2_divide (a b : Z) : 0 <= a <= b -> (2 ^ a | 2 ^ b).
Proof.
  intros [Ha Hab]. exists (2 ^ (b - a)).
  rewrite <- Z.pow_add_r by lia. f_equal. lia.
Qed.

Lemma on_grid_shiftl (g : Z) (m : positive) (e : Z) (j : N) :
  on_grid g m e -> on_grid g (Pos.shiftl m j) (e - Z.of_N j).
Proof.
  unfold on_grid. intros [k Hk]. rewrite Zpos_shiftl.
  destruct (Z.le_gt_cases (g - e) 0) as [Hle | Hgt].
  - apply Z.divide_mul_r. apply pow2_divide. lia.
  - rewrite Z.max_r in Hk by lia. rewrite Hk, Z.max_r by lia.
    replace (g - (e - Z.of_N j)) with (g - e + Z.of_N j) by lia.
    rewrite Z.pow_add_r by lia. exists k. ring.
Qed.

(** Cancelling a power of two in a divisibility. *)
Lemma pow2_divide_cancel (a b x y : Z) :
  0 <= b < a -> 0 < y -> x * 2 ^ b = y -> (2 ^ a | y) -> (2 ^ (a - b) | x).
Proof.
  intros Hab Hy Hx [k Hk]. exists k.
  assert (Hp : 0 < 2 ^ b) by (apply Z.pow_pos_nonneg; lia).
  apply (Z.mul_reg_r _ _ (2 ^ b)); [lia |].
  rewrite Hx, Hk, <- Z.mul_assoc, <- Z.pow_add_r by lia.
  do 2 f_equal. lia.
Qed.

Lemma shiftr_lower (m n : Z) :
  0 < m -> 0 <= n -> n < Zdigits2 m -> 2 ^ (Zdigits2 m - 1 - n) <= Z.shiftr m n.
Proof.
  intros Hm Hn Hd. rewrite Z.shiftr_div_pow2 by exact Hn.
  pose proof (Zdigits2_bounds m Hm) as [Hlo _].
  assert (Hp : 0 < 2 ^ n) by (apply Z.pow_pos_nonneg; lia).
  apply Z.div_le_lower_bound; [exact Hp |].
  rewrite <- Z.pow_add_r by lia.
  replace (n + (Zdigits2 m - 1 - n)) with (Zdigits2 m - 1) by lia. exact Hlo.
Qed.

Section Grid.
Variables prec emax : Z.
Hypothesis prec_pos : 0 < prec.

Lemma dyadic_bound_nonneg (m : positive) (e : Z) :
  (0 <= Qpower 2 (- prec) * dyadic (Zpos m) e)%Q.
Proof.
  apply Qmult_le_0_compat; [apply Qlt_le_weak, Qpower_2_pos |].
  unfold dyadic. apply Qmult_le_0_compat;
    [rewrite <- (Zle_Qle 0); lia | apply Qlt_le_weak, Qpower_2_pos].
Qed.

(** Rounding a mantissa with at least the digits of the format, whose value
    lies on a grid that the format has: the result is not zero, lies on the
    grid, and differs from the value by at most [2^-prec] of it. *)
Lemma binary_round_aux_grid (s : bool) (m : positive) (e g : Z) :
  emin prec emax <= g -> on_grid g m e ->
  e <= fexp prec emax (Zpos (digits2_pos m) + e) ->
  match binary_round_aux prec emax s (Zpos m) e loc_Exact with
  | S754_finite s' m' e' =>
      s' = s /\ on_grid g m' e'
      /\ (Qabs (dyadic (Zpos m') e' - dyadic (Zpos m) e)
          <= Qpower 2 (- prec) * dyadic (Zpos m) e)%Q
  | S754_infinity s' => s' = s
  | _ => False
  end.
Proof.
  intros Hg Hgrid Hce.
  pose proof (Pos2Z.is_pos (digits2_pos m)) as HDpos.
  pose proof (binary_round_aux_error prec emax prec_pos s (Zpos m) e
                ltac:(lia)) as Herr.
  cbn [Zdigits2] in Herr.
  set (c := fexp prec emax (Zpos (digits2_pos m) + e)) in *.
  specialize (Herr Hce). destruct Herr as (m1 & Hq & Herr & Hexact & Hres).
  set (n := c - e) in *.
  assert (Hn : 0 <= n) by (unfold n; lia).
  assert (Hpn : 0 < 2 ^ n) by (apply Z.pow_pos_nonneg; lia).
  assert (Hgexact : c <= g -> m1 * 2 ^ n = Zpos m).
  { intros Hcg. apply Hexact, Z.mod_divide; [lia |].
    destruct Hgrid as [k Hk]. rewrite Z.max_r in Hk by lia.
    exists (k * 2 ^ (g - e - n)).
    rewrite <- Z.mul_assoc, <- Z.pow_add_r by lia.
    rewrite Hk. do 2 f_equal. lia. }
  assert (Hfacts : 0 < m1 /\ Z.abs (m1 * 2 ^ n - Zpos m) * 2 ^ prec <= Zpos m).
  { destruct (Z.le_gt_cases (emin prec emax)
                (Zpos (digits2_pos m) + e - prec)) as [Hnorm | Hsub].
    - assert (Hnd : n = Zpos (digits2_pos m) - prec)
        by (unfold n, c, fexp; lia).
      pose proof (shiftr_lower (Zpos m) n ltac:(lia) Hn
                    ltac:(cbn [Zdigits2]; lia)) as Hlow.
      cbn [Zdigits2] in Hlow.
      assert (0 < 2 ^ (Zpos (digits2_pos m) - 1 - n))
        by (apply Z.pow_pos_nonneg; lia).
      split; [lia |].
      destruct (Z.eq_dec n 0) as [Hn0 | Hn0].
      + rewrite Hn0, Z.pow_0_r in *.
        assert (Hm1 : m1 = Zpos m) by lia.
        rewrite Hm1, Z.mul_1_r, Z.sub_diag. cbn. lia.
      + pose proof (digits2_pos_bounds m) as [Hlo _].
        assert (H2n : 2 ^ n = 2 * 2 ^ (n - 1))
          by (rewrite <- Z.pow_succ_r by lia; f_equal; lia).
        assert (Hpp : 2 ^ (n - 1) * 2 ^ prec = 2 ^ (Zpos (digits2_pos m) - 1))
          by (rewrite <- Z.pow_add_r by lia; f_equal; lia).
        assert (0 < 2 ^ prec) by (apply Z.pow_pos_nonneg; lia).
        assert (0 < 2 ^ (n - 1)) by (apply Z.pow_pos_nonneg; lia).
        nia.
    - assert (Hex : m1 * 2 ^ n = Zpos m)
        by (apply Hgexact; unfold c, fexp; lia).
      split; [nia |]. rewrite Hex, Z.sub_diag. cbn. lia. }
  destruct Hfacts as [Hm1 Hrel].
  destruct (binary_round_aux prec emax s (Zpos m) e loc_Exact)
    as [s' | s' | | s' m2 e2].
  - lia.
  - tauto.
  - exact Hres.
  - destruct Hres as (Hs & Hce2 & Hm2). split; [exact Hs |]. split.
    + unfold on_grid. destruct (Z.le_gt_cases g e2) as [Hle | Hgt].
      * rewrite Z.max_l by lia. apply Z.divide_1_l.
      * rewrite Z.max_r by lia.
        replace (g - e2) with (g - e - (e2 - e)) by lia.
        apply (pow2_divide_cancel (g - e) (e2 - e) (Zpos m2) (Zpos m)).
        -- lia.
        -- lia.
        -- rewrite <- (Hgexact ltac:(lia)), <- Hm2, <- Z.mul_assoc,
             <- Z.pow_add_r by lia.
           do 2 f_equal. unfold n. lia.
        -- destruct Hgrid as [k Hk]. rewrite Z.max_r in Hk by lia.
           exists k. exact Hk.
    + assert (Hval : (dyadic (Zpos m2) e2 == dyadic (m1 * 2 ^ n) e)%Q).
      { rewrite <- (dyadic_shift (Zpos m2) e2 (e2 - c)) by lia.
        rewrite Hm2. replace (e2 - (e2 - c)) with c by lia.
        rewrite <- (dyadic_shift m1 c n) by lia.
        replace (c - n) with e by (unfold n; lia). reflexivity. }
      rewrite Hval, dyadic_minus, dyadic_abs, dyadic_scale.
      rewrite <- (dyadic_shift _ e prec) by lia.
      apply dyadic_le. exact Hrel.
Qed.

(** The same for [binary_round], which first gives the mantissa the digits
    of the format. *)
Lemma binary_round_grid (s : bool) (m : positive) (e g : Z) :
  emin prec emax <= g -> on_grid g m e ->
  match binary_round prec emax s m e with
  | S754_finite s' m' e' =>
      s' = s /\ on_grid g m' e'
      /\ (Qabs (dyadic (Zpos m') e' - dyadic (Zpos m) e)
          <= Qpower 2 (- prec) * dyadic (Zpos m) e)%Q
  | S754_infinity s' => s' = s
  | _ => False
  end.
Proof.
  intros Hg Hgrid.
  destruct (Z.lt_ge_cases (fexp prec emax (Zpos (digits2_pos m) + e)) e)
    as [Hlt | Hce].
  - unfold binary_round, shl_align.
    set (c := fexp prec emax (Zpos (digits2_pos m) + e)) in *.
    destruct (c - e) as [| d | d] eqn:Hd; try lia.
    change (Pos.iter xO m d) with (Pos.shiftl m (N.pos d)).
    rewrite (binary_round_aux_exact prec emax s m (N.pos d) 0%N c)
      by (try lia;
          replace (Zpos (digits2_pos m) + Z.of_N (N.pos d) + c)
            with (Zpos (digits2_pos m) + e) by lia;
          fold c; lia).
    rewrite N.sub_0_r. replace (c + Z.of_N 0) with c by lia.
    destruct (Z.leb_spec c (emax - prec)); [| reflexivity].
    split; [reflexivity |]. split.
    + replace c with (e - Z.of_N (N.pos d)) by lia.
      apply on_grid_shiftl. exact Hgrid.
    + rewrite Zpos_shiftl.
      replace c with (e - Z.of_N (N.pos d)) by lia.
      rewrite dyadic_shift by lia.
      assert (E : (dyadic (Zpos m) e - dyadic (Zpos m) e == 0)%Q) by ring.
      rewrite E. apply dyadic_bound_nonneg.
  - pose proof (binary_round_aux_grid s m e g Hg Hgrid Hce) as H.
    unfold binary_round, shl_align.
    set (c := fexp prec emax (Zpos (digits2_pos m) + e)) in *.
    destruct (c - e) as [| d | d] eqn:Hd; try lia; exact H.
Qed.
End Grid.

(** ** The error of one addition of [add] *)

Lemma dyadic_cond_Zopp (s : bool) (a e : Z) :
  (dyadic (cond_Zopp s a) e == if s then - dyadic a e else dyadic a e)%Q.
Proof. destruct s; cbn [cond_Zopp]; [symmetry; apply dyadic_opp | reflexivity]. Qed.

(** The signed form of [binary_round_grid]. *)
Lemma binary_round_value (prec emax : Z) (s : bool) (m : positive) (e g : Z) :
  0 < prec -> emin prec emax <= g -> on_grid g m e ->
  match binary_round prec emax s m e with
  | S754_finite s' m' e' =>
      on_grid g m' e'
      /\ (Qabs (dyadic (cond_Zopp s' (Zpos m')) e' - dyadic (cond_Zopp s (Zpos m)) e)
          <= Qpower 2 (- prec) * Qabs (dyadic (cond_Zopp s (Zpos m)) e))%Q
  | S754_infinity _ => True
  | _ => False
  end.
Proof.
  intros Hprec Hg Hgrid.
  pose proof (binary_round_grid prec emax Hprec s m e g Hg Hgrid) as H.
  destruct (binary_round prec emax s m e) as [s' | s' | | s' m' e'];
    try exact H; try exact I.
  destruct H as (-> & Hgrid' & Herr). split; [exact Hgrid' |].
  rewrite !dyadic_cond_Zopp.
  assert (Hpos : (0 <= dyadic (Zpos m) e)%Q).
  { unfold dyadic. apply Qmult_le_0_compat;
      [rewrite <- (Zle_Qle 0); lia | apply Qlt_le_weak, Qpower_2_pos]. }
  destruct s.
  - rewrite Qabs_opp, (Qabs_pos _ Hpos).
    assert (E : (- dyadic (Zpos m') e' - - dyadic (Zpos m) e
                 == - (dyadic (Zpos m') e' - dyadic (Zpos m) e))%Q) by ring.
    rewrite E, Qabs_opp. exact Herr.
  - rewrite (Qabs_pos _ Hpos). exact Herr.
Qed.

(** Reading a binary32 element keeps its value, which is a multiple of
    [2^-149]. *)
Lemma Float32_load_value (s : bool) (m : positive) (e : Z) :
  bounded 24 128 m e = true ->
  exists (M : positive) (E : Z),
    Float32_load (S754_finite s m e) = S754_finite s M E
    /\ on_grid (-149) M E
    /\ (dyadic (cond_Zopp s (Zpos M)) E == dyadic (cond_Zopp s (Zpos m)) e)%Q.
Proof.
  intros Hb. rewrite (Float32_load_finite s m e Hb).
  apply bounded32_inv in Hb as [Hc He].
  pose proof (Pos2Z.is_pos (digits2_pos m)) as Hpos.
  set (j := Z.to_N (53 - Zpos (digits2_pos m))).
  exists (Pos.shiftl m j), (e - Z.of_N j).
  split; [f_equal; unfold j; lia |]. split.
  - apply on_grid_shiftl. unfold on_grid. rewrite Z.max_l by lia.
    apply Z.divide_1_l.
  - rewrite !dyadic_cond_Zopp.
    assert (E : (dyadic (Zpos (Pos.shiftl m j)) (e - Z.of_N j)
                 == dyadic (Zpos m) e)%Q)
      by (rewrite Zpos_shiftl; apply dyadic_shift; lia).
    destruct s; rewrite E; reflexivity.
Qed.

Lemma shl_align_fst (m : positive) (e ez : Z) :
  ez <= e -> Zpos (fst (shl_align m e ez)) = Zpos m * 2 ^ (e - ez).
Proof.
  intros Hez. unfold shl_align.
  destruct (ez - e) as [| d | d] eqn:Hd; try lia; cbn [fst].
  - replace (e - ez) with 0 by lia. lia.
  - change (Pos.iter xO m d) with (Pos.shiftl m (N.pos d)).
    rewrite Zpos_shiftl. f_equal. f_equal. lia.
Qed.

Lemma on_grid_align (g : Z) (m : positive) (e ez : Z) :
  ez <= e -> on_grid g m e -> (2 ^ Z.max 0 (g - ez) | Zpos m * 2 ^ (e - ez)).
Proof.
  intros Hez [k Hk]. rewrite Hk.
  destruct (Z.le_gt_cases g e) as [Hle | Hgt].
  - rewrite (Z.max_l 0 (g - e)) by lia. apply Z.divide_mul_r.
    apply pow2_divide. lia.
  - rewrite (Z.max_r 0 (g - e)) by lia. rewrite <- Z.mul_assoc.
    apply Z.divide_mul_r. rewrite <- Z.pow_add_r by lia.
    apply pow2_divide. lia.
Qed.

(** The sum of two numbers on a grid: exact where it is zero, otherwise
    within [2^-53] of the exact sum and on the grid. *)
Lemma js_add_value (sx sy : bool) (mx my : positive) (ex ey g : Z) :
  -1074 <= g -> on_grid g mx ex -> on_grid g my ey ->
  let total := (dyadic (cond_Zopp sx (Zpos mx)) ex
                + dyadic (cond_Zopp sy (Zpos my)) ey)%Q in
  match js_add (S754_finite sx mx ex) (S754_finite sy my ey) with
  | S754_zero _ => (total == 0)%Q
  | S754_finite s m e =>
      on_grid g m e
      /\ (Qabs (dyadic (cond_Zopp s (Zpos m)) e - total)
          <= Qpower 2 (- (53)) * Qabs total)%Q
  | S754_infinity _ => True
  | S754_nan => False
  end.
Proof.
  intros Hg Hx Hy total. unfold js_add, SFadd.
  set (ez := Z.min ex ey).
  rewrite (shl_align_fst mx ex ez), (shl_align_fst my ey ez) by (unfold ez; lia).
  set (ax := Zpos mx * 2 ^ (ex - ez)). set (ay := Zpos my * 2 ^ (ey - ez)).
  assert (Hexact : (total == dyadic (cond_Zopp sx ax + cond_Zopp sy ay) ez)%Q).
  { unfold total. rewrite <- dyadic_plus.
    assert (Ex : (dyadic (cond_Zopp sx ax) ez == dyadic (cond_Zopp sx (Zpos mx)) ex)%Q).
    { assert (E0 : (dyadic ax ez == dyadic (Zpos mx) ex)%Q).
      { unfold ax. rewrite <- (dyadic_shift (Zpos mx) ex (ex - ez))
          by (unfold ez; lia).
        replace (ex - (ex - ez)) with ez by lia. reflexivity. }
      rewrite !dyadic_cond_Zopp. destruct sx; rewrite E0; reflexivity. }
    assert (Ey : (dyadic (cond_Zopp sy ay) ez == dyadic (cond_Zopp sy (Zpos my)) ey)%Q).
    { assert (E0 : (dyadic ay ez == dyadic (Zpos my) ey)%Q).
      { unfold ay. rewrite <- (dyadic_shift (Zpos my) ey (ey - ez))
          by (unfold ez; lia).
        replace (ey - (ey - ez)) with ez by lia. reflexivity. }
      rewrite !dyadic_cond_Zopp. destruct sy; rewrite E0; reflexivity. }
    rewrite Ex, Ey. reflexivity. }
  assert (Hdiv : (2 ^ Z.max 0 (g - ez) | cond_Zopp sx ax + cond_Zopp sy ay)).
  { apply Z.divide_add_r.
    - destruct sx; cbn [cond_Zopp]; [apply Z.divide_opp_r |];
        apply on_grid_align; (unfold ez; lia) || exact Hx.
    - destruct sy; cbn [cond_Zopp]; [apply Z.divide_opp_r |];
        apply on_grid_align; (unfold ez; lia) || exact Hy. }
  set (z := cond_Zopp sx ax + cond_Zopp sy ay) in *.
  clearbody z. unfold binary_normalize.
  destruct z as [| p | p].
  - rewrite Hexact. apply dyadic_0.
  - pose proof (binary_round_value 53 1024 false p ez g ltac:(lia)
                  ltac:(unfold emin; lia) Hdiv) as H.
    destruct (binary_round 53 1024 false p ez) as [s' | s' | | s' m' e'];
      try contradiction; try exact I.
    destruct H as [Hgrid Herr]. split; [exact Hgrid |].
    rewrite Hexact. exact Herr.
  - assert (Hdiv' : on_grid g p ez).
    { unfold on_grid. apply Z.divide_opp_r in Hdiv. exact Hdiv. }
    pose proof (binary_round_value 53 1024 true p ez g ltac:(lia)
                  ltac:(unfold emin; lia) Hdiv') as H.
    destruct (binary_round 53 1024 true p ez) as [s' | s' | | s' m' e'];
      try contradiction; try exact I.
    destruct H as [Hgrid Herr]. split; [exact Hgrid |].
    rewrite Hexact. exact Herr.
Qed.

(** Two roundings in a row. *)
Lemma compose_error (s t q a b u : Q) :
  (0 <= a -> 0 <= b -> a + b + a * b <= u ->
   Qabs (t - s) <= a * Qabs s -> Qabs (q - t) <= b * Qabs t ->
   Qabs (q - s) <= u * Qabs s)%Q.
Proof.
  intros Ha Hb Hu Hts Hqt.
  pose proof (Qabs_nonneg s) as HS.
  assert (HT : (Qabs t <= Qabs s + a * Qabs s)%Q).
  { assert (E : (t == s + (t - s))%Q) by ring.
    rewrite E at 1. eapply Qle_trans; [apply Qabs_triangle |].
    apply Qplus_le_r. exact Hts. }
  assert (Hq : (Qabs (q - s) <= b * Qabs t + a * Qabs s)%Q).
  { assert (E : (q - s == (q - t) + (t - s))%Q) by ring.
    rewrite E. eapply Qle_trans; [apply Qabs_triangle |].
    apply Qplus_le_compat; assumption. }
  set (S := Qabs s) in *. set (T := Qabs t) in *. clearbody S T.
  eapply Qle_trans; [exact Hq |].
  assert (Hb' : (b * T <= b * (S + a * S))%Q)
    by (rewrite !(Qmult_comm b); apply Qmult_le_compat_r; assumption).
  assert (Hu' : ((a + b + a * b) * S <= u * S)%Q)
    by (apply Qmult_le_compat_r; assumption).
  lra.
Qed.

Lemma add_roundoff_bound :
  (Qpower 2 (- (53)) + Qpower 2 (- (24)) + Qpower 2 (- (53)) * Qpower 2 (- (24))
   <= add_roundoff)%Q.
Proof. vm_compute. discriminate. Qed.

(** The sum of two finite binary32 elements as [add] computes it: exact
    where it is zero, otherwise within [2^-23] of the exact sum. *)
Lemma f32_add_finite_value (sx sy : bool) (mx my : positive) (ex ey : Z) :
  bounded 24 128 mx ex = true -> bounded 24 128 my ey = true ->
  let total := (dyadic (cond_Zopp sx (Zpos mx)) ex
                + dyadic (cond_Zopp sy (Zpos my)) ey)%Q in
  match f32_add (S754_finite sx mx ex) (S754_finite sy my ey) with
  | S754_zero _ => (total == 0)%Q
  | S754_finite s m e =>
      (Qabs (dyadic (cond_Zopp s (Zpos m)) e - total)
       <= add_roundoff * Qabs total)%Q
  | S754_infinity _ => True
  | S754_nan => False
  end.
Proof.
  intros Hx Hy total. unfold f32_add.
  destruct (Float32_load_value sx mx ex Hx) as (MX & EX & -> & HgX & HvX).
  destruct (Float32_load_value sy my ey Hy) as (MY & EY & -> & HgY & HvY).
  pose proof (js_add_value sx sy MX MY EX EY (-149) ltac:(lia) HgX HgY) as Hadd.
  cbv zeta in Hadd.
  assert (Hex : (dyadic (cond_Zopp sx (Zpos MX)) EX
                 + dyadic (cond_Zopp sy (Zpos MY)) EY == total)%Q)
    by (unfold total; rewrite HvX, HvY; reflexivity).
  destruct (js_add (S754_finite sx MX EX) (S754_finite sy MY EY))
    as [s | s | | s m e]; cbn [Float32_store].
  - rewrite <- Hex. exact Hadd.
  - exact I.
  - exact Hadd.
  - destruct Hadd as [Hgrid Herr]. rewrite Hex in Herr.
    pose proof (binary_round_value 24 128 s m e (-149) ltac:(lia)
                  ltac:(unfold emin; lia) Hgrid) as Hst.
    destruct (binary_round 24 128 s m e) as [s' | s' | | s' m' e'];
      try contradiction; try exact I.
    destruct Hst as [_ Hst].
    apply (compose_error total (dyadic (cond_Zopp s (Zpos m)) e) _
             (Qpower 2 (- (53))) (Qpower 2 (- (24)))).
    + apply Qlt_le_weak, Qpower_2_pos.
    + apply Qlt_le_weak, Qpower_2_pos.
    + exact add_roundoff_bound.
    + exact Herr.
    + exact Hst.
Qed.

Lemma js_add_not_finite_l (x Y : float) :
  float_value x = None -> float_value (Float32_store (js_add x Y)) = None.
Proof.
  destruct x as [sx | [] | | sx mx ex]; try discriminate; intros _;
    destruct Y as [sy | [] | | sy my ey]; reflexivity.
Qed.

Lemma js_add_not_finite_r (X y : float) :
  float_value y = None -> float_value (Float32_store (js_add X y)) = None.
Proof.
  destruct y as [sy | [] | | sy my ey]; try discriminate; intros _;
    destruct X as [sx | [] | | sx mx ex]; reflexivity.
Qed.

Lemma float_value_load_None (x : float) :
  float_value x = None -> float_value (Float32_load x) = None.
Proof. destruct x as [sx | sx | | sx mx ex]; try discriminate; reflexivity. Qed.

(** A finite sum has finite terms. *)
Lemma f32_add_finite_inv (x y : float) (q : Q) :
  float_value (f32_add x y) = Some q ->
  (exists vx : Q, float_value x = Some vx)
  /\ (exists vy : Q, float_value y = Some vy).
Proof.
  unfold f32_add. intros H. split.
  - destruct (float_value x) as [vx |] eqn:Hx; [exists vx; reflexivity |].
    rewrite js_add_not_finite_l in H by (apply float_value_load_None, Hx).
    discriminate H.
  - destruct (float_value y) as [vy |] eqn:Hy; [exists vy; reflexivity |].
    rewrite js_add_not_finite_r in H by (apply float_value_load_None, Hy).
    discriminate H.
Qed.

(** One addition of [add] on finite binary32 elements, where the result is
    finite: the relative error is at most [2^-23]. *)
Lemma f32_add_error (x y : float) (vx vy q : Q) :
  is_float32 x = true -> is_float32 y = true ->
  float_value x = Some vx -> float_value y = Some vy ->
  float_value (f32_add x y) = Some q ->
  (Qabs (q - (vx + vy)) <= add_roundoff * Qabs (vx + vy))%Q.
Proof.
  intros Hx Hy Hvx Hvy Hq.
  assert (Hzero : forall v : Q, (Qabs (v - (0 + v)) <= add_roundoff * Qabs (0 + v))%Q).
  { intros v. assert (E : (v - (0 + v) == 0)%Q) by ring. rewrite E.
    apply Qmult_le_0_compat; [discriminate | apply Qabs_nonneg]. }
  assert (Hzero' : forall v : Q, (Qabs (v - (v + 0)) <= add_roundoff * Qabs (v + 0))%Q).
  { intros v. assert (E : (v - (v + 0) == 0)%Q) by ring. rewrite E.
    apply Qmult_le_0_compat; [discriminate | apply Qabs_nonneg]. }
  destruct x as [sx | sx | | sx mx ex]; try discriminate Hvx;
    destruct y as [sy | sy | | sy my ey]; try discriminate Hvy.
  - injection Hvx as <-. injection Hvy as <-.
    destruct sx, sy; injection Hq as <-; apply Hzero.
  - injection Hvx as <-. 
    assert (E : f32_add (S754_zero sx) (S754_finite sy my ey)
                = S754_finite sy my ey).
    { unfold f32_add. change (Float32_load (S754_zero sx)) with (S754_zero sx).
      unfold is_float32 in Hy. cbn [valid_binary] in Hy.
      rewrite (Float32_load_finite sy my ey Hy).
      change (js_add (S754_zero sx) (S754_finite ?s ?m ?e))
        with (S754_finite s m e).
      rewrite <- (Float32_load_finite sy my ey Hy).
      apply Float32_store_load. exact Hy. }
    rewrite E, Hvy in Hq. injection Hq as <-. injection Hvy as <-. apply Hzero.
  - injection Hvy as <-.
    assert (E : f32_add (S754_finite sx mx ex) (S754_zero sy)
                = S754_finite sx mx ex).
    { unfold f32_add. change (Float32_load (S754_zero sy)) with (S754_zero sy).
      unfold is_float32 in Hx. cbn [valid_binary] in Hx.
      rewrite (Float32_load_finite sx mx ex Hx).
      change (js_add (S754_finite ?s ?m ?e) (S754_zero sy))
        with (S754_finite s m e).
      rewrite <- (Float32_load_finite sx mx ex Hx).
      apply Float32_store_load. exact Hx. }
    rewrite E, Hvx in Hq. injection Hq as <-. injection Hvx as <-. apply Hzero'.
  - unfold is_float32 in Hx, Hy. cbn [valid_binary] in Hx, Hy.
    pose proof (f32_add_finite_value sx sy mx my ex ey Hx Hy) as H.
    cbv zeta in H. rewrite float_value_finite in Hvx, Hvy.
    injection Hvx as <-. injection Hvy as <-.
    destruct (f32_add (S754_finite sx mx ex) (S754_finite sy my ey))
      as [s | s | | s m e]; try discriminate Hq.
    + injection Hq as <-. rewrite H.
      assert (E : (0 - 0 == 0)%Q) by ring. rewrite E.
      apply Qmult_le_0_compat; [discriminate | apply Qabs_nonneg].
    + rewrite float_value_finite in Hq. injection Hq as <-. exact H.
Qed.

(** ** The error of the running sum *)

Lemma error_factor_nonneg (k : nat) : (0 <= error_factor k)%Q.
Proof.
  induction k as [| k IH]; [discriminate |]. cbn [error_factor].
  assert (Hu : (0 <= add_roundoff)%Q) by discriminate.
  assert (H1 : (0 <= (1 + add_roundoff) * error_factor k)%Q)
    by (apply Qmult_le_0_compat; [discriminate | exact IH]).
  lra.
Qed.

Lemma error_factor_closed (k : nat) :
  (error_factor k == Qpower (1 + add_roundoff) (Z.of_nat k) - 1)%Q.
Proof.
  induction k as [| k IH]; [reflexivity |].
  cbn [error_factor]. rewrite IH, Nat2Z.inj_succ, <- Z.add_1_r.
  rewrite Qpower_plus by discriminate.
  change (Qpower (1 + add_roundoff) 1) with (1 + add_roundoff)%Q. ring.
Qed.

Section Totals.
Variable g : Float32Array -> Q.

Lemma foldl_plus_init (a : Q) (l : list Float32Array) :
  (foldl (fun acc s => acc + g s) a l
   == a + foldl (fun acc s => acc + g s) 0 l)%Q.
Proof.
  revert a. induction l as [| x l IH]; intros a; cbn [foldl]; [ring |].
  rewrite (IH (a + g x)%Q), (IH (0 + g x)%Q). ring.
Qed.

Lemma foldl_plus_perm (l1 l2 : list Float32Array) :
  l1 ≡ₚ l2 ->
  forall a : Q,
    (foldl (fun acc s => acc + g s) a l1
     == foldl (fun acc s => acc + g s) a l2)%Q.
Proof.
  induction 1 as [| x l1 l2 _ IH | x y l | l1 l2 l3 _ IH12 _ IH23]; intros a.
  - reflexivity.
  - cbn [foldl]. apply IH.
  - cbn [foldl].
    rewrite (foldl_plus_init (a + g y + g x)%Q), (foldl_plus_init (a + g x + g y)%Q).
    ring.
  - rewrite IH12. apply IH23.
Qed.
End Totals.

Lemma exact_total_snoc (i : nat) (l : list Float32Array) (s : Float32Array) :
  exact_total i (l ++ [s]) = (exact_total i l + value_at i s)%Q.
Proof. unfold exact_total. rewrite foldl_app. reflexivity. Qed.

Lemma abs_total_snoc (i : nat) (l : list Float32Array) (s : Float32Array) :
  abs_total i (l ++ [s]) = (abs_total i l + Qabs (value_at i s))%Q.
Proof. unfold abs_total. rewrite foldl_app. reflexivity. Qed.

Lemma abs_total_bounds (i : nat) (l : list Float32Array) :
  (0 <= abs_total i l /\ Qabs (exact_total i l) <= abs_total i l)%Q.
Proof.
  induction l as [| s l [IH0 IH]] using rev_ind.
  - split; discriminate.
  - rewrite exact_total_snoc, abs_total_snoc.
    pose proof (Qabs_nonneg (value_at i s)) as Hv.
    pose proof (Qabs_triangle (exact_total i l) (value_at i s)) as Ht.
    split; lra.
Qed.

(** One more addition. *)
Lemma step_bound (q vp vv T A gam u : Q) :
  (0 <= u -> 0 <= gam -> 0 <= A -> Qabs T <= A ->
   Qabs (vp - T) <= gam * A ->
   Qabs (q - (vp + vv)) <= u * Qabs (vp + vv) ->
   Qabs (q - (T + vv)) <= ((1 + u) * gam + u) * (A + Qabs vv))%Q.
Proof.
  intros Hu Hg HA HT HE Hq.
  pose proof (Qabs_nonneg vv) as HV.
  assert (Hsum : (Qabs (vp + vv) <= gam * A + A + Qabs vv)%Q).
  { assert (E : (vp + vv == (vp - T) + T + vv)%Q) by ring.
    rewrite E at 1.
    eapply Qle_trans; [apply Qabs_triangle |].
    apply Qplus_le_compat; [| apply Qle_refl].
    eapply Qle_trans; [apply Qabs_triangle |].
    apply Qplus_le_compat; assumption. }
  assert (Hq' : (Qabs (q - (T + vv)) <= u * Qabs (vp + vv) + gam * A)%Q).
  { assert (E : (q - (T + vv) == (q - (vp + vv)) + (vp - T))%Q) by ring.
    rewrite E. eapply Qle_trans; [apply Qabs_triangle |].
    apply Qplus_le_compat; assumption. }
  assert (Hu' : (u * Qabs (vp + vv) <= u * (gam * A + A + Qabs vv))%Q)
    by (rewrite !(Qmult_comm u); apply Qmult_le_compat_r; assumption).
  set (V := Qabs vv) in *. set (X := Qabs (vp + vv)) in *.
  set (Y := Qabs (q - (T + vv))) in *. clearbody V X Y.
  assert (HgV : (0 <= gam * V)%Q) by (apply Qmult_le_0_compat; assumption).
  assert (HugV : (0 <= u * (gam * V))%Q) by (apply Qmult_le_0_compat; assumption).
  eapply Qle_trans; [exact Hq' |].
  eapply Qle_trans; [apply Qplus_le_compat; [exact Hu' | apply Qle_refl] |].
  assert (E : (((1 + u) * gam + u) * (A + V)
               == u * (gam * A + A + V) + gam * A + (gam * V + u * (gam * V)))%Q)
    by ring.
  rewrite E. lra.
Qed.

Lemma sum_merge_all_is_float32 (n : nat) (samples : list Float32Array) :
  Forall (fun x => is_float32 x = true) (sum (merge_all (zero_state n) samples)).
Proof.
  destruct samples as [| s samples _] using rev_ind.
  - cbn. unfold new_Float32Array. apply Forall_replicate. reflexivity.
  - unfold merge_all. rewrite foldl_app. cbn. apply add_is_float32.
Qed.

(** The error of the sum that [k] merges build up under an index: where the
    sum is finite, it differs from the exact sum of the merged elements by at
    most [((1 + u)^k - 1)] times the sum of their absolute values. *)
Lemma sum_error (n : nat) (samples : list Float32Array) (i : nat) :
  Forall (fun s => exists v, s !! i = Some v /\ is_float32 v = true) samples ->
  forall (x : float) (q : Q),
    sum (merge_all (zero_state n) samples) !! i = Some x ->
    float_value x = Some q ->
    (Qabs (q - exact_total i samples)
     <= error_factor (length samples) * abs_total i samples)%Q.
Proof.
  induction samples as [| s l IH] using rev_ind; intros Hall x q Hx Hq.
  - cbn in Hx. apply lookup_replicate in Hx as [-> _].
    injection Hq as <-. discriminate.
  - apply Forall_app in Hall as [Hl Hs].
    apply Forall_singleton in Hs as (v & Hv & Hvalid).
    unfold merge_all in Hx. rewrite foldl_app in Hx. cbn [foldl merge sum] in Hx.
    fold (merge_all (zero_state n) l) in Hx.
    assert (Hi : (i < length (sum (merge_all (zero_state n) l)))%nat).
    { apply lookup_lt_Some in Hx. rewrite length_add in Hx. exact Hx. }
    destruct (lookup_lt_is_Some_2 _ _ Hi) as [p Hp].
    rewrite (lookup_add_both _ _ _ _ _ Hp Hv) in Hx. injection Hx as <-.
    destruct (f32_add_finite_inv p v q Hq) as [[vp Hvp] [vv Hvv]].
    assert (Hpvalid : is_float32 p = true)
      by exact (Forall_lookup_1 _ _ i p (sum_merge_all_is_float32 n l) Hp).
    pose proof (IH Hl p vp Hp Hvp) as HE.
    pose proof (f32_add_error p v vp vv q Hpvalid Hvalid Hvp Hvv Hq) as Hstep.
    destruct (abs_total_bounds i l) as [HA HT].
    rewrite exact_total_snoc, abs_total_snoc, length_app, Nat.add_1_r.
    cbn [error_factor].
    assert (Hval : value_at i s = vv).
    { unfold value_at. rewrite Hv. cbn. rewrite Hvv. reflexivity. }
    rewrite Hval.
    apply step_bound with vp; try assumption.
    + discriminate.
    + apply error_factor_nonneg.
Qed.

Lemma exact_total_perm (i : nat) (l1 l2 : list Float32Array) :
  l1 ≡ₚ l2 -> (exact_total i l1 == exact_total i l2)%Q.
Proof. intros Hp. apply (foldl_plus_perm (value_at i) l1 l2 Hp). Qed.

Lemma abs_total_perm (i : nat) (l1 l2 : list Float32Array) :
  l1 ≡ₚ l2 -> (abs_total i l1 == abs_total i l2)%Q.
Proof.
  intros Hp. apply (foldl_plus_perm (fun s => Qabs (value_at i s)) l1 l2 Hp).
Qed.

(** Two orders of the same buffers: each finite sum is within the error it
    can have built up of the exact sum, and the two agree within twice
    that. *)
Lemma merge_order_close (n : nat) (l1 l2 : list Float32Array) (i : nat)
    (x1 x2 : float) (q1 q2 : Q) :
  l1 ≡ₚ l2 ->
  Forall (fun sample => length sample = n) l1 ->
  Forall (Forall (fun x => is_float32 x = true)) l1 ->
  sum (merge_all (zero_state n) l1) !! i = Some x1 ->
  sum (merge_all (zero_state n) l2) !! i = Some x2 ->
  float_value x1 = Some q1 -> float_value x2 = Some q2 ->
  (Qabs (q1 - exact_total i l1) <= error_factor (length l1) * abs_total i l1)%Q
  /\ (Qabs (q2 - exact_total i l1)
      <= error_factor (length l1) * abs_total i l1)%Q
  /\ (Qabs (q1 - q2) <= 2 * error_factor (length l1) * abs_total i l1)%Q.
Proof.
  intros Hperm Hlen Hvalid Hx1 Hx2 Hq1 Hq2.
  assert (Hi : (i < n)%nat).
  { apply lookup_lt_Some in Hx1. rewrite length_sum_merge_all in Hx1.
    cbn in Hx1. unfold new_Float32Array in Hx1.
    rewrite length_replicate in Hx1. exact Hx1. }
  assert (Hall1 : Forall (fun s : Float32Array =>
                            exists v, s !! i = Some v /\ is_float32 v = true) l1).
  { apply Forall_lookup. intros k s Hs.
    pose proof (Forall_lookup_1 _ _ k s Hlen Hs) as Hls.
    pose proof (Forall_lookup_1 _ _ k s Hvalid Hs) as Hvs.
    cbn beta in Hls, Hvs.
    assert (His : (i < length s)%nat) by lia.
    destruct (lookup_lt_is_Some_2 s i His) as [v Hv].
    exists v. split; [exact Hv |].
    exact (Forall_lookup_1 _ s i v Hvs Hv). }
  assert (Hall2 : Forall (fun s : Float32Array =>
                            exists v, s !! i = Some v /\ is_float32 v = true) l2)
    by (rewrite <- Hperm; exact Hall1).
  pose proof (sum_error n l1 i Hall1 x1 q1 Hx1 Hq1) as H1.
  pose proof (sum_error n l2 i Hall2 x2 q2 Hx2 Hq2) as H2.
  rewrite <- (exact_total_perm i l1 l2 Hperm) in H2.
  rewrite <- (abs_total_perm i l1 l2 Hperm) in H2.
  rewrite <- (Permutation_length Hperm) in H2.
  split; [exact H1 |]. split; [exact H2 |].
  assert (E : (q1 - q2 == (q1 - exact_total i l1) + - (q2 - exact_total i l1))%Q)
    by ring.
  rewrite E. eapply Qle_trans; [apply Qabs_triangle |].
  rewrite Qabs_opp.
  set (B := (error_factor (length l1) * abs_total i l1)%Q) in *.
  assert (E2 : (2 * error_factor (length l1) * abs_total i l1 == B + B)%Q)
    by (unfold B; ring).
  rewrite E2. apply Qplus_le_compat; assumption.
Qed.

(** Where no element is negative, the sum of the absolute values is the
    exact sum. *)
Lemma abs_total_nonneg (i : nat) (l : list Float32Array) :
  Forall (fun s => (0 <= value_at i s)%Q) l ->
  (abs_total i l == exact_total i l)%Q.
Proof.
  induction l as [| s l IH] using rev_ind; intros Hall; [reflexivity |].
  apply Forall_app in Hall as [Hl Hs]. rewrite Forall_singleton in Hs.
  rewrite exact_total_snoc, abs_total_snoc, (IH Hl), (Qabs_pos _ Hs).
  reflexivity.
Qed.

(** C8, as the code has it: merging equal-length buffers into a fresh state in
    any order gives exactly the same sample counter and a sum of the same
    length, and the addition of [add] commutes.  The sums themselves need not
    be equal.  For buffers of binary32 values and under every index where
    both sums are finite, each sum differs from the exact sum [T] of the
    merged elements by at most [((1 + u)^k - 1) · A], and the two sums from
    each other by at most twice that, where [k] is the number of buffers, [A]
    the sum of the absolute values of the merged elements and [u = 2^-23]
    bounds the rounding of one addition; where no merged element is negative,
    [A = T], so that the sums agree within the relative error
    [2 · ((1 + u)^k - 1)]. *)
Theorem C8_merge_order (n : nat) (l1 l2 : list Float32Array) :
  l1 ≡ₚ l2 ->
  Forall (fun sample => length sample = n) l1 ->
  sampleCount (merge_all (zero_state n) l1)
  = sampleCount (merge_all (zero_state n) l2)
  /\ length (sum (merge_all (zero_state n) l1))
     = length (sum (merge_all (zero_state n) l2))
  /\ (forall x y : float, f32_add x y = f32_add y x)
  /\ (forall k : nat,
         (error_factor k == Qpower (1 + add_roundoff) (Z.of_nat k) - 1)%Q)
  /\ (forall (i : nat) (x1 x2 : float) (q1 q2 : Q),
         Forall (Forall (fun x => is_float32 x = true)) l1 ->
         sum (merge_all (zero_state n) l1) !! i = Some x1 ->
         sum (merge_all (zero_state n) l2) !! i = Some x2 ->
         float_value x1 = Some q1 -> float_value x2 = Some q2 ->
         (Qabs (q1 - exact_total i l1)
          <= error_factor (length l1) * abs_total i l1)%Q
         /\ (Qabs (q2 - exact_total i l1)
             <= error_factor (length l1) * abs_total i l1)%Q
         /\ (Qabs (q1 - q2) <= 2 * error_factor (length l1) * abs_total i l1)%Q
         /\ (Forall (fun s => (0 <= value_at i s)%Q) l1 ->
             (Qabs (q1 - q2)
              <= 2 * error_factor (length l1) * exact_total i l1)%Q)).
Proof.
  intros Hperm Hlen. split; [| split; [| split; [| split]]].
  - rewrite !sampleCount_merge_all_length.
    rewrite (Permutation_length Hperm). reflexivity.
  - rewrite !length_sum_merge_all. reflexivity.
  - apply f32_add_comm.
  - apply error_factor_closed.
  - intros i x1 x2 q1 q2 Hvalid Hx1 Hx2 Hq1 Hq2.
    destruct (merge_order_close n l1 l2 i x1 x2 q1 q2 Hperm Hlen Hvalid
                Hx1 Hx2 Hq1 Hq2) as (H1 & H2 & Hclose).
    split; [exact H1 |]. split; [exact H2 |]. split; [exact Hclose |].
    intros Hpos. rewrite <- (abs_total_nonneg i l1 Hpos). exact Hclose.
Qed.

(** The buffers [[1]], [[2^-24]] and [[2^-24]] in two orders, by the theorem
    of C8: one order ends at 1 (each [2^-24] is lost to rounding), the other
    at [1 + 2^-23]; the two differ by [2^-23], within the bound. *)
Lemma C8_merge_order_witness :
  let t := f32 1 (-24) in
  let l1 := [[one32]; [t]; [t]] in
  let l2 := [[t]; [t]; [one32]] in
  sum (merge_all (zero_state 1) l1) = [one32]
  /\ sum (merge_all (zero_state 1) l2) = [f32 8388609 (-23)]
  /\ sampleCount (merge_all (zero_state 1) l1)
     = sampleCount (merge_all (zero_state 1) l2)
  /\ exists q1 q2 : Q,
       float_value one32 = Some q1
       /\ float_value (f32 8388609 (-23)) = Some q2
       /\ (Qabs (q1 - q2) <= 2 * error_factor 3 * exact_total 0 l1)%Q.
Proof.
  intros t l1 l2.
  assert (Hperm : l1 ≡ₚ l2).
  { change l1 with ([[one32]] ++ [[t]; [t]]).
    change l2 with ([[t]; [t]] ++ [[one32]]). apply Permutation_app_comm. }
  assert (Hlen : Forall (fun sample : Float32Array => length sample = 1%nat) l1)
    by (repeat constructor).
  destruct (C8_merge_order 1 l1 l2 Hperm Hlen) as (Hcount & _ & _ & _ & Hsum).
  split; [reflexivity |]. split; [reflexivity |]. split; [exact Hcount |].
  eexists. eexists. split; [reflexivity |]. split; [reflexivity |].
  refine (proj2 (proj2 (proj2 (Hsum 0%nat one32 (f32 8388609 (-23)) _ _ _
            eq_refl eq_refl eq_refl eq_refl))) _).
  - repeat constructor.
  - repeat constructor; vm_compute; discriminate.
Defined.

(** C8 as stated fails: three buffers merged in two orders give sums that are
    not within a small epsilon of each other.  Under the first index the
    samples are not negative: one order stays at the largest binary32 number
    and the other overflows to [Infinity].  Under the second index, where the
    samples have both signs, one order loses the 1 to rounding and ends at 0,
    the other ends at 1: the difference is the whole sum. *)
Lemma C8_order_changes_sum :
  let largest := S754_finite false 16777215 104 in
  let a := [largest; f32 (2 ^ 24) 0] in
  let b := [f32 1 102; one32] in
  let c := [f32 1 102; S754_finite true 8388608 1] in
  [a; b; c] ≡ₚ [b; c; a]
  /\ Forall (fun sample => length sample = 2%nat
                           /\ Forall (fun x => is_float32 x = true) sample)
       [a; b; c]
  /\ sum (merge_all (zero_state 2) [a; b; c]) = [largest; pos_zero]
  /\ sum (merge_all (zero_state 2) [b; c; a]) = [Infinity; one32]
  /\ sampleCount (merge_all (zero_state 2) [a; b; c]) = of_Z 3.
Proof.
  intros largest a b c. split; [| split; [| split; [| split]]].
  - change [a; b; c] with ([a] ++ [b; c]). apply Permutation_app_comm.
  - repeat constructor.
  - reflexivity.
  - reflexivity.
  - reflexivity.
Qed.
